(** * Call-session control plane of the IVR orchestrator

    A shallow embedding of the TypeScript sources: the trunk store
    ([store/trunk-store.ts]), the per-trunk origination queue
    ([QueueManager]), the channel session ([modules/ari/channel-manager.ts]),
    the action controller ([api/controllers/action-controller.ts]), the
    push registry ([modules/websocket/websocket-service.ts]), the call store
    ([store/call-store.ts]), the OTP verdict route of the orchestrator, and
    the PBX event handler and service ([ARIEventHandler], [ARIService]).

    JavaScript [Map]s are [gmap]s, [Set]s are [gset]s, optional fields are
    [option]s, numbers that the code computes with [Math.random()] are
    binary64 doubles ([SpecFloat]).  What the code obtains from its
    environment (the clock, random UUIDs, PBX replies, fetched action
    scripts) is an explicit argument. *)

From Stdlib Require Import ZArith QArith Ascii String DecimalString SpecFloat.
From stdpp Require Import gmap strings list fin_maps.

Local Open Scope Z_scope.
Local Open Scope string_scope.

(** ** TrunkStore *)

Module TrunkStore.

(** [interface Trunk]; [is_verified?] is an optional field. *)
Record Trunk := mkTrunk {
  trunk_id : string;
  phone_number : string;
  is_verified : option bool
}.

(** [interface TrunkAssignment]; [timeout_id] is the handle returned by
    [setTimeout]. *)
Record TrunkAssignment := mkAssignment {
  a_trunk_id : string;
  trunk_data : Trunk;
  assigned_at : Z;
  timeout_id : nat
}.

(** The store.  [timers] is the part of the event loop the store talks to:
    every armed TTL timer, with the assignment id its callback releases. *)
Record Store := mkStore {
  trunksByUserToken : gmap string (list Trunk);
  trunkUsageCount : gmap string nat;
  assignments : gmap string TrunkAssignment;
  timers : gmap nat string;
  nextTimer : nat
}.

Definition empty : Store := mkStore ∅ ∅ ∅ ∅ 0.

(** [TrunkConfig.MAX_TRUNK_USAGE] *)
Definition MAX_TRUNK_USAGE : nat := 4.

(** [userToken.replace(/-/g, '')] *)
Fixpoint removeDashes (s : string) : string :=
  match s with
  | EmptyString => EmptyString
  | String c rest =>
      if Ascii.eqb c "-"%char then removeDashes rest
      else String c (removeDashes rest)
  end.

Definition setTimeout (aid : string) (st : Store) : Store * nat :=
  (mkStore (trunksByUserToken st) (trunkUsageCount st) (assignments st)
           (<[nextTimer st := aid]> (timers st)) (S (nextTimer st)),
   nextTimer st).

Definition clearTimeout (t : nat) (st : Store) : Store :=
  mkStore (trunksByUserToken st) (trunkUsageCount st) (assignments st)
          (delete t (timers st)) (nextTimer st).

(** [updateTrunkInventory(data)]: [data] is the list of user groups
    [{user_token, trunks}] in the order the fetcher delivers them. *)
Definition updateTrunkInventory (st : Store) (data : list (string * list Trunk)) : Store :=
  let byUser :=
    foldl (fun m g => <[removeDashes (fst g) := snd g]> m)
          (∅ : gmap string (list Trunk)) data in
  let allTrunks := concat (map snd data) in
  let currentTrunkIds : gset string := list_to_set (map trunk_id allTrunks) in
  let trunkById :=
    foldl (fun m t => <[trunk_id t := t]> m) (∅ : gmap string Trunk) allTrunks in
  let usage1 :=
    foldl (fun m t =>
             match m !! trunk_id t with
             | Some _ => m
             | None => <[trunk_id t := 0%nat]> m
             end) (trunkUsageCount st) allTrunks in
  let assignments' :=
    (fun a => match trunkById !! a_trunk_id a with
              | Some nuevoTrunkData =>
                  mkAssignment (a_trunk_id a) nuevoTrunkData (assigned_at a) (timeout_id a)
              | None => a
              end) <$> assignments st in
  let usage2 := filter (fun kv => fst kv ∈ currentTrunkIds) usage1 in
  mkStore byUser usage2 assignments' (timers st) (nextTimer st).

Definition getTrunksForUser (st : Store) (userToken : string) : list Trunk :=
  default [] (trunksByUserToken st !! removeDashes userToken).

Definition isCustomOrTelnyxTrunk (trunk : Trunk) : bool :=
  String.prefix "telnyx_" (trunk_id trunk) || String.prefix "custom_" (trunk_id trunk).

(** [None] is [Infinity]. *)
Definition getMaxUsageForTrunk (trunk : Trunk) : option nat :=
  if isCustomOrTelnyxTrunk trunk then
    match is_verified trunk with
    | Some true => Some 9%nat
    | _ => Some MAX_TRUNK_USAGE
    end
  else None.

(** [this.trunkUsageCount.get(id) || 0] *)
Definition usageOf (st : Store) (id : string) : nat :=
  default 0%nat (trunkUsageCount st !! id).

(** The [for (const trunk of trunks)] loop of [findAvailableTrunk]. *)
Fixpoint scanTrunks (st : Store) (trunks : list Trunk) : option Trunk :=
  match trunks with
  | [] => None
  | trunk :: rest =>
      match getMaxUsageForTrunk trunk with
      | None => Some trunk
      | Some maxUsage =>
          if (usageOf st (trunk_id trunk) <? maxUsage)%nat then Some trunk
          else scanTrunks st rest
      end
  end.

Definition findAvailableTrunk (st : Store) (userToken : string) : option Trunk :=
  scanTrunks st (getTrunksForUser st userToken).

Inductive AssignResult :=
| AssignOk (trunk : Trunk) (assignment_uuid : string)
| AssignError (error : string).

(** [assignTrunk]; [now] is [new Date()] and [uuid] is
    [crypto.randomUUID()]. *)
Definition assignTrunk (st : Store) (userToken : string) (now : Z) (uuid : string)
  : Store * AssignResult :=
  match findAvailableTrunk st userToken with
  | None => (st, AssignError "No hay trunks disponibles para este user_token")
  | Some availableTrunk =>
      let currentUsage := usageOf st (trunk_id availableTrunk) in
      let st1 := mkStore (trunksByUserToken st)
                   (<[trunk_id availableTrunk := S currentUsage]> (trunkUsageCount st))
                   (assignments st) (timers st) (nextTimer st) in
      let '(st2, tid) := setTimeout uuid st1 in
      let assignment := mkAssignment (trunk_id availableTrunk) availableTrunk now tid in
      (mkStore (trunksByUserToken st2) (trunkUsageCount st2)
               (<[uuid := assignment]> (assignments st2)) (timers st2) (nextTimer st2),
       AssignOk availableTrunk uuid)
  end.

Definition getTrunkByAssignment (st : Store) (assignmentUuid : string)
  : option TrunkAssignment :=
  assignments st !! assignmentUuid.

Inductive OpResult :=
| OpOk (message : string)
| OpNotFound (message : string).

Definition keepAlive (st : Store) (assignmentUuid : string) (now : Z)
  : Store * OpResult :=
  match assignments st !! assignmentUuid with
  | None => (st, OpNotFound "Asignación no encontrada")
  | Some assignment =>
      let st1 := clearTimeout (timeout_id assignment) st in
      let '(st2, newTimeoutId) := setTimeout assignmentUuid st1 in
      let assignment' := mkAssignment (a_trunk_id assignment) (trunk_data assignment)
                           now newTimeoutId in
      (mkStore (trunksByUserToken st2) (trunkUsageCount st2)
               (<[assignmentUuid := assignment']> (assignments st2))
               (timers st2) (nextTimer st2),
       OpOk "Timeout de asignación renovado por 2 minutos")
  end.

Definition releaseAssignment (st : Store) (assignmentUuid : string) : Store * OpResult :=
  match assignments st !! assignmentUuid with
  | None => (st, OpNotFound "Asignación no encontrada")
  | Some assignment =>
      let st1 := clearTimeout (timeout_id assignment) st in
      let currentUsage := usageOf st1 (a_trunk_id assignment) in
      let usage' :=
        if (0 <? currentUsage)%nat
        then <[a_trunk_id assignment := (currentUsage - 1)%nat]> (trunkUsageCount st1)
        else trunkUsageCount st1 in
      (mkStore (trunksByUserToken st1) usage'
               (delete assignmentUuid (assignments st1)) (timers st1) (nextTimer st1),
       OpOk "Trunk liberado correctamente")
  end.

(** The private twin used by the TTL callback. *)
Definition releaseAssignmentById (st : Store) (assignmentId : string) : Store * OpResult :=
  match assignments st !! assignmentId with
  | None => (st, OpNotFound "Asignación no encontrada")
  | Some assignment =>
      let st1 := clearTimeout (timeout_id assignment) st in
      let currentUsage := usageOf st1 (a_trunk_id assignment) in
      let usage' :=
        if (0 <? currentUsage)%nat
        then <[a_trunk_id assignment := (currentUsage - 1)%nat]> (trunkUsageCount st1)
        else trunkUsageCount st1 in
      (mkStore (trunksByUserToken st1) usage'
               (delete assignmentId (assignments st1)) (timers st1) (nextTimer st1),
       OpOk "Trunk liberado correctamente")
  end.

(** The TTL timer [t] comes due.  A timer that was cleared is not in
    [timers] and its callback never runs. *)
Definition fireTimer (st : Store) (t : nat) : Store :=
  match timers st !! t with
  | None => st
  | Some assignmentId =>
      fst (releaseAssignmentById
             (mkStore (trunksByUserToken st) (trunkUsageCount st) (assignments st)
                      (delete t (timers st)) (nextTimer st))
             assignmentId)
  end.

(** *** Vocabulary of the statements *)

(** The test of the loop of [findAvailableTrunk]: the usage of [trunk] is
    below its cap. *)
Definition belowCap (st : Store) (trunk : Trunk) : bool :=
  match getMaxUsageForTrunk trunk with
  | None => true
  | Some maxUsage => (usageOf st (trunk_id trunk) <? maxUsage)%nat
  end.

(** Every trunk record of the inventory. *)
Definition inInventory (st : Store) (trunk : Trunk) : Prop :=
  ∃ token trunks, trunksByUserToken st !! token = Some trunks ∧ trunk ∈ trunks.

(** No capped trunk of the inventory is used beyond its cap. *)
Definition capsRespected (st : Store) : Prop :=
  ∀ trunk maxUsage,
    inInventory st trunk →
    getMaxUsageForTrunk trunk = Some maxUsage →
    (usageOf st (trunk_id trunk) ≤ maxUsage)%nat.

(** The usage counters are keyed by [trunk_id]: the cap of an id is only
    defined when all records carrying the id agree on it. *)
Definition capsAgree (st : Store) : Prop :=
  ∀ t1 t2,
    inInventory st t1 → inInventory st t2 →
    trunk_id t1 = trunk_id t2 →
    getMaxUsageForTrunk t1 = getMaxUsageForTrunk t2.

(** *** Runs of the store *)

(** What reaches the store: the three requests, a TTL timer coming due and
    the periodic inventory refresh. *)
Inductive Op :=
| Assign (userToken : string) (now : Z) (uuid : string)
| KeepAlive (assignmentUuid : string) (now : Z)
| Release (assignmentUuid : string)
| TimerDue (t : nat)
| Refresh (data : list (string * list Trunk)).

Definition applyOp (st : Store) (op : Op) : Store :=
  match op with
  | Assign userToken now uuid => fst (assignTrunk st userToken now uuid)
  | KeepAlive assignmentUuid now => fst (keepAlive st assignmentUuid now)
  | Release assignmentUuid => fst (releaseAssignment st assignmentUuid)
  | TimerDue t => fireTimer st t
  | Refresh data => updateTrunkInventory st data
  end.

Definition runOps (st : Store) (ops : list Op) : Store := foldl applyOp st ops.

Definition isRefresh (op : Op) : bool :=
  match op with Refresh _ => true | _ => false end.

(** [crypto.randomUUID()] hands out an id that no live assignment has. *)
Fixpoint freshRun (st : Store) (ops : list Op) : Prop :=
  match ops with
  | [] => True
  | op :: rest =>
      match op with
      | Assign _ _ uuid => assignments st !! uuid = None
      | _ => True
      end
      ∧ freshRun (applyOp st op) rest
  end.

(** Every live assignment holds the handle of an armed timer that releases
    it, every armed timer belongs to a live assignment, and the handles in
    use were all handed out by [setTimeout]. *)
Definition timersConsistent (st : Store) : Prop :=
  (∀ id a, assignments st !! id = Some a → timers st !! timeout_id a = Some id)
  ∧ (∀ t id, timers st !! t = Some id →
       ∃ a, assignments st !! id = Some a ∧ timeout_id a = t)
  ∧ (∀ t, is_Some (timers st !! t) → (t < nextTimer st)%nat).

(** The live assignments that point at a trunk id. *)
Definition assignmentsOn (st : Store) (id : string) : nat :=
  size (filter (fun kv => a_trunk_id (snd kv) = id) (assignments st)).

(** Each counter is the number of live assignments of its trunk. *)
Definition accounted (st : Store) : Prop :=
  ∀ id, usageOf st id = assignmentsOn st id.

(** The trunk ids an inventory lists. *)
Definition listedIds (data : list (string * list Trunk)) : list string :=
  map trunk_id (concat (map snd data)).

(** The trunks of the last group of [data] whose token, dashes removed, is
    [token]. *)
Fixpoint lastGroup (token : string) (data : list (string * list Trunk))
  : option (list Trunk) :=
  match data with
  | [] => None
  | g :: rest =>
      match lastGroup token rest with
      | Some trunks => Some trunks
      | None => if String.eqb (removeDashes (fst g)) token then Some (snd g) else None
      end
  end.

(** *** Sample inventories *)

Definition custom_A : Trunk := mkTrunk "custom_A" "15550001" (Some false).
Definition custom_V : Trunk := mkTrunk "custom_V" "15550002,15550003" (Some true).
Definition twilio_T : Trunk := mkTrunk "PN123" "15550004" None.

Definition sampleStore : Store :=
  updateTrunkInventory empty [("u-1", [custom_A; custom_V; twilio_T])].

(** [n] assignments in a row for the same token, with ids [1], [2], ... *)
Fixpoint assignMany (n : nat) (userToken : string) (st : Store)
  : Store * list AssignResult :=
  match n with
  | O => (st, [])
  | S n' =>
      let '(st1, rs) := assignMany n' userToken st in
      let '(st2, r) := assignTrunk st1 userToken 0 (String (Ascii.ascii_of_nat (65 + n')) EmptyString) in
      (st2, (rs ++ [r])%list)
  end.

Definition isOk (r : AssignResult) : bool :=
  match r with AssignOk _ _ => true | AssignError _ => false end.

End TrunkStore.

(** ** QueueManager: the per-trunk origination queue

    [processQueue] is a coroutine: it runs until its next [await] and is
    resumed by the event loop.  The state keeps, per trunk, the [await] the
    coroutine is suspended at; a run is a sequence of inputs of the event
    loop.  Time is the value of [Date.now()], which never decreases, and the
    timer of [sleep] is not run before it is due.  [clear] and [getStats] are
    not part of the runs. *)

Module QueueManager.

(** [interface QueueElement].  [callFunction] is a closure of the caller;
    here it is a handle, and the environment reports when and how the
    promise it returned settles. *)
Record QueueElement := mkElement {
  id : string;
  callFunction : nat
}.

(** Where the [processQueue] coroutine of a trunk is suspended. *)
Inductive Await :=
| AwaitSleep (due : Z)
| AwaitCall (element : QueueElement).

(** What an observer of the PBX sees. *)
Inductive Event :=
| Started (trunkId : string) (element : QueueElement) (time : Z)
| Settled (trunkId : string) (element : QueueElement) (ok : bool) (time : Z).

Definition eventTrunk (e : Event) : string :=
  match e with Started t _ _ => t | Settled t _ _ _ => t end.

Definition eventTime (e : Event) : Z :=
  match e with Started _ _ t => t | Settled _ _ _ t => t end.

(** The three maps of the class, the suspended coroutines, the clock read
    by [Date.now()] (milliseconds) and the observed events, newest first. *)
Record State := mkState {
  queues : gmap string (list QueueElement);
  processing : gset string;
  lastCallTime : gmap string Z;
  suspended : gmap string Await;
  clock : Z;
  log : list Event
}.

Definition init (t0 : Z) : State := mkState ∅ ∅ ∅ ∅ t0 [].

Definition PROCESS_DELAY : Z := 1100.
Definition QUEUE_LIMIT : nat := 50.

Definition queueOf (st : State) (trunkId : string) : list QueueElement :=
  default [] (queues st !! trunkId).

Definition setQueue (trunkId : string) (q : list QueueElement) (st : State) : State :=
  mkState (<[trunkId := q]> (queues st)) (processing st) (lastCallTime st)
          (suspended st) (clock st) (log st).

Definition setLastCallTime (trunkId : string) (t : Z) (st : State) : State :=
  mkState (queues st) (processing st) (<[trunkId := t]> (lastCallTime st))
          (suspended st) (clock st) (log st).

Definition suspend (trunkId : string) (a : Await) (st : State) : State :=
  mkState (queues st) (processing st) (lastCallTime st)
          (<[trunkId := a]> (suspended st)) (clock st) (log st).

Definition emit (e : Event) (st : State) : State :=
  mkState (queues st) (processing st) (lastCallTime st)
          (suspended st) (clock st) (e :: log st).

(** The [finally] of [processQueue]: the coroutine ends. *)
Definition finish (trunkId : string) (st : State) : State :=
  mkState (queues st) (processing st ∖ {[trunkId]}) (lastCallTime st)
          (delete trunkId (suspended st)) (clock st) (log st).

(** [const element = queue[0]; await element.callFunction()] up to the
    [await]. *)
Definition callHead (st : State) (trunkId : string) : State :=
  match queueOf st trunkId with
  | element :: _ =>
      suspend trunkId (AwaitCall element) (emit (Started trunkId element (clock st)) st)
  | [] =>
      (* [queue[0]] is undefined: the call throws, the inner [catch] throws
         again while it formats [element.id], and the coroutine leaves
         through both [finally] blocks without recording a time. *)
      finish trunkId st
  end.

(** One pass from the [while] test to the next [await] or to the exit. *)
Definition loopHead (st : State) (trunkId : string) : State :=
  match queueOf st trunkId with
  | [] => finish trunkId st
  | _ :: _ =>
      let lastTime := default 0 (lastCallTime st !! trunkId) in
      let now := clock st in
      let timeSinceLastCall := now - lastTime in
      if (timeSinceLastCall <? PROCESS_DELAY)%Z then
        let waitTime := PROCESS_DELAY - timeSinceLastCall in
        suspend trunkId (AwaitSleep (now + waitTime)) st
      else callHead st trunkId
  end.

Definition processQueue (st : State) (trunkId : string) : State :=
  if decide (trunkId ∈ processing st) then st
  else
    loopHead (mkState (queues st) ({[trunkId]} ∪ processing st) (lastCallTime st)
                      (suspended st) (clock st) (log st)) trunkId.

Inductive EnqueueResult :=
| Queued
| QueueFull (trunkId : string) (limit : nat).

(** [enqueue], up to the point where it returns its promise.  The executor
    of [new Promise] runs synchronously. *)
Definition enqueue (st : State) (trunkId : string) (element : QueueElement)
  : State * EnqueueResult :=
  let st1 :=
    match queues st !! trunkId with
    | Some _ => st
    | None => setQueue trunkId [] st
    end in
  let queue := queueOf st1 trunkId in
  if (QUEUE_LIMIT <=? length queue)%nat then (st1, QueueFull trunkId QUEUE_LIMIT)
  else
    let st2 := setQueue trunkId (queue ++ [element]) st1 in
    (if decide (trunkId ∈ processing st2) then st2 else processQueue st2 trunkId,
     Queued).

(** The timer of [sleep] resolves.  [setTimeout] does not run its callback
    before the delay has passed. *)
Definition wake (st : State) (trunkId : string) : State :=
  match suspended st !! trunkId with
  | Some (AwaitSleep due) => if (due <=? clock st)%Z then callHead st trunkId else st
  | _ => st
  end.

(** The promise of [element.callFunction()] settles.  The wrapper built in
    [enqueue] catches the job's error and returns it, so the [try] branch
    runs for a failed job as well; the [catch] branch does the same. *)
Definition settle (st : State) (trunkId : string) (ok : bool) : State :=
  match suspended st !! trunkId with
  | Some (AwaitCall element) =>
      let st1 := emit (Settled trunkId element ok (clock st)) st in
      let st2 := setLastCallTime trunkId (clock st1) st1 in
      let st3 := setQueue trunkId (tail (queueOf st2 trunkId)) st2 in
      loopHead st3 trunkId
  | _ => st
  end.

(** What can happen next: a submission, time passing, a sleep timer coming
    due, a job settling. *)
Inductive Input :=
| Enqueue (trunkId : string) (element : QueueElement)
| Tick (dt : N)
| Wake (trunkId : string)
| Settle (trunkId : string) (ok : bool).

Definition step (st : State) (i : Input) : State :=
  match i with
  | Enqueue trunkId element => fst (enqueue st trunkId element)
  | Tick dt =>
      mkState (queues st) (processing st) (lastCallTime st) (suspended st)
              (clock st + Z.of_N dt) (log st)
  | Wake trunkId => wake st trunkId
  | Settle trunkId ok => settle st trunkId ok
  end.

Definition run (st : State) (inputs : list Input) : State := foldl step st inputs.

(** Every start on a trunk comes at least [PROCESS_DELAY] after every
    earlier start and every earlier settle on that trunk. *)
Fixpoint spaced (l : list Event) : Prop :=
  match l with
  | [] => True
  | Started trunkId _ s :: older =>
      Forall (fun e => eventTrunk e = trunkId -> eventTime e + PROCESS_DELAY <= s) older
      /\ spaced older
  | Settled _ _ _ _ :: older => spaced older
  end.

(** *** Vocabulary of the statements *)

(** [this.lastCallTime.get(trunkId) || 0] *)
Definition lastTimeOf (st : State) (trunkId : string) : Z :=
  default 0 (lastCallTime st !! trunkId).

Definition calling (st : State) (trunkId : string) : Prop :=
  ∃ element, suspended st !! trunkId = Some (AwaitCall element).

(** Nothing observed on the trunk is later than its [lastCallTime]. *)
Definition quiet (st : State) (trunkId : string) : Prop :=
  ∀ e, e ∈ log st → eventTrunk e = trunkId → eventTime e <= lastTimeOf st trunkId.

(** What holds of a trunk between two steps. *)
Definition trunkInv (st : State) (trunkId : string) : Prop :=
  (¬ calling st trunkId → quiet st trunkId)
  ∧ (∀ due, suspended st !! trunkId = Some (AwaitSleep due) →
            lastTimeOf st trunkId + PROCESS_DELAY <= due)
  ∧ (trunkId ∈ processing st ↔ is_Some (suspended st !! trunkId)).

Definition pastLog (st : State) : Prop :=
  ∀ e, e ∈ log st → eventTime e <= clock st.

(** The invariant of the queue manager. *)
Definition Inv (st : State) : Prop :=
  pastLog st ∧ spaced (log st) ∧ ∀ trunkId, trunkInv st trunkId.

(** The invariant while the coroutine of [trunkId] runs, between two of
    its [await]s. *)
Definition InvRunning (trunkId : string) (st : State) : Prop :=
  pastLog st ∧ spaced (log st)
  ∧ (∀ other, other ≠ trunkId → trunkInv st other)
  ∧ trunkId ∈ processing st
  ∧ quiet st trunkId.

(** *** Vocabulary for the order of the jobs *)

(** No queue is longer than the limit. *)
Definition bounded (st : State) : Prop :=
  ∀ trunkId, (length (queueOf st trunkId) <= QUEUE_LIMIT)%nat.

(** A trunk has a coroutine exactly when its queue is not empty, the
    coroutine is suspended at some [await], and a job in flight is the head
    of the queue. *)
Definition draining (st : State) (trunkId : string) : Prop :=
  (trunkId ∈ processing st ↔ queueOf st trunkId ≠ [])
  ∧ (trunkId ∈ processing st ↔ is_Some (suspended st !! trunkId))
  ∧ ∀ element, suspended st !! trunkId = Some (AwaitCall element) →
               ∃ rest, queueOf st trunkId = element :: rest.

(** The jobs started on a trunk, oldest first. *)
Fixpoint startedOn (trunkId : string) (l : list Event) : list QueueElement :=
  match l with
  | [] => []
  | Started t element _ :: older =>
      if String.eqb t trunkId then (startedOn trunkId older ++ [element])%list
      else startedOn trunkId older
  | Settled _ _ _ _ :: older => startedOn trunkId older
  end.

(** The jobs of a trunk that were accepted and have not started yet. *)
Definition waiting (st : State) (trunkId : string) : list QueueElement :=
  match suspended st !! trunkId with
  | Some (AwaitCall _) => tail (queueOf st trunkId)
  | _ => queueOf st trunkId
  end.

(** The jobs [enqueue] accepted for a trunk along a run, in order. *)
Fixpoint acceptedOn (trunkId : string) (st : State) (inputs : list Input)
  : list QueueElement :=
  match inputs with
  | [] => []
  | i :: rest =>
      (match i with
       | Enqueue t element =>
           match snd (enqueue st t element) with
           | Queued => if String.eqb t trunkId then [element] else []
           | QueueFull _ _ => []
           end
       | _ => []
       end ++ acceptedOn trunkId (step st i) rest)%list
  end.

(** The trunk an input is about. *)
Definition inputTrunk (i : Input) : option string :=
  match i with
  | Enqueue t _ => Some t
  | Tick _ => None
  | Wake t => Some t
  | Settle t _ => Some t
  end.

(** Two states agree on everything that belongs to a trunk: its queue, its
    coroutine, its last call time and the jobs started on it. *)
Definition sameFor (trunkId : string) (st st' : State) : Prop :=
  queueOf st' trunkId = queueOf st trunkId
  ∧ suspended st' !! trunkId = suspended st !! trunkId
  ∧ lastCallTime st' !! trunkId = lastCallTime st !! trunkId
  ∧ (trunkId ∈ processing st' ↔ trunkId ∈ processing st)
  ∧ startedOn trunkId (log st') = startedOn trunkId (log st).

(** *** A sample run: two jobs submitted together *)

Definition job1 : QueueElement := mkElement "1700000000000-a" 1.
Definition job2 : QueueElement := mkElement "1700000000000-b" 2.

Definition sampleInputs : list Input :=
  [Enqueue "custom_A" job1; Enqueue "custom_A" job2; Tick 300;
   Settle "custom_A" false; Tick 500; Wake "custom_A"; Tick 600; Wake "custom_A"].

End QueueManager.

(** ** ChannelManager: the IVR session of one channel

    The methods are written in a state monad over the session and the part
    of the world it acts on.  A handler runs to completion: each PBX call
    and each fetch it awaits is answered at once, from the answers scripted
    in the world.  No exception leaves a method (every call that can throw
    is caught where it is made), so [handleError] is never reached. *)

Module ChannelManager.

(** [interface ActionAttributes].  The attributes of a parsed script are
    the texts of the XML attributes, whatever the interface declares.
    [attr_timeout] and [attr_numDigits] are taken to be numerals and hold
    the number the text denotes; [None] is an attribute that is absent or
    empty. *)
Record ActionAttributes := mkAttrs {
  attr_timeout : option Z;
  attr_numDigits : option Z;
  attr_finishOnKey : option string;
  attr_action : option string;
  attr_Digits : option string
}.

Definition noAttrs : ActionAttributes := mkAttrs None None None None None.

(** [interface Action] *)
Record Action := mkAction {
  name : string;
  data : option string;
  attributes : ActionAttributes
}.

(** [gatherInstance]; [g_timeout] holds the handle of the gather timer. *)
Record GatherInstance := mkGather {
  digits : string;
  running : bool;
  numDigits : Z;
  finishOnKey : option string;
  action : option string;
  g_timeout : option nat;
  timeoutSeconds : Z
}.

(** The fields of the class. *)
Record Session := mkSession {
  id : string;
  action_url : option string;
  remainingActions : list Action;
  gatherInstance : GatherInstance;
  playbackId : string;
  isPlaying : bool;
  currentTimeout : Z;
  timeoutHandle : option nat;
  pendingAction : option (string * ActionAttributes);
  currentActionStatus : string;
  isDestroyed : bool
}.

(** The three callbacks the class hands to [setTimeout]. *)
Inductive TimerKind :=
| PlayTimeout           (* armed in [play]: [handleTimeout] *)
| GatherTimeout         (* armed in [gather] and [onPlaybackFinished] *)
| PostPlaybackTimeout.  (* armed in [onPlaybackFinished]: [destroy] *)

Record Timer := mkTimer {
  kind : TimerKind;
  delayMs : Z
}.

(** Requests that leave the session: the PBX calls of [ARIRestClient] and
    the fetch of an action script. *)
Inductive Effect :=
| ApiPlay (channel media playback : string)
| ApiStopPlayback (playback : string)
| ApiHangup (channel : string)
| FetchActionXML (url : string) (params : ActionAttributes).

(** How the PBX answers a call: it resolves, or rejects with an optional
    HTTP status. *)
Inductive PbxReply :=
| PbxOk
| PbxError (status : option Z).

(** How a fetch ends: it throws, the document has no [Response] root, or it
    parses into a list of actions. *)
Inductive FetchReply :=
| FetchError
| FetchNoResponse
| FetchActions (actions : list Action).

(** The session together with the part of the world it acts on: the armed
    timers of the event loop, the requests issued so far (newest first) and
    the answers the environment is going to give, in order. *)
Record World := mkWorld {
  session : Session;
  timers : gmap nat Timer;
  nextTimer : nat;
  trace : list Effect;
  pbxReplies : list PbxReply;
  fetchReplies : list FetchReply;
  playbackSuffixes : list string
}.

(** *** A state monad over [World] *)

Definition M (A : Type) : Type := World -> A * World.

#[export] Instance M_ret : MRet M := fun A (a : A) w => (a, w).

#[export] Instance M_bind : MBind M :=
  fun A B (k : A -> M B) (m : M A) w => let '(a, w') := m w in k a w'.

Definition exec {A} (m : M A) (w : World) : World := snd (m w).

Definition get : M Session := fun w => (session w, w).

Definition modify (f : Session -> Session) : M unit :=
  fun w => (tt, mkWorld (f (session w)) (timers w) (nextTimer w) (trace w)
                        (pbxReplies w) (fetchReplies w) (playbackSuffixes w)).

Definition setTimeout (k : TimerKind) (ms : Z) : M nat :=
  fun w => (nextTimer w,
            mkWorld (session w) (<[nextTimer w := mkTimer k ms]> (timers w))
                    (S (nextTimer w)) (trace w)
                    (pbxReplies w) (fetchReplies w) (playbackSuffixes w)).

Definition clearTimeout (t : nat) : M unit :=
  fun w => (tt, mkWorld (session w) (delete t (timers w)) (nextTimer w) (trace w)
                        (pbxReplies w) (fetchReplies w) (playbackSuffixes w)).

(** A call to the PBX: the request is recorded and the next answer of the
    PBX is consumed (it resolves when none is scripted). *)
Definition api (e : Effect) : M PbxReply :=
  fun w => (match pbxReplies w with r :: _ => r | [] => PbxOk end,
            mkWorld (session w) (timers w) (nextTimer w) (e :: trace w)
                    (tail (pbxReplies w)) (fetchReplies w) (playbackSuffixes w)).

Definition fetchActionXML (url : string) (params : ActionAttributes) : M FetchReply :=
  fun w => (match fetchReplies w with r :: _ => r | [] => FetchNoResponse end,
            mkWorld (session w) (timers w) (nextTimer w)
                    (FetchActionXML url params :: trace w)
                    (pbxReplies w) (tail (fetchReplies w)) (playbackSuffixes w)).

(** The [Date.now()] and [Math.random()] part of a playback id. *)
Definition freshSuffix : M string :=
  fun w => (match playbackSuffixes w with s :: _ => s | [] => "0_0" end,
            mkWorld (session w) (timers w) (nextTimer w) (trace w)
                    (pbxReplies w) (fetchReplies w) (tail (playbackSuffixes w))).

(** *** Field updates *)

Definition setRemainingActions (l : list Action) (s : Session) : Session :=
  mkSession (id s) (action_url s) l (gatherInstance s) (playbackId s) (isPlaying s)
            (currentTimeout s) (timeoutHandle s) (pendingAction s)
            (currentActionStatus s) (isDestroyed s).

Definition setGatherInstance (g : GatherInstance) (s : Session) : Session :=
  mkSession (id s) (action_url s) (remainingActions s) g (playbackId s) (isPlaying s)
            (currentTimeout s) (timeoutHandle s) (pendingAction s)
            (currentActionStatus s) (isDestroyed s).

Definition setPlaybackId (p : string) (s : Session) : Session :=
  mkSession (id s) (action_url s) (remainingActions s) (gatherInstance s) p (isPlaying s)
            (currentTimeout s) (timeoutHandle s) (pendingAction s)
            (currentActionStatus s) (isDestroyed s).

Definition setIsPlaying (b : bool) (s : Session) : Session :=
  mkSession (id s) (action_url s) (remainingActions s) (gatherInstance s) (playbackId s) b
            (currentTimeout s) (timeoutHandle s) (pendingAction s)
            (currentActionStatus s) (isDestroyed s).

Definition setCurrentTimeout (t : Z) (s : Session) : Session :=
  mkSession (id s) (action_url s) (remainingActions s) (gatherInstance s) (playbackId s)
            (isPlaying s) t (timeoutHandle s) (pendingAction s)
            (currentActionStatus s) (isDestroyed s).

Definition setTimeoutHandle (h : option nat) (s : Session) : Session :=
  mkSession (id s) (action_url s) (remainingActions s) (gatherInstance s) (playbackId s)
            (isPlaying s) (currentTimeout s) h (pendingAction s)
            (currentActionStatus s) (isDestroyed s).

Definition setPendingAction (p : option (string * ActionAttributes)) (s : Session)
  : Session :=
  mkSession (id s) (action_url s) (remainingActions s) (gatherInstance s) (playbackId s)
            (isPlaying s) (currentTimeout s) (timeoutHandle s) p
            (currentActionStatus s) (isDestroyed s).

Definition setCurrentActionStatus (a : string) (s : Session) : Session :=
  mkSession (id s) (action_url s) (remainingActions s) (gatherInstance s) (playbackId s)
            (isPlaying s) (currentTimeout s) (timeoutHandle s) (pendingAction s)
            a (isDestroyed s).

Definition setIsDestroyed (b : bool) (s : Session) : Session :=
  mkSession (id s) (action_url s) (remainingActions s) (gatherInstance s) (playbackId s)
            (isPlaying s) (currentTimeout s) (timeoutHandle s) (pendingAction s)
            (currentActionStatus s) b.

Definition setRunning (b : bool) (s : Session) : Session :=
  let g := gatherInstance s in
  setGatherInstance
    (mkGather (digits g) b (numDigits g) (finishOnKey g) (action g) (g_timeout g)
              (timeoutSeconds g)) s.

Definition setDigits (d : string) (s : Session) : Session :=
  let g := gatherInstance s in
  setGatherInstance
    (mkGather d (running g) (numDigits g) (finishOnKey g) (action g) (g_timeout g)
              (timeoutSeconds g)) s.

Definition setGatherTimeout (h : option nat) (s : Session) : Session :=
  let g := gatherInstance s in
  setGatherInstance
    (mkGather (digits g) (running g) (numDigits g) (finishOnKey g) (action g) h
              (timeoutSeconds g)) s.

(** The constructor: the field initialisers of the class. *)
Definition newSession (channelId : string) (url : option string) : Session :=
  mkSession channelId url []
            (mkGather EmptyString false 1 None None None 5)
            EmptyString false 0 None None EmptyString false.

Definition newWorld (s : Session) (pbx : list PbxReply) (fetches : list FetchReply)
    (suffixes : list string) : World :=
  mkWorld s ∅ 0 [] pbx fetches suffixes.

(** *** JavaScript helpers *)

(** [hay.includes(needle)] *)
Fixpoint includes (needle hay : string) : bool :=
  String.prefix needle hay ||
  match hay with
  | EmptyString => false
  | String _ rest => includes needle rest
  end.

(** Truthiness of an optional string: defined and not empty. *)
Definition truthy (o : option string) : bool :=
  match o with
  | Some s => negb (String.eqb s EmptyString)
  | None => false
  end.

(** [Number(x) || d] on an optional number. *)
Definition orElse (o : option Z) (d : Z) : Z :=
  match o with
  | Some z => if (z =? 0)%Z then d else z
  | None => d
  end.

(** [x || d] where [x] is an attribute as [xml2js] hands it over, a text
    that was not converted: every text that is present is taken, the text
    of 0 included, and is read as a number where it is used ([* 1000],
    [>=]). *)
Definition orText (o : option Z) (d : Z) : Z :=
  match o with
  | Some z => z
  | None => d
  end.

(** *** The methods *)

(** [if (h) { clearTimeout(h); h = undefined }] for [timeoutHandle]. *)
Definition clearTimeoutHandle : M unit :=
  s ← get;
  match timeoutHandle s with
  | Some t => clearTimeout t;; modify (setTimeoutHandle None)
  | None => mret tt
  end.

(** The same for [gatherInstance.timeout]. *)
Definition clearGatherTimeout : M unit :=
  s ← get;
  match g_timeout (gatherInstance s) with
  | Some t => clearTimeout t;; modify (setGatherTimeout None)
  | None => mret tt
  end.

Definition destroy : M unit :=
  s ← get;
  if isDestroyed s then mret tt
  else
    modify (setIsDestroyed true);;
    clearTimeoutHandle;;
    clearGatherTimeout;;
    modify (setIsPlaying false);;
    modify (setPlaybackId EmptyString);;
    (* a rejected hangup is only logged, silently for status 404 *)
    _ ← api (ApiHangup (id s));
    mret tt.

Definition addUuidToUrl (s : Session) (actionUrl : string) : string :=
  let separator := if includes "?" actionUrl then "&" else "?" in
  actionUrl ++ separator ++ "uuid=" ++ id s.

Definition getActions (actionUrl : string) (params : ActionAttributes) : M unit :=
  s ← get;
  let finalUrl :=
    if includes "uuid=" actionUrl then actionUrl else addUuidToUrl s actionUrl in
  (if includes "/completed" finalUrl then modify (setCurrentActionStatus "completed")
   else if includes "/invalid" finalUrl then modify (setCurrentActionStatus "invalid")
   else if includes "/gather" finalUrl then modify (setCurrentActionStatus "gather")
   else if includes "/answer" finalUrl then modify (setCurrentActionStatus "answer")
   else mret tt);;
  r ← fetchActionXML finalUrl params;
  match r with
  | FetchActions actions => modify (setRemainingActions actions)
  | FetchNoResponse => mret tt
  | FetchError => destroy
  end.

(** [gather(attrib)] *)
Definition gather (attrib : ActionAttributes) : M unit :=
  modify (fun s =>
    setGatherInstance
      (mkGather EmptyString true (orText (attr_numDigits attrib) 1)
                (attr_finishOnKey attrib) (attr_action attrib)
                (g_timeout (gatherInstance s)) (orText (attr_timeout attrib) 5)) s);;
  s ← get;
  if isPlaying s then clearGatherTimeout
  else
    t ← setTimeout GatherTimeout (timeoutSeconds (gatherInstance s) * 1000);
    modify (setGatherTimeout (Some t)).

(** [play], [redirect]/[setAction] and [runAction] call one another; the
    recursion is cut by [fuel], one unit per call of [runAction]. *)
Section Recursion.

Variable runAction : M unit.

(** [play(audioUrl, attrib)] *)
Definition playWith (audioUrl : string) : M unit :=
  s ← get;
  suffix ← freshSuffix;
  let playbackId := id s ++ "_" ++ suffix in
  modify (setPlaybackId playbackId);;
  modify (setIsPlaying true);;
  r ← api (ApiPlay (id s) audioUrl playbackId);
  match r with
  | PbxOk =>
      s' ← get;
      if (0 <? currentTimeout s')%Z then
        t ← setTimeout PlayTimeout (currentTimeout s' * 1000);
        modify (setTimeoutHandle (Some t))
      else mret tt
  | PbxError _ => runAction
  end.

(** [setAction(url, params)] *)
Definition setActionWith (url : string) (params : ActionAttributes) : M unit :=
  clearTimeoutHandle;;
  getActions url params;;
  runAction.

(** [hangup()] *)
Definition hangup : M unit :=
  s ← get;
  _ ← api (ApiHangup (id s));
  destroy.

(** The body of [runAction]. *)
Definition runActionBody : M unit :=
  s ← get;
  match remainingActions s with
  | [] => mret tt
  | action :: rest =>
      modify (setRemainingActions rest);;
      clearTimeoutHandle;;
      modify (setCurrentTimeout (orElse (attr_timeout (attributes action)) 0));;
      if String.eqb (name action) "play" then
        if truthy (data action) then
          playWith (default EmptyString (data action));;
          runAction
        else runAction
      else if String.eqb (name action) "gather" then
        gather (attributes action)
      else if String.eqb (name action) "redirect" then
        if truthy (data action) then
          setActionWith (default EmptyString (data action)) (attributes action)
        else mret tt
      else if String.eqb (name action) "hangup" then
        hangup
      else runAction
  end.

End Recursion.

Fixpoint runAction (fuel : nat) : M unit :=
  match fuel with
  | O => mret tt
  | S fuel' => runActionBody (runAction fuel')
  end.

Definition setAction (fuel : nat) (url : string) (params : ActionAttributes) : M unit :=
  setActionWith (runAction fuel) url params.

(** [start()] *)
Definition start (fuel : nat) : M unit :=
  s ← get;
  if truthy (action_url s) then
    getActions (default EmptyString (action_url s)) noAttrs;;
    runAction fuel
  else mret tt.

(** The tail shared by both completions of a gather in [onDTMFReceived]. *)
Definition finishGather (fuel : nat) : M unit :=
  modify (setRunning false);;
  clearGatherTimeout;;
  s ← get;
  if truthy (action (gatherInstance s)) then
    getActions (default EmptyString (action (gatherInstance s)))
               (mkAttrs None None None None (Some (digits (gatherInstance s))));;
    runAction fuel
  else mret tt.

(** [onDTMFReceived(digit)] *)
Definition onDTMFReceived (fuel : nat) (digit : string) : M unit :=
  s ← get;
  (* barge-in; the state is reset whether or not the stop is accepted *)
  (if isPlaying s && negb (String.eqb (playbackId s) EmptyString) then
     _ ← api (ApiStopPlayback (playbackId s));
     modify (setIsPlaying false);;
     modify (setPlaybackId EmptyString)
   else mret tt);;
  clearTimeoutHandle;;
  s ← get;
  let g := gatherInstance s in
  if running g then
    if truthy (finishOnKey g) && String.eqb digit (default EmptyString (finishOnKey g)) then
      finishGather fuel
    else
      modify (setDigits (digits g ++ digit));;
      s ← get;
      let g := gatherInstance s in
      if negb (truthy (finishOnKey g))
         && (numDigits g <=? Z.of_nat (String.length (digits g)))%Z
      then finishGather fuel
      else mret tt
  else mret tt.

(** [onPlaybackFinished(playbackId?)] *)
Definition onPlaybackFinished (fuel : nat) (pb : option string) : M unit :=
  s ← get;
  if truthy pb && negb (String.eqb (playbackId s) EmptyString)
     && negb (String.eqb (default EmptyString pb) (playbackId s))
  then mret tt
  else
    modify (setIsPlaying false);;
    clearTimeoutHandle;;
    s ← get;
    match pendingAction s with
    | Some (url, params) =>
        modify (setPendingAction None);;
        getActions url params;;
        runAction fuel
    | None =>
        if running (gatherInstance s) then
          clearGatherTimeout;;
          t ← setTimeout GatherTimeout (timeoutSeconds (gatherInstance s) * 1000);
          modify (setGatherTimeout (Some t))
        else
          match remainingActions s with
          | [] =>
              t ← setTimeout PostPlaybackTimeout (currentTimeout s * 1000);
              modify (setTimeoutHandle (Some t))
          | _ :: _ => runAction fuel
          end
    end.

(** [handleTimeout()] *)
Definition handleTimeout (fuel : nat) : M unit :=
  s ← get;
  match pendingAction s with
  | Some (url, params) =>
      setAction fuel url params;;
      modify (setPendingAction None)
  | None => runAction fuel
  end.

(** The callback of an armed timer. *)
Definition callback (fuel : nat) (k : TimerKind) : M unit :=
  match k with
  | PlayTimeout => handleTimeout fuel
  | GatherTimeout =>
      s ← get;
      if running (gatherInstance s) then
        modify (setRunning false);;
        destroy
      else mret tt
  | PostPlaybackTimeout => destroy
  end.

(** The event loop runs timer [t]: only an armed timer has a callback to
    run, and it runs once. *)
Definition fire (fuel : nat) (t : nat) : M unit :=
  fun w =>
    match timers w !! t with
    | Some tm => callback fuel (kind tm) (exec (clearTimeout t) w)
    | None => (tt, w)
    end.

(** What is delivered to a session from outside. *)
Inductive Input :=
| Start
| DTMF (digit : string)
| PlaybackFinished (pb : option string)
| TimerFired (t : nat)
| SetAction (url : string)
| Destroy.

Definition deliver (fuel : nat) (i : Input) : M unit :=
  match i with
  | Start => start fuel
  | DTMF digit => onDTMFReceived fuel digit
  | PlaybackFinished pb => onPlaybackFinished fuel pb
  | TimerFired t => fire fuel t
  | SetAction url => setAction fuel url noAttrs
  | Destroy => destroy
  end.

Definition deliverAll (fuel : nat) (inputs : list Input) (w : World) : World :=
  foldl (fun w i => exec (deliver fuel i) w) w inputs.

(** The PBX calls among the requests of a trace. *)
Definition isPbxCall (e : Effect) : bool :=
  match e with
  | FetchActionXML _ _ => false
  | _ => true
  end.

(** *** Vocabulary of the statements *)

(** The latch of [destroy] is set, and the timers [ts], handed out
    earlier by [setTimeout], are not armed. *)
Definition sealed (ts : list nat) (w : World) : Prop :=
  isDestroyed (session w) = true
  ∧ Forall (fun t => timers w !! t = None ∧ (t < nextTimer w)%nat) ts.

(** Running [m] keeps [P]. *)
Definition keeps {A} (P : World -> Prop) (m : M A) : Prop :=
  ∀ w, P w → P (snd (m w)).

(** A request is a PBX call, or a fetch whose URL carries [uuid=]. *)
Definition carriesUuid (e : Effect) : Prop :=
  match e with
  | FetchActionXML url _ => includes "uuid=" url = true
  | _ => True
  end.

(** Every fetch issued so far carried [uuid=]. *)
Definition fetchesCarryUuid (w : World) : Prop := Forall carriesUuid (trace w).

(** *** Sample sessions *)

Definition answerScript : list Action :=
  [mkAction "play" (Some "custom/demo/answer") noAttrs;
   mkAction "gather" None
     (mkAttrs (Some 10) (Some 2) None
              (Some "http://localhost:3000/action/gather?uuid=ch1") None)].

Definition confirmScript : list Action :=
  [mkAction "play" (Some "custom/demo/confirm")
     (mkAttrs (Some 5) None None None None)].

(** A channel whose first script plays a prompt and gathers two digits;
    the script fetched after the gather plays the confirmation. *)
Definition gatheringWorld : World :=
  exec (start 8)
    (newWorld (newSession "ch1" (Some "http://localhost:3000/action/answer"))
              [] [FetchActions answerScript; FetchActions confirmScript] ["1700_ab"; "1701_cd"]).

(** A channel that played the confirmation to its end and now waits for
    the post-playback timer. *)
Definition waitingWorld : World :=
  deliverAll 8 [Start; PlaybackFinished (Some "ch1_1700_ab")]
    (newWorld (newSession "ch1" (Some "http://localhost:3000/action/confirm"))
              [] [FetchActions confirmScript] ["1700_ab"]).

(** A channel that has fetched its first script and not yet run it. *)
Definition fetchedWorld : World :=
  exec (getActions "http://localhost:3000/action/answer" noAttrs)
    (newWorld (newSession "ch1" None) [] [FetchActions answerScript] ["1700_ab"]).

End ChannelManager.

(** ** WebSocketService: the push registry *)

Module WebSocketService.

(** [WebSocket.readyState] *)
Inductive ReadyState := CONNECTING | OPEN | CLOSING | CLOSED.

Definition isOpen (r : ReadyState) : bool :=
  match r with OPEN => true | _ => false end.

(** A message object: its fields in order, [None] for [null]. *)
Definition Message : Type := list (string * option string).

(** A socket: its state and what was written to it, newest first. *)
Record WebSocket := mkSocket {
  readyState : ReadyState;
  sent : list Message
}.

Record Service := mkService {
  connections : gmap string WebSocket;
  pendingMessages : gmap string Message;
  lastState : gmap string string
}.

Definition empty : Service := mkService ∅ ∅ ∅.

(** [connections.get(callId)?.readyState === WebSocket.OPEN] *)
Definition hasOpenSocket (svc : Service) (callId : string) : bool :=
  match connections svc !! callId with
  | Some ws => isOpen (readyState ws)
  | None => false
  end.

(** [sendToCallId(callId, message)]; [sendThrows] tells whether [ws.send]
    throws this time. *)
Definition sendToCallId (svc : Service) (callId : string) (message : Message)
    (sendThrows : bool) : Service * bool :=
  match connections svc !! callId with
  | Some ws =>
      if isOpen (readyState ws) then
        if sendThrows then (svc, false)
        else
          (mkService
             (<[callId := mkSocket (readyState ws) (message :: sent ws)]> (connections svc))
             (pendingMessages svc) (lastState svc),
           true)
      else
        (mkService (connections svc) (<[callId := message]> (pendingMessages svc))
                   (lastState svc),
         false)
  | None =>
      (mkService (connections svc) (<[callId := message]> (pendingMessages svc))
                 (lastState svc),
       false)
  end.





Definition handleClose (svc : Service) (callId : string) : Service :=
  mkService (delete callId (connections svc)) (pendingMessages svc)
            (delete callId (lastState svc)).


(** [closeConnection(callId)] *)
Definition closeConnection (svc : Service) (callId : string) : Service :=
  match connections svc !! callId with
  | Some _ => handleClose svc callId
  | None => svc
  end.

(** *** A sample registry: one open socket, one closing socket *)

Definition sampleService : Service :=
  mkService (<["call-1" := mkSocket OPEN []]> (<["call-2" := mkSocket CLOSING []]> ∅))
            (<["call-1" := [("callId", Some "call-1"); ("SendOtp", Some "111")]]> ∅)
            ∅.

Definition otpMessage : Message := [("callId", Some "call-1"); ("OtpCode", Some "123")].

End WebSocketService.

(** ** CallStore *)

Module CallStore.

Inductive GatherStage := first | second.

(** [interface CallData] *)
Record CallData := mkCall {
  uuid : string;
  state : string;
  campaign : string;
  created_at : Z;
  selectedOption : option string;
  gatherStage : option GatherStage
}.

(** [Partial<CallData>]: any field may be present.  A required field that
    is present holds a value of its type; an optional one holds a value or
    [undefined] (the inner [None]). *)
Record Updates := mkPartial {
  u_uuid : option string;
  u_state : option string;
  u_campaign : option string;
  u_created_at : option Z;
  u_selectedOption : option (option string);
  u_gatherStage : option (option GatherStage)
}.

(** The updates the callers write as object literals: some of [state],
    [selectedOption] and [gatherStage], each with a value, and no other
    field. *)
Definition mkUpdates (state selectedOption : option string)
    (gatherStage : option GatherStage) : Updates :=
  mkPartial None state None None
            (match selectedOption with Some o => Some (Some o) | None => None end)
            (match gatherStage with Some g => Some (Some g) | None => None end).

Definition saveCall (calls : gmap string CallData) (uuid state campaign : string)
    (now : Z) : gmap string CallData :=
  <[uuid := mkCall uuid state campaign now None None]> calls.

Definition getCall (calls : gmap string CallData) (uuid : string) : option CallData :=
  calls !! uuid.

(** [{ ...existingCall, ...updates }]: every field the update carries
    replaces the call's. *)
Definition merge (c : CallData) (u : Updates) : CallData :=
  mkCall (default (uuid c) (u_uuid u))
         (default (state c) (u_state u))
         (default (campaign c) (u_campaign u))
         (default (created_at c) (u_created_at u))
         (default (selectedOption c) (u_selectedOption u))
         (default (gatherStage c) (u_gatherStage u)).

(** [updateCall(uuid, updates)]: the merged call is stored under the key
    it was found at, whatever [uuid] field the update carries. *)
Definition updateCall (calls : gmap string CallData) (uuid : string) (updates : Updates)
  : gmap string CallData :=
  match calls !! uuid with
  | Some existingCall => <[uuid := merge existingCall updates]> calls
  | None => calls
  end.

Definition removeCall (calls : gmap string CallData) (uuid : string)
  : gmap string CallData :=
  delete uuid calls.

Definition CLEANUP_INTERVAL : Z := 60 * 1000.

Definition EXPIRATION_TIME : Q := 15.

(** The test of [cleanupExpiredCalls] on one call.  Times are in
    milliseconds; [minutesDiff] is the quotient itself (on millisecond
    counts the rounding of the JavaScript division never moves a quotient
    across 15). *)
Definition isExpired (now : Z) (callData : CallData) : bool :=
  let timeDiff := now - created_at callData in
  let minutesDiff := (inject_Z timeDiff / inject_Z (1000 * 60))%Q in
  negb (Qle_bool minutesDiff EXPIRATION_TIME).

(** [cleanupExpiredCalls()], run by the interval timer at time [now]: the
    expired ids are collected first and deleted afterwards. *)
Definition cleanupExpiredCalls (calls : gmap string CallData) (now : Z)
  : gmap string CallData :=
  let expiredCalls :=
    map fst (filter (fun kv => isExpired now (snd kv) = true) (map_to_list calls)) in
  foldl (fun m uuid => delete uuid m) calls expiredCalls.

End CallStore.

(** ** Doubles

    JavaScript numbers where their rounding matters: IEEE 754 binary64, as
    [SpecFloat] specifies it, with rounding to nearest, ties to even. *)

Module Double.

Definition prec : Z := 53.

Definition emax : Z := 1024.

(** The double of an integer literal. *)
Definition ofZ (z : Z) : spec_float := binary_normalize prec emax z 0 false.

(** [x * y] *)
Definition mul (x y : spec_float) : spec_float := SFmul prec emax x y.

(** [Math.floor(x)] of a finite double, as an integer ([Math.floor] of
    [NaN] or of an infinity is no integer; no product of a draw of
    [Math.random()] and 6 is one of them). *)
Definition floor (x : spec_float) : Z :=
  match x with
  | S754_finite s m e => Z.shiftl (if s then Z.neg m else Z.pos m) e
  | _ => 0
  end.

(** The rational a finite double stands for. *)
Definition toQ (x : spec_float) : Q :=
  match x with
  | S754_finite s m e =>
      let n := if s then Z.neg m else Z.pos m in
      if (0 <=? e)%Z then inject_Z (n * 2 ^ e) else n # Z.to_pos (2 ^ (- e))
  | _ => 0%Q
  end.

(** What [Math.random()] can return: a double with positive sign that is
    at least 0 and less than 1. *)
Definition isDraw (x : spec_float) : bool :=
  match x with
  | S754_zero false => true
  | S754_finite false m e => bounded prec emax m e && (Z.pos m <? 2 ^ (- e))%Z
  | _ => false
  end.

End Double.

(** ** ActionController *)

Module ActionController.

(** [interface ActionData] of the campaign service. *)
Record ActionData := mkActionData {
  audio : string;
  next : option string;
  dgts : option Z;
  finishOnKey : option string;
  method : option string;
  timeout : Z
}.

(** What one request finds around it: the campaign cache, the environment
    variable [ACTION_BASE_URL], the value of [Math.random()] (a double in
    [0,1)) and whether [ws.send] throws. *)
Record Env := mkEnv {
  campaignsCache : gmap string (gmap string ActionData);
  ACTION_BASE_URL : option string;
  random : spec_float;
  sendThrows : bool
}.

(** The two singletons the controller writes to. *)
Record Ctx := mkCtx {
  calls : gmap string CallStore.CallData;
  webSocketService : WebSocketService.Service
}.

(** The XML the controller answers with: the children of [<Response>].
    An attribute keeps the number or the string that was interpolated. *)
Inductive AttrValue :=
| Num (z : Z)
| Str (s : string).

Record XmlElement := mkElem {
  tag : string;
  attrs : list (string * AttrValue);
  text : string
}.

Definition truthy (o : option string) : bool :=
  match o with
  | Some s => negb (String.eqb s EmptyString)
  | None => false
  end.

(** A campaign is a plain object of the parsed JSON, so indexing it with a
    name it does not hold reaches [Object.prototype].  These are the
    members every plain object inherits, each with the text it turns into
    in a template string. *)
Definition objectPrototype : list (string * string) :=
  [("constructor", "function Object() { [native code] }");
   ("__defineGetter__", "function __defineGetter__() { [native code] }");
   ("__defineSetter__", "function __defineSetter__() { [native code] }");
   ("hasOwnProperty", "function hasOwnProperty() { [native code] }");
   ("__lookupGetter__", "function __lookupGetter__() { [native code] }");
   ("__lookupSetter__", "function __lookupSetter__() { [native code] }");
   ("isPrototypeOf", "function isPrototypeOf() { [native code] }");
   ("propertyIsEnumerable", "function propertyIsEnumerable() { [native code] }");
   ("toString", "function toString() { [native code] }");
   ("valueOf", "function valueOf() { [native code] }");
   ("__proto__", "[object Object]");
   ("toLocaleString", "function toLocaleString() { [native code] }")].

Definition inheritedMember (key : string) : option string :=
  snd <$> List.find (fun kv => String.eqb (fst kv) key) objectPrototype.

(** What [campaign[action]] finds: an entry of the campaign, or a member
    of [Object.prototype], which is truthy and has none of the fields of
    an entry. *)
Inductive Member :=
| Entry (actionData : ActionData)
| Inherited (text : string).

(** [campaignService.getActionData(campaign, action)] on a loaded cache,
    for any [action]. *)
Definition getActionMember (env : Env) (campaignName action : string) : option Member :=
  campaign ← campaignsCache env !! campaignName;
  match campaign !! action with
  | Some actionData => Some (Entry actionData)
  | None => Inherited <$> inheritedMember action
  end.

(** [campaignService.getActionData(campaign, action)] on a loaded cache
    where [action] is no member of [Object.prototype], such as the
    [gather1] the callers ask for by name: the entry of the campaign. *)
Definition getActionData (env : Env) (campaignName action : string) : option ActionData :=
  campaign ← campaignsCache env !! campaignName;
  campaign !! action.

Definition updateCall (ctx : Ctx) (uuid : string) (u : CallStore.Updates) : Ctx :=
  mkCtx (CallStore.updateCall (calls ctx) uuid u) (webSocketService ctx).

Definition sendToCallId (env : Env) (ctx : Ctx) (callId : string)
    (message : WebSocketService.Message) : Ctx :=
  mkCtx (calls ctx)
        (fst (WebSocketService.sendToCallId (webSocketService ctx) callId message
                (sendThrows env))).

Definition errorXml : list XmlElement :=
  [mkElem "Play" [] "https://example.com/error.wav"].

Definition isTwoGatherCampaign (env : Env) (campaignName : string) : bool :=
  match getActionData env campaignName "gather1" with
  | Some _ => true
  | None => false
  end.

(** [process.env.ACTION_BASE_URL || 'http://localhost:3000'] *)
Definition baseUrl (env : Env) : string :=
  if truthy (ACTION_BASE_URL env) then default EmptyString (ACTION_BASE_URL env)
  else "http://localhost:3000".

(** [processActionLogic(status, uuid, digits)]; [sendOTP] and
    [validateOTP] are empty placeholders. *)
Definition processActionLogic (env : Env) (ctx : Ctx) (status uuid : string)
    (digits : option string) : Ctx :=
  let d := default EmptyString digits in
  if String.eqb status "gather" then
    if truthy digits then
      let campaignGather := CallStore.campaign <$> CallStore.getCall (calls ctx) uuid in
      let ctx1 :=
        if truthy campaignGather
           && isTwoGatherCampaign env (default EmptyString campaignGather)
        then updateCall ctx uuid (CallStore.mkUpdates None None (Some CallStore.first))
        else ctx in
      sendToCallId env ctx1 uuid [("callId", Some uuid); ("SendOtp", Some d)]
    else ctx
  else if String.eqb status "gather1" then
    if truthy digits then
      let campaignGather1 := CallStore.campaign <$> CallStore.getCall (calls ctx) uuid in
      let ctx1 :=
        if truthy campaignGather1
           && isTwoGatherCampaign env (default EmptyString campaignGather1)
        then updateCall ctx uuid
               (CallStore.mkUpdates (Some "gather1") None (Some CallStore.second))
        else ctx in
      sendToCallId env ctx1 uuid [("callId", Some uuid); ("OtpCode", Some d)]
    else ctx
  else if String.eqb status "option1" || String.eqb status "option2" then
    if truthy digits then
      sendToCallId env ctx uuid [("callId", Some uuid); ("SendOtp", Some d)]
    else ctx
  else if String.eqb status "confirm" then
    let callDataConfirm := CallStore.getCall (calls ctx) uuid in
    let campaignConfirm := CallStore.campaign <$> callDataConfirm in
    let gatherStageConfirm := callDataConfirm ≫= CallStore.gatherStage in
    let isTwoGatherConfirm :=
      truthy campaignConfirm
      && isTwoGatherCampaign env (default EmptyString campaignConfirm) in
    if isTwoGatherConfirm
       && match gatherStageConfirm with Some CallStore.second => true | _ => false end
    then updateCall ctx uuid (CallStore.mkUpdates (Some "completed") None None)
    else if truthy digits then
      let selectedOption := callDataConfirm ≫= CallStore.selectedOption in
      let ctx1 :=
        if isTwoGatherConfirm
           && match gatherStageConfirm with Some CallStore.second => false | _ => true end
        then updateCall ctx uuid (CallStore.mkUpdates None None (Some CallStore.first))
        else ctx in
      sendToCallId env ctx1 uuid
        [("callId", Some uuid); ("OtpCode", Some d);
         ("selectedOption", if truthy selectedOption then selectedOption else None)]
    else ctx
  else ctx.

(** [getRandomizedTimeout(status, originalTimeout)]: [Math.random()] and
    its product with [max - min + 1] are doubles; the floor is an integer
    below 2^53, so that adding [min] is exact. *)
Definition getRandomizedTimeout (env : Env) (status : string) (originalTimeout : Z) : Z :=
  if String.eqb status "answer" then
    let min := 10 in
    let max := 15 in
    let randomTimeout :=
      Double.floor (Double.mul (random env) (Double.ofZ (max - min + 1))) + min in
    randomTimeout
  else originalTimeout.

Definition buildAudioPath (campaign status : string) : string :=
  "custom/" ++ campaign ++ "/" ++ status.

(** [buildNextUrl(currentStatus)]: [nextStepMap] is a plain object too, so
    for a name of [Object.prototype] the next step is that member. *)
Definition buildNextUrl (env : Env) (currentStatus : string) : string :=
  let nextStep :=
    if String.eqb currentStatus "answer" then "gather"
    else if String.eqb currentStatus "gather" then "confirm"
    else if String.eqb currentStatus "invalid" then "gather"
    else match inheritedMember currentStatus with
         | Some member => member
         | None => "completed"
         end in
  baseUrl env ++ "/action/" ++ nextStep.

(** [generateXMLResponse(status, actionData, uuid, campaign)] *)
Definition generateXMLResponse (env : Env) (status : string) (actionData : ActionData)
    (uuid campaign : string) : list XmlElement :=
  let audioPath := buildAudioPath campaign status in
  if String.eqb status "confirm" then
    [mkElem "Play" [("timeout", Num (timeout actionData))] audioPath]
  else
    let finalTimeout := getRandomizedTimeout env status (timeout actionData) in
    if String.eqb status "completed" || String.eqb status "completed_option1"
       || String.eqb status "completed_option2"
    then [mkElem "Play" [] audioPath]
    else
      let nxt := default EmptyString (next actionData) in
      let nextUrl :=
        if String.eqb status "gather1" then baseUrl env ++ "/action/gather1"
        else if String.eqb status "invalid" then
          if truthy (next actionData)
             && (String.prefix "http://" nxt || String.prefix "https://" nxt)
          then nxt
          else if truthy (next actionData) then baseUrl env ++ "/action/" ++ nxt
          else buildNextUrl env status
        else if truthy (next actionData)
                && (String.prefix "http://" nxt || String.prefix "https://" nxt)
        then nxt
        else if truthy (next actionData) then baseUrl env ++ "/action/" ++ nxt
        else buildNextUrl env status in
      let fk := default EmptyString (finishOnKey actionData) in
      let useDynamicMode :=
        truthy (finishOnKey actionData) && Nat.eqb (String.length fk) 1 in
      let numDigits :=
        if useDynamicMode then 0
        else match dgts actionData with Some n => n | None => 0 end in
      let finishKeyAttr := if useDynamicMode then fk else EmptyString in
      [mkElem "Play" [] audioPath;
       mkElem "Gather"
         ([("input", Str "speech dtmf");
           ("action", Str (nextUrl ++ "?uuid=" ++ uuid));
           ("timeout", Num finalTimeout);
           ("numDigits", Num numDigits)]
          ++ (if negb (String.eqb finishKeyAttr EmptyString)
              then [("finishOnKey", Str finishKeyAttr)] else []))
         EmptyString].

(** [generateXMLResponse(status, actionData, uuid, campaign)] where
    [actionData] is a member of [Object.prototype]: [status] is then none
    of the names the function tests for, and [next], [timeout], [dgts] and
    [finishOnKey] are all [undefined]. *)
Definition inheritedXMLResponse (env : Env) (status uuid campaign : string)
  : list XmlElement :=
  [mkElem "Play" [] (buildAudioPath campaign status);
   mkElem "Gather"
     [("input", Str "speech dtmf");
      ("action", Str (buildNextUrl env status ++ "?uuid=" ++ uuid));
      ("timeout", Str "undefined");
      ("numDigits", Num 0)]
     EmptyString].

(** [handleAction] from the point where [status] is final: everything
    after the menu block. *)
Definition handleActionFrom (env : Env) (ctx : Ctx) (status uuid campaign : string)
    (Digits : option string) : Ctx * list XmlElement :=
  match getActionMember env campaign status with
  | None => (ctx, errorXml)
  | Some member =>
      let ctx1 := processActionLogic env ctx status uuid Digits in
      let gather1Next := getActionData env campaign "gather1" ≫= next in
      if String.eqb status "gather1" && truthy Digits && truthy gather1Next then
        let nxt := default EmptyString gather1Next in
        let redirectUrl :=
          if String.prefix "http" nxt then nxt
          else baseUrl env ++ "/action/" ++ nxt in
        (ctx1, [mkElem "Redirect" [] (redirectUrl ++ "?uuid=" ++ uuid)])
      else
        (ctx1,
         match member with
         | Entry actionData => generateXMLResponse env status actionData uuid campaign
         | Inherited _ => inheritedXMLResponse env status uuid campaign
         end)
  end.

(** [handleAction]: [GET /action/:status?uuid=..&Digits=..] *)
Definition handleAction (env : Env) (ctx : Ctx) (status : string)
    (uuid Digits : option string) : Ctx * list XmlElement :=
  if negb (truthy uuid) then (ctx, errorXml)
  else
    let u := default EmptyString uuid in
    match CallStore.getCall (calls ctx) u with
    | None => (ctx, errorXml)
    | Some callData =>
        let campaign := CallStore.campaign callData in
        if String.eqb status "options" && truthy Digits then
          let digit := default EmptyString Digits in
          if String.eqb digit "1" then
            handleActionFrom env
              (updateCall ctx u (CallStore.mkUpdates None (Some "1") None))
              "option1" u campaign Digits
          else
            handleActionFrom env
              (updateCall ctx u (CallStore.mkUpdates None (Some "2") None))
              "option2" u campaign Digits
        else handleActionFrom env ctx status u campaign Digits
    end.

(** The attribute [key] of the first [tg] element of a response. *)
Definition attrOf (tg key : string) (xml : list XmlElement) : option AttrValue :=
  e ← List.find (fun e => String.eqb (tag e) tg) xml;
  snd <$> List.find (fun kv => String.eqb (fst kv) key) (attrs e).

Definition hasTag (tg : string) (xml : list XmlElement) : bool :=
  existsb (fun e => String.eqb (tag e) tg) xml.

(** [ctx'] differs from [ctx] at most in the state and the gather stage
    of the call [uuid] and in what the registry holds for [uuid]. *)
Definition touchesOnly (uuid : string) (ctx ctx' : Ctx) : Prop :=
  (∀ k, k ≠ uuid → calls ctx' !! k = calls ctx !! k)
  ∧ match calls ctx !! uuid, calls ctx' !! uuid with
    | Some c, Some c' =>
        CallStore.uuid c' = CallStore.uuid c
        ∧ CallStore.campaign c' = CallStore.campaign c
        ∧ CallStore.created_at c' = CallStore.created_at c
        ∧ CallStore.selectedOption c' = CallStore.selectedOption c
    | None, None => True
    | _, _ => False
    end
  ∧ WebSocketService.lastState (webSocketService ctx')
    = WebSocketService.lastState (webSocketService ctx)
  ∧ ∀ k, k ≠ uuid →
      WebSocketService.connections (webSocketService ctx') !! k
      = WebSocketService.connections (webSocketService ctx) !! k
      ∧ WebSocketService.pendingMessages (webSocketService ctx') !! k
        = WebSocketService.pendingMessages (webSocketService ctx) !! k.

(** *** A sample campaign with a menu *)

Definition venmo_fraude : gmap string ActionData :=
  list_to_map
    [("options", mkActionData "options.wav" (Some "options") (Some 1) None None 7);
     ("option1", mkActionData "option1.wav" (Some "confirm") (Some 6) None None 8);
     ("option2", mkActionData "option2.wav" (Some "confirm") None (Some "#") None 9);
     ("answer", mkActionData "answer.wav" (Some "gather") (Some 1) None None 7);
     ("confirm", mkActionData "confirm.wav" None None None None 30)].

Definition sampleEnv : Env :=
  mkEnv (<["venmo_fraude" := venmo_fraude]> ∅) None
        (S754_finite false 7505999378950826 (-53)) false.

Definition sampleCtx : Ctx :=
  mkCtx (CallStore.saveCall ∅ "ch1" "pending" "venmo_fraude" 0) WebSocketService.empty.

(** *** A sample campaign with two gathers *)

Definition boostMobile : gmap string ActionData :=
  list_to_map
    [("answer", mkActionData "answer.wav" (Some "gather") (Some 1) None None 7);
     ("gather", mkActionData "gather.wav" (Some "confirm") (Some 10) None None 9);
     ("confirm", mkActionData "confirm.wav" None None None None 30);
     ("gather1", mkActionData "gather1.wav" (Some "confirm") (Some 6) None None 9);
     ("invalid", mkActionData "invalid.wav" (Some "confirm") (Some 10) None None 9);
     ("completed", mkActionData "completed.wav" None None None None 0)].

Definition twoGatherEnv : Env :=
  mkEnv (<["boostMobile" := boostMobile]> (<["venmo_fraude" := venmo_fraude]> ∅))
        None (S754_finite false 4503599627370496 (-53)) false.

Definition twoGatherCtx : Ctx :=
  mkCtx (CallStore.saveCall (CallStore.saveCall ∅ "ch1" "pending" "venmo_fraude" 0)
           "ch2" "pending" "boostMobile" 5)
        WebSocketService.empty.

End ActionController.

(** ** UnifiedIVROrchestrator: the OTP verdict route

    [POST /otp/validate/:callId] with the verdict [isValid] of the body.
    The route reads the call, writes the gather stage, asks [ARIService] to
    steer the channel to an action URL ([setChannelAction], which catches
    its own errors) and pushes the verdict to the call's socket.  The model
    returns the context and the URL the channel is steered to. *)

Module Orchestrator.

Import ActionController.

Definition actionUrl (targetAction : string) : string :=
  "http://localhost:3000/action/" ++ targetAction.

Definition validateOtp (env : Env) (ctx : Ctx) (callId : string) (isValid : bool)
  : Ctx * string :=
  let callData := CallStore.getCall (calls ctx) callId in
  let campaign := CallStore.campaign <$> callData in
  let gatherStage := callData ≫= CallStore.gatherStage in
  let gather1Action :=
    if truthy campaign then getActionData env (default EmptyString campaign) "gather1"
    else None in
  let isTwoGatherCampaign := match gather1Action with Some _ => true | None => false end in
  if isValid then
    if isTwoGatherCampaign then
      match gatherStage with
      | None | Some CallStore.first =>
          let ctx1 :=
            updateCall ctx callId (CallStore.mkUpdates None None (Some CallStore.second)) in
          (sendToCallId env ctx1 callId
             [("callId", Some callId); ("OtpValidation", Some "valid");
              ("gatherStage", Some "second")],
           actionUrl "gather1")
      | Some CallStore.second =>
          (sendToCallId env ctx callId
             [("callId", Some callId); ("OtpValidation", Some "valid");
              ("gatherStage", Some "completed")],
           actionUrl "completed")
      end
    else
      let selectedOption := callData ≫= CallStore.selectedOption in
      let targetAction :=
        if decide (selectedOption = Some "1") then "completed_option1"
        else if decide (selectedOption = Some "2") then "completed_option2"
        else "completed" in
      (sendToCallId env ctx callId
         [("callId", Some callId); ("OtpValidation", Some "valid");
          ("selectedOption", if truthy selectedOption then selectedOption else None)],
       actionUrl targetAction)
  else
    if isTwoGatherCampaign then
      match gatherStage with
      | None | Some CallStore.first =>
          let ctx1 :=
            updateCall ctx callId (CallStore.mkUpdates None None (Some CallStore.first)) in
          (sendToCallId env ctx1 callId
             [("callId", Some callId); ("OtpValidation", Some "invalid");
              ("gatherStage", Some "first")],
           actionUrl "invalid")
      | Some CallStore.second =>
          (sendToCallId env ctx callId
             [("callId", Some callId); ("OtpValidation", Some "invalid");
              ("gatherStage", Some "second")],
           actionUrl "gather1")
      end
    else
      (sendToCallId env ctx callId
         [("callId", Some callId); ("OtpValidation", Some "invalid")],
       actionUrl "invalid").

(** Verdicts posted one after the other for the same call, with the URLs
    the channel is steered to, first verdict first. *)
Fixpoint runVerdicts (env : Env) (ctx : Ctx) (callId : string) (verdicts : list bool)
  : Ctx * list string :=
  match verdicts with
  | [] => (ctx, [])
  | isValid :: rest =>
      let ctx1 := fst (validateOtp env ctx callId isValid) in
      let url := snd (validateOtp env ctx callId isValid) in
      (fst (runVerdicts env ctx1 callId rest), url :: snd (runVerdicts env ctx1 callId rest))
  end.

(** The call [callId] is stored and its campaign has a [gather1] entry. *)
Definition twoGatherCall (env : Env) (ctx : Ctx) (callId : string) : Prop :=
  ∃ c, calls ctx !! callId = Some c
       ∧ CallStore.campaign c ≠ EmptyString
       ∧ is_Some (getActionData env (CallStore.campaign c) "gather1").

Definition stageOf (ctx : Ctx) (callId : string) : option CallStore.GatherStage :=
  calls ctx !! callId ≫= CallStore.gatherStage.

End Orchestrator.

(** ** ARIEventHandler: the event socket of the PBX

    Two parts of the class are modelled: the [PlaybackFinished] case of
    [handleAriEvent], which forwards a playback id once and forgets it 30
    seconds later, and [attemptReconnect] with the reset done by the
    [open] handler of [connectToServer].  Of a forwarded event the playback
    id and the time are recorded.  Time is a millisecond clock that never
    runs backwards, and a timer does not fire before it is due. *)

Module ARIEventHandler.

Definition maxReconnectAttempts : nat := 5.

Definition reconnectDelay : Z := 5000.

Definition DEDUP_WINDOW : Z := 30000.

Record State := mkState {
  processedPlaybacks : gset string;
  forgetTimers : list (string * Z);      (* playback id and due time, oldest first *)
  reconnectAttempts : gmap string nat;
  reconnectTimers : list string;         (* server ids, newest first *)
  clock : Z;
  forwarded : list (string * Z);         (* [playback_finished] emitted, newest first *)
  failed : list string                   (* [server_failed] emitted, newest first *)
}.

Definition init (t0 : Z) : State := mkState ∅ [] ∅ [] t0 [] [].

(** [case 'PlaybackFinished'] of [handleAriEvent] *)
Definition handlePlaybackFinished (st : State) (pbId : string) : State :=
  if decide (pbId ∈ processedPlaybacks st) then st
  else
    mkState ({[pbId]} ∪ processedPlaybacks st)
            (forgetTimers st ++ [(pbId, clock st + DEDUP_WINDOW)])
            (reconnectAttempts st) (reconnectTimers st) (clock st)
            ((pbId, clock st) :: forwarded st) (failed st).

(** The first timer of [pbId] that is due, removed from the list. *)
Fixpoint takeDue (now : Z) (pbId : string) (timers : list (string * Z))
  : option (list (string * Z)) :=
  match timers with
  | [] => None
  | (p, due) :: rest =>
      if decide (p = pbId) then
        if (due <=? now)%Z then Some rest
        else (fun r => (p, due) :: r) <$> takeDue now pbId rest
      else (fun r => (p, due) :: r) <$> takeDue now pbId rest
  end.

(** A due timer of [pbId] fires: [processedPlaybacks.delete(pbId)]. *)
Definition forget (st : State) (pbId : string) : State :=
  match takeDue (clock st) pbId (forgetTimers st) with
  | Some timers =>
      mkState (processedPlaybacks st ∖ {[pbId]}) timers
              (reconnectAttempts st) (reconnectTimers st) (clock st)
              (forwarded st) (failed st)
  | None => st
  end.

(** [attemptReconnect(serverId, config, appName)] *)
Definition attemptReconnect (st : State) (serverId : string) : State :=
  let attempts := default 0%nat (reconnectAttempts st !! serverId) in
  if (attempts <? maxReconnectAttempts)%nat then
    let nextAttempt := (attempts + 1)%nat in
    mkState (processedPlaybacks st) (forgetTimers st)
            (<[serverId := nextAttempt]> (reconnectAttempts st))
            (serverId :: reconnectTimers st) (clock st) (forwarded st) (failed st)
  else
    mkState (processedPlaybacks st) (forgetTimers st) (reconnectAttempts st)
            (reconnectTimers st) (clock st) (forwarded st) (serverId :: failed st).

(** The [open] handler: [reconnectAttempts.set(serverId, 0)]. *)
Definition onOpen (st : State) (serverId : string) : State :=
  mkState (processedPlaybacks st) (forgetTimers st)
          (<[serverId := 0%nat]> (reconnectAttempts st))
          (reconnectTimers st) (clock st) (forwarded st) (failed st).

Definition tick (st : State) (dt : Z) : State :=
  mkState (processedPlaybacks st) (forgetTimers st) (reconnectAttempts st)
          (reconnectTimers st) (clock st + Z.max 0 dt) (forwarded st) (failed st).

(** What happens to the handler: a [PlaybackFinished] event arrives, a
    forget timer fires, a socket opens, a socket closes or fails (each of
    [close], [error] and a throwing constructor calls [attemptReconnect]),
    time passes. *)
Inductive Input :=
| PlaybackFinished (pbId : string)
| Forget (pbId : string)
| Opened (serverId : string)
| Failure (serverId : string)
| Tick (dt : Z).

Definition step (st : State) (i : Input) : State :=
  match i with
  | PlaybackFinished pbId => handlePlaybackFinished st pbId
  | Forget pbId => forget st pbId
  | Opened serverId => onOpen st serverId
  | Failure serverId => attemptReconnect st serverId
  | Tick dt => tick st dt
  end.

Definition run (st : State) (inputs : list Input) : State := foldl step st inputs.

(** *** Vocabulary of the statements *)

(** In a list of forwarded events, newest first, two events of the same
    playback id are at least [DEDUP_WINDOW] apart. *)
Fixpoint apart (events : list (string * Z)) : Prop :=
  match events with
  | [] => True
  | (pbId, t) :: older =>
      (∀ t', (pbId, t') ∈ older → t' + DEDUP_WINDOW <= t) ∧ apart older
  end.

Definition attemptsOf (st : State) (serverId : string) : nat :=
  default 0%nat (reconnectAttempts st !! serverId).

Definition occurrences (serverId : string) (l : list string) : nat :=
  length (filter (fun s => s = serverId) l).

Definition isFailureOf (serverId : string) (i : Input) : bool :=
  match i with
  | Failure s => bool_decide (s = serverId)
  | _ => false
  end.

Definition isOpenedOf (serverId : string) (i : Input) : bool :=
  match i with
  | Opened s => bool_decide (s = serverId)
  | _ => false
  end.

Definition failuresOf (serverId : string) (inputs : list Input) : nat :=
  length (filter (fun i => isFailureOf serverId i = true) inputs).

(** The invariant of the deduplication: an id is in the set exactly when
    one forget timer is pending for it, that timer is due one window after
    the last event forwarded for the id, and an id that is not in the set
    was last forwarded at least one window ago. *)
Definition dedupInv (st : State) : Prop :=
  NoDup (map fst (forgetTimers st))
  ∧ (∀ pbId, pbId ∈ processedPlaybacks st ↔ pbId ∈ map fst (forgetTimers st))
  ∧ (∀ pbId due t, (pbId, due) ∈ forgetTimers st → (pbId, t) ∈ forwarded st →
       t + DEDUP_WINDOW <= due)
  ∧ (∀ pbId t, pbId ∉ processedPlaybacks st → (pbId, t) ∈ forwarded st →
       t + DEDUP_WINDOW <= clock st)
  ∧ apart (forwarded st).

End ARIEventHandler.

(** ** ARIService: the channels of the PBX

    The registry of channel sessions and the handlers that route PBX events
    and API requests to them.  A session is the [ChannelManager] world of
    its channel; a session taken out of the registry is kept in [released],
    as the object lives on while its timers are armed.  The cause of a
    hangup event is the number the PBX sends, or absent. *)

Module ARIService.

(** The two timers [cleanupCall] arms. *)
Inductive Timer :=
| ForgetCompleted (channelId : string) (delayMs : Z)
| CloseSocket (channelId : string) (delayMs : Z).

Record State := mkState {
  activeChannels : gmap string ChannelManager.World;
  channelAnswerTimes : gmap string Z;
  completedChannels : gset string;
  calls : gmap string CallStore.CallData;
  webSocketService : WebSocketService.Service;
  timers : list Timer;                        (* newest first *)
  released : list ChannelManager.World        (* newest first *)
}.

(** [translateHangupCause(cause)] *)
Definition translateHangupCause (cause : option Z) : string :=
  match cause with
  | Some n =>
      if (n =? 16)%Z then "normal"
      else if (n =? 17)%Z then "busy"
      else if (n =? 18)%Z then "no-answer"
      else if (n =? 19)%Z then "no-answer"
      else if (n =? 21)%Z then "rejected"
      else if (n =? 34)%Z then "congestion"
      else "unknown"
  | None => "unknown"
  end.

(** [Math.round((now - answerTime) / 1000).toString()] *)
Definition durationString (now answerTime : Z) : string :=
  let durationSeconds := ((now - answerTime + 500) / 1000)%Z in
  NilZero.string_of_int (Z.to_int durationSeconds).

(** [cleanupCall(channelId)] *)
Definition cleanupCall (st : State) (channelId : string) : State :=
  mkState (delete channelId (activeChannels st))
          (delete channelId (channelAnswerTimes st))
          (completedChannels st)
          (CallStore.removeCall (calls st) channelId)
          (webSocketService st)
          (CloseSocket channelId 5000 :: ForgetCompleted channelId 30000 :: timers st)
          (match activeChannels st !! channelId with
           | Some manager => manager :: released st
           | None => released st
           end).

(** The handler of [channel_hangup]; [sendThrows] tells whether the write
    to the socket throws. *)
Definition channel_hangup (st : State) (channelId : string) (cause : option Z)
    (now : Z) (sendThrows : bool) : State :=
  if decide (channelId ∈ completedChannels st) then st
  else
    let duration :=
      match channelAnswerTimes st !! channelId with
      | Some answerTime => durationString now answerTime
      | None => EmptyString
      end in
    let hangupCause := translateHangupCause cause in
    let svc :=
      fst (WebSocketService.sendToCallId (webSocketService st) channelId
             [("callId", Some channelId); ("status", Some "completed");
              ("callDuration", Some duration); ("hangupCause", Some hangupCause)]
             sendThrows) in
    cleanupCall
      (mkState (activeChannels st) (delete channelId (channelAnswerTimes st))
               ({[channelId]} ∪ completedChannels st) (calls st) svc (timers st)
               (released st))
      channelId.

Definition withChannel (st : State) (channelId : string) (w : ChannelManager.World)
  : State :=
  mkState (<[channelId := w]> (activeChannels st)) (channelAnswerTimes st)
          (completedChannels st) (calls st) (webSocketService st) (timers st)
          (released st).

(** [handleDTMF(channelId, digit)] *)
Definition handleDTMF (fuel : nat) (st : State) (channelId digit : string) : State :=
  match activeChannels st !! channelId with
  | Some manager =>
      withChannel st channelId
        (ChannelManager.exec (ChannelManager.onDTMFReceived fuel digit) manager)
  | None => st
  end.

(** [handlePlaybackFinished(channelId, playbackId)] *)
Definition handlePlaybackFinished (fuel : nat) (st : State) (channelId : string)
    (playbackId : option string) : State :=
  match activeChannels st !! channelId with
  | Some manager =>
      withChannel st channelId
        (ChannelManager.exec (ChannelManager.onPlaybackFinished fuel playbackId) manager)
  | None => st
  end.

(** [setChannelAction(channelId, actionUrl)]; the boolean is [success]. *)
Definition setChannelAction (fuel : nat) (st : State) (channelId actionUrl : string)
  : State * bool :=
  match activeChannels st !! channelId with
  | Some manager =>
      (withChannel st channelId
         (ChannelManager.exec
            (ChannelManager.setAction fuel actionUrl ChannelManager.noAttrs) manager),
       true)
  | None => (st, false)
  end.

(** [ARIRestClient.hangup]: the promise resolves when the PBX accepts the
    DELETE, and also when it rejects it with status 404, which the client
    swallows; every other rejection is thrown again. *)
Definition hangupResolves (reply : ChannelManager.PbxReply) : bool :=
  match reply with
  | ChannelManager.PbxOk => true
  | ChannelManager.PbxError (Some status) => (status =? 404)%Z
  | ChannelManager.PbxError None => false
  end.

(** [hangupCall(channelId)]: the hangup is awaited, and one that throws
    leaves the session registered; [destroy] is started and not awaited. *)
Definition hangupCall (st : State) (channelId : string) : State * bool :=
  match activeChannels st !! channelId with
  | Some manager =>
      let reply :=
        fst (ChannelManager.api (ChannelManager.ApiHangup channelId) manager) in
      let manager1 :=
        snd (ChannelManager.api (ChannelManager.ApiHangup channelId) manager) in
      if hangupResolves reply then
        let manager2 := ChannelManager.exec ChannelManager.destroy manager1 in
        (mkState (delete channelId (activeChannels st)) (channelAnswerTimes st)
                 (completedChannels st) (calls st) (webSocketService st) (timers st)
                 (manager2 :: released st),
         true)
      else (withChannel st channelId manager1, false)
  | None => (st, false)
  end.

(** The callbacks of the two timers of [cleanupCall]. *)
Definition fireTimer (st : State) (t : Timer) : State :=
  match t with
  | ForgetCompleted channelId _ =>
      mkState (activeChannels st) (channelAnswerTimes st)
              (completedChannels st ∖ {[channelId]}) (calls st) (webSocketService st)
              (timers st) (released st)
  | CloseSocket channelId _ =>
      mkState (activeChannels st) (channelAnswerTimes st) (completedChannels st)
              (calls st) (WebSocketService.closeConnection (webSocketService st) channelId)
              (timers st) (released st)
  end.

(** What reaches the service about one channel while no timer of
    [cleanupCall] fires. *)
Inductive Input :=
| Dtmf (digit : string)
| PlaybackEnd (playbackId : option string)
| Steer (actionUrl : string)
| HangupRequest
| HangupEvent (cause : option Z) (now : Z) (sendThrows : bool).

Definition step (fuel : nat) (channelId : string) (st : State) (i : Input) : State :=
  match i with
  | Dtmf digit => handleDTMF fuel st channelId digit
  | PlaybackEnd playbackId => handlePlaybackFinished fuel st channelId playbackId
  | Steer actionUrl => fst (setChannelAction fuel st channelId actionUrl)
  | HangupRequest => fst (hangupCall st channelId)
  | HangupEvent cause now sendThrows => channel_hangup st channelId cause now sendThrows
  end.

Definition run (fuel : nat) (channelId : string) (st : State) (inputs : list Input)
  : State :=
  foldl (step fuel channelId) st inputs.

(** *** A sample service: one answered channel *)

Definition sampleState : State :=
  mkState (<["ch1" := ChannelManager.gatheringWorld]> ∅) (<["ch1" := 1000]> ∅) ∅
          (CallStore.saveCall ∅ "ch1" "pending" "venmo_fraude" 0)
          WebSocketService.empty [] [].

End ARIService.

(** * Properties *)

Local Open Scope list_scope.

(** ** TrunkStore *)

Section TrunkStoreFacts.

Import TrunkStore.

Lemma scanTrunks_first (st : Store) (pre post : list Trunk) (t : Trunk) :
  Forall (fun x => belowCap st x = false) pre →
  belowCap st t = true →
  scanTrunks st (pre ++ t :: post) = Some t.
Proof.
  unfold belowCap. induction 1 as [|x pre Hx _ IH]; intros Ht; simpl.
  - destruct (getMaxUsageForTrunk t); [by rewrite Ht | done].
  - destruct (getMaxUsageForTrunk x); [rewrite Hx; by apply IH | done].
Qed.

Lemma scanTrunks_none (st : Store) (trunks : list Trunk) :
  Forall (fun x => belowCap st x = false) trunks →
  scanTrunks st trunks = None.
Proof.
  unfold belowCap. induction 1 as [|x l Hx _ IH]; simpl; [done|].
  destruct (getMaxUsageForTrunk x); [by rewrite Hx | done].
Qed.

(** What the scan finds is an element of the list, below its cap, and
    everything before it is at its cap. *)
Lemma scanTrunks_some (st : Store) (trunks : list Trunk) (t : Trunk) :
  scanTrunks st trunks = Some t →
  ∃ pre post, trunks = pre ++ t :: post
              ∧ Forall (fun x => belowCap st x = false) pre
              ∧ belowCap st t = true.
Proof.
  induction trunks as [|x l IH]; simpl; [done|].
  destruct (getMaxUsageForTrunk x) as [c|] eqn:Hc.
  - destruct (usageOf st (trunk_id x) <? c)%nat eqn:Hlt.
    + intros [= <-]. exists [], l. unfold belowCap. rewrite Hc. by repeat split.
    + intros (pre & post & -> & Hpre & Ht)%IH. exists (x :: pre), post.
      repeat split; [|done]. constructor; [|done]. unfold belowCap. by rewrite Hc.
  - intros [= <-]. exists [], l. unfold belowCap. rewrite Hc. by repeat split.
Qed.

Lemma usageOf_assign (st : Store) (userToken : string) (now : Z) (uuid : string)
    (t : Trunk) (id : string) :
  findAvailableTrunk st userToken = Some t →
  usageOf (fst (assignTrunk st userToken now uuid)) id =
    if decide (id = trunk_id t) then S (usageOf st id) else usageOf st id.
Proof.
  intros Hf. unfold assignTrunk. rewrite Hf. simpl. unfold usageOf. simpl.
  case_decide as Hid.
  - subst. by rewrite lookup_insert_eq.
  - by rewrite lookup_insert_ne.
Qed.

Lemma inInventory_assign (st : Store) (userToken : string) (now : Z) (uuid : string)
    (t : Trunk) :
  inInventory (fst (assignTrunk st userToken now uuid)) t ↔ inInventory st t.
Proof.
  unfold assignTrunk. destruct (findAvailableTrunk st userToken); simpl; [|done].
  unfold inInventory. by simpl.
Qed.

Lemma findAvailableTrunk_inInventory (st : Store) (userToken : string) (t : Trunk) :
  findAvailableTrunk st userToken = Some t → inInventory st t.
Proof.
  unfold findAvailableTrunk, getTrunksForUser.
  destruct (trunksByUserToken st !! removeDashes userToken) as [l|] eqn:Hl; simpl; [|done].
  intros (pre & post & -> & _)%scanTrunks_some.
  exists (removeDashes userToken), (pre ++ t :: post). split; [done|].
  apply elem_of_app. right. apply list_elem_of_here.
Qed.

(** C1.  [assignTrunk] scans the trunks of the (dash-free) user token in
    order and returns the first one whose usage is below its cap, where a
    trunk that is neither [telnyx_] nor [custom_] has no cap, a verified
    custom/telnyx trunk caps at 9 and any other custom/telnyx trunk at 4;
    the counter of the returned trunk grows by one and stays within the
    cap; when every trunk is at its cap the result is a failure and the
    store is unchanged.  Over an inventory whose records agree on the cap
    of each id, no cap is ever exceeded by an assignment. *)
Theorem assignTrunk_first_below_cap (st : Store) (userToken : string) (now : Z)
    (uuid : string) :
  (∀ pre t post,
      getTrunksForUser st userToken = pre ++ t :: post →
      Forall (fun x => belowCap st x = false) pre →
      belowCap st t = true →
      ∃ st', assignTrunk st userToken now uuid = (st', AssignOk t uuid)
             ∧ usageOf st' (trunk_id t) = S (usageOf st (trunk_id t))
             ∧ (∀ c, getMaxUsageForTrunk t = Some c → (usageOf st' (trunk_id t) ≤ c)%nat)
             ∧ (∀ other, other ≠ trunk_id t → usageOf st' other = usageOf st other)
             ∧ trunk_data <$> assignments st' !! uuid = Some t)
  ∧ (Forall (fun x => belowCap st x = false) (getTrunksForUser st userToken) →
      ∃ e, assignTrunk st userToken now uuid = (st, AssignError e))
  ∧ (∀ t,
      getMaxUsageForTrunk t =
        if String.prefix "telnyx_" (trunk_id t) || String.prefix "custom_" (trunk_id t)
        then if decide (is_verified t = Some true) then Some 9%nat else Some 4%nat
        else None)
  ∧ (capsAgree st → capsRespected st →
      capsRespected (fst (assignTrunk st userToken now uuid))).
Proof.
  split; [|split; [|split]].
  - intros pre t post Hl Hpre Ht.
    assert (Hf : findAvailableTrunk st userToken = Some t).
    { unfold findAvailableTrunk. rewrite Hl. by apply scanTrunks_first. }
    pose proof (fun id => usageOf_assign st userToken now uuid t id Hf) as Hu.
    destruct (assignTrunk st userToken now uuid) as [st' r] eqn:Ha.
    exists st'. simpl in *. repeat split.
    + unfold assignTrunk in Ha. rewrite Hf in Ha. simpl in Ha. by inversion Ha.
    + rewrite Hu. by rewrite decide_True.
    + intros c Hc. rewrite Hu, decide_True by done.
      unfold belowCap in Ht. rewrite Hc in Ht. apply Nat.ltb_lt in Ht. lia.
    + intros other Hne. rewrite Hu. by rewrite decide_False.
    + unfold assignTrunk in Ha. rewrite Hf in Ha. simpl in Ha. inversion Ha; subst; simpl.
      by rewrite lookup_insert_eq.
  - intros Hall. exists "No hay trunks disponibles para este user_token".
    unfold assignTrunk, findAvailableTrunk. by rewrite scanTrunks_none.
  - intros t. unfold getMaxUsageForTrunk, isCustomOrTelnyxTrunk, MAX_TRUNK_USAGE.
    destruct (_ || _); [|done].
    destruct (is_verified t) as [[]|]; by case_decide.
  - intros Hagree Hcaps trunk c Hin Hc.
    destruct (findAvailableTrunk st userToken) as [t|] eqn:Hf.
    + rewrite (usageOf_assign _ _ _ _ t) by done.
      apply inInventory_assign in Hin.
      case_decide as Hid; [|by apply Hcaps].
      pose proof (findAvailableTrunk_inInventory _ _ _ Hf) as Hint.
      pose proof (Hagree _ _ Hin Hint Hid) as Heq.
      unfold findAvailableTrunk in Hf.
      apply scanTrunks_some in Hf as (_ & _ & _ & _ & Ht).
      unfold belowCap in Ht. rewrite <- Heq, Hc, <- Hid in Ht.
      apply Nat.ltb_lt in Ht. lia.
    + unfold assignTrunk in *. rewrite Hf in *. simpl in *. by apply Hcaps.
Qed.

(** The scan of the sample inventory skips [custom_A] once it holds four
    assignments and returns [custom_V]. *)
Lemma assignTrunk_first_below_cap_witness :
  ∃ st', assignTrunk (fst (assignMany 4 "u1" sampleStore)) "u-1" 0 "Z"
           = (st', AssignOk custom_V "Z")
         ∧ usageOf st' "custom_V" = 1%nat.
Proof.
  destruct (assignTrunk_first_below_cap (fst (assignMany 4 "u1" sampleStore)) "u-1" 0 "Z")
    as [H _].
  destruct (H [custom_A] custom_V [twilio_T]) as (st' & Ha & Hu & _).
  - vm_compute. reflexivity.
  - repeat constructor.
  - vm_compute. reflexivity.
  - exists st'. split; [exact Ha|]. etrans; [exact Hu|]. vm_compute. reflexivity.
Defined.

(** Scenario "verified cap": nine assignments on a verified trunk succeed
    and the tenth fails. *)
Example verified_cap_scenario :
  let st := updateTrunkInventory empty [("U", [custom_V])] in
  map isOk (snd (assignMany 10 "U" st))
    = [true; true; true; true; true; true; true; true; true; false]
  ∧ usageOf (fst (assignMany 10 "U" st)) "custom_V" = 9%nat.
Proof. vm_compute. split; reflexivity. Qed.

(** Scenario "trunk cap": four assignments on an unverified trunk succeed,
    the fifth fails, and succeeds once the first is released. *)
Example trunk_cap_scenario :
  let st := updateTrunkInventory empty [("U", [custom_A])] in
  let st5 := fst (assignMany 5 "U" st) in
  map isOk (snd (assignMany 5 "U" st)) = [true; true; true; true; false]
  ∧ isOk (snd (assignTrunk (fst (releaseAssignment st5 "A")) "U" 0 "F")) = true.
Proof. vm_compute. split; reflexivity. Qed.

Lemma releaseAssignmentById_eq (st : Store) (id : string) :
  releaseAssignmentById st id = releaseAssignment st id.
Proof. reflexivity. Qed.

Lemma release_unknown (st : Store) (id : string) :
  assignments st !! id = None →
  releaseAssignment st id = (st, OpNotFound "Asignación no encontrada").
Proof. intros H. unfold releaseAssignment. by rewrite H. Qed.

Lemma usageOf_release (st : Store) (id : string) (a : TrunkAssignment) (k : string) :
  assignments st !! id = Some a →
  usageOf (fst (releaseAssignment st id)) k =
    if decide (k = a_trunk_id a) then Nat.pred (usageOf st k) else usageOf st k.
Proof.
  intros H. unfold releaseAssignment. rewrite H. simpl.
  change (usageOf (clearTimeout (timeout_id a) st) (a_trunk_id a))
    with (usageOf st (a_trunk_id a)).
  destruct (0 <? usageOf st (a_trunk_id a))%nat eqn:Hpos; unfold usageOf at 1; simpl.
  - case_decide as Hk.
    + subst. rewrite lookup_insert_eq. simpl. lia.
    + by rewrite lookup_insert_ne.
  - case_decide as Hk; [|done]. subst.
    apply Nat.ltb_ge in Hpos. fold (usageOf st (a_trunk_id a)). lia.
Qed.

(** C4.  Releasing a known assignment id lowers the usage counter of its
    trunk by one, stopping at 0, leaves the other counters alone, cancels
    the TTL timer and removes the assignment; the TTL callback does exactly
    the same.  Releasing an unknown id, in particular releasing again
    after a release by request or by TTL expiry, returns the not-found
    error and changes nothing. *)
Theorem release_semantics (st : Store) (id : string) :
  (∀ a, assignments st !! id = Some a →
     ∃ st' msg,
       releaseAssignment st id = (st', OpOk msg)
       ∧ ((0 < usageOf st (a_trunk_id a))%nat →
           S (usageOf st' (a_trunk_id a)) = usageOf st (a_trunk_id a))
       ∧ (usageOf st (a_trunk_id a) = 0%nat → usageOf st' (a_trunk_id a) = 0%nat)
       ∧ (∀ other, other ≠ a_trunk_id a → usageOf st' other = usageOf st other)
       ∧ timers st' = delete (timeout_id a) (timers st)
       ∧ assignments st' = delete id (assignments st)
       ∧ trunksByUserToken st' = trunksByUserToken st
       ∧ (timers st !! timeout_id a = Some id → fireTimer st (timeout_id a) = st')
       ∧ (∃ m, releaseAssignment st' id = (st', OpNotFound m))
       ∧ (∃ m, releaseAssignmentById st' id = (st', OpNotFound m))
       ∧ fireTimer st' (timeout_id a) = st')
  ∧ (assignments st !! id = None →
       ∃ m, releaseAssignment st id = (st, OpNotFound m)
            ∧ releaseAssignmentById st id = (st, OpNotFound m))
  ∧ releaseAssignmentById st id = releaseAssignment st id.
Proof.
  split; [|split].
  - intros a Ha.
    pose proof (fun k => usageOf_release st id a k Ha) as Hu.
    destruct (releaseAssignment st id) as [st' r] eqn:Hr.
    assert (Hst' : timers st' = delete (timeout_id a) (timers st)
                   ∧ assignments st' = delete id (assignments st)
                   ∧ trunksByUserToken st' = trunksByUserToken st
                   ∧ r = OpOk "Trunk liberado correctamente").
    { unfold releaseAssignment in Hr. rewrite Ha in Hr. by inversion Hr. }
    destruct Hst' as (Ht & Has & Htr & ->).
    assert (Hgone : assignments st' !! id = None).
    { rewrite Has. apply lookup_delete_eq. }
    exists st', "Trunk liberado correctamente". simpl in Hu.
    repeat split; try done.
    + intros Hpos. rewrite Hu, decide_True by done. lia.
    + intros Hz. rewrite Hu, decide_True by done. lia.
    + intros other Hne. by rewrite Hu, decide_False.
    + intros Harmed. unfold fireTimer. rewrite Harmed.
      change (releaseAssignmentById ?x ?y) with (releaseAssignment x y).
      unfold releaseAssignment in *. simpl.
      rewrite Ha in *. simpl in *. rewrite delete_delete_eq. by inversion Hr.
    + eexists. by apply release_unknown.
    + eexists. change (releaseAssignmentById st' id) with (releaseAssignment st' id).
      by apply release_unknown.
    + unfold fireTimer. by rewrite Ht, lookup_delete_eq.
  - intros Hn. exists "Asignación no encontrada".
    split; [|change (releaseAssignmentById st id) with (releaseAssignment st id)];
      by apply release_unknown.
  - apply releaseAssignmentById_eq.
Qed.

(** Released once by request, the first assignment of the sample
    inventory gives its slot back; released again it is not found. *)
Lemma release_semantics_witness :
  let st := fst (assignMany 2 "u1" sampleStore) in
  ∃ st' msg,
    releaseAssignment st "A" = (st', OpOk msg)
    ∧ usageOf st "custom_A" = 2%nat
    ∧ usageOf st' "custom_A" = 1%nat
    ∧ (∃ m, releaseAssignment st' "A" = (st', OpNotFound m))
    ∧ (∃ m, releaseAssignment st "no-such-id" = (st, OpNotFound m)).
Proof.
  intros st.
  destruct (release_semantics st "A") as [Hknown _].
  destruct (release_semantics st "no-such-id") as (_ & Hunknown & _).
  destruct (Hknown (mkAssignment "custom_A" custom_A 0 0)) as (st' & msg & Hr & Hdec & _ & _ & _ & _ & _ & _ & Hagain & _).
  { vm_compute. reflexivity. }
  exists st', msg. split; [exact Hr|]. split; [vm_compute; reflexivity|].
  split.
  - assert (H : S (usageOf st' "custom_A") = 2%nat).
    { etrans; [apply Hdec; vm_compute; lia|]. vm_compute. reflexivity. }
    by inversion H.
  - split; [exact Hagain|].
    destruct Hunknown as (m & Hm & _); [vm_compute; reflexivity|]. by exists m.
Defined.

End TrunkStoreFacts.

(** ** QueueManager *)

Section QueueManagerFacts.

Import QueueManager.

(** The coroutine never touches the content of a queue before a job
    settles. *)
Lemma queues_callHead (st : State) (trunkId : string) :
  queues (callHead st trunkId) = queues st.
Proof. unfold callHead. by destruct (queueOf st trunkId). Qed.

Lemma queues_loopHead (st : State) (trunkId : string) :
  queues (loopHead st trunkId) = queues st.
Proof.
  unfold loopHead. destruct (queueOf st trunkId); [done|].
  case_match; [done | apply queues_callHead].
Qed.

Lemma queues_processQueue (st : State) (trunkId : string) :
  queues (processQueue st trunkId) = queues st.
Proof. unfold processQueue. case_decide; [done|]. by rewrite queues_loopHead. Qed.

(** C5.  [enqueue] on a trunk whose queue holds [QUEUE_LIMIT] = 50 jobs
    (or more) fails with the queue-full error and leaves the whole state,
    the queue included, as it was; below the limit the job is accepted and
    appended at the end of that trunk's queue, the other queues being
    untouched. *)
Theorem enqueue_admission (st : State) (trunkId : string) (element : QueueElement) :
  QUEUE_LIMIT = 50%nat
  ∧ ((QUEUE_LIMIT ≤ length (queueOf st trunkId))%nat →
       enqueue st trunkId element = (st, QueueFull trunkId 50))
  ∧ ((length (queueOf st trunkId) < QUEUE_LIMIT)%nat →
       snd (enqueue st trunkId element) = Queued
       ∧ queueOf (fst (enqueue st trunkId element)) trunkId
           = queueOf st trunkId ++ [element]
       ∧ ∀ other, other ≠ trunkId →
           queueOf (fst (enqueue st trunkId element)) other = queueOf st other).
Proof.
  split; [done|]. unfold enqueue.
  destruct (queues st !! trunkId) as [q|] eqn:Hq.
  - split; intros Hlen.
    + apply Nat.leb_le in Hlen. by rewrite Hlen.
    + apply Nat.leb_gt in Hlen. rewrite Hlen. split; [done|].
      cbv zeta. unfold queueOf.
      case_decide; cbn [fst]; rewrite ?queues_processQueue; cbn [queues setQueue].
      all: split; [by rewrite lookup_insert_eq|].
      all: intros other Hne; by rewrite lookup_insert_ne.
  - assert (Hempty : queueOf st trunkId = []) by (unfold queueOf; by rewrite Hq).
    assert (Hnew : queueOf (setQueue trunkId [] st) trunkId = []).
    { unfold queueOf. cbn [queues setQueue]. by rewrite lookup_insert_eq. }
    rewrite Hempty, Hnew. split; intros Hlen; [unfold QUEUE_LIMIT in Hlen; simpl in Hlen; lia|].
    cbn [length Nat.leb QUEUE_LIMIT]. split; [done|].
    cbv zeta. unfold queueOf.
    case_decide; cbn [fst]; rewrite ?queues_processQueue; cbn [queues setQueue].
    all: split; [by rewrite lookup_insert_eq|].
    all: intros other Hne; by rewrite !lookup_insert_ne.
Qed.

(** A queue of fifty jobs turns the fifty-first away. *)
Lemma enqueue_admission_witness :
  let full := setQueue "custom_A" (replicate 50 job1) (init 0) in
  enqueue full "custom_A" job2 = (full, QueueFull "custom_A" 50)
  ∧ queueOf (fst (enqueue (init 0) "custom_A" job2)) "custom_A" = [job2].
Proof.
  intros full. split.
  - apply (enqueue_admission full "custom_A" job2). vm_compute. lia.
  - apply (enqueue_admission (init 0) "custom_A" job2). vm_compute. lia.
Defined.

(** *** The spacing invariant *)

Lemma spaced_split (newer older : list Event) (trunkId : string)
    (element : QueueElement) (s : Z) :
  spaced (newer ++ Started trunkId element s :: older) →
  Forall (fun e => eventTrunk e = trunkId → eventTime e + PROCESS_DELAY <= s) older.
Proof.
  induction newer as [|e newer IH]; simpl.
  - by intros [H _].
  - destruct e; [intros [_ H] | intros H]; by apply IH.
Qed.

Lemma init_inv (t0 : Z) : Inv (init t0).
Proof.
  split; [|split].
  - intros e He. by apply elem_of_nil in He.
  - done.
  - intros t. split; [|split].
    + intros _ e He. by apply elem_of_nil in He.
    + intros due Hd. simpl in Hd. by rewrite lookup_empty in Hd.
    + simpl. split.
      * intros H. by apply elem_of_empty in H.
      * intros [x Hx]. by rewrite lookup_empty in Hx.
Qed.

Lemma finish_inv (st : State) (trunkId : string) :
  InvRunning trunkId st → Inv (finish trunkId st).
Proof.
  intros (Hpast & Hsp & Hoth & Hproc & Hq). split; [done|]. split; [done|].
  intros t. destruct (decide (t = trunkId)) as [->|Hne].
  - split; [|split]; simpl.
    + by intros _.
    + intros due Hdue. by rewrite lookup_delete_eq in Hdue.
    + rewrite lookup_delete_eq, elem_of_difference, elem_of_singleton.
      split; [by intros [_ []] | by intros []].
  - destruct (Hoth _ Hne) as (H1 & H2 & H3). unfold trunkInv, calling. simpl.
    rewrite lookup_delete_ne by done. split; [|split]; [done|done|].
    rewrite elem_of_difference, elem_of_singleton, <- H3. tauto.
Qed.

Lemma suspend_other (st : State) (trunkId other : string) (a : Await) :
  other ≠ trunkId → trunkInv st other → trunkInv (suspend trunkId a st) other.
Proof.
  intros Hne (H1 & H2 & H3). unfold trunkInv, calling. simpl.
  rewrite lookup_insert_ne by done. done.
Qed.

Lemma sleep_inv (st : State) (trunkId : string) (due : Z) :
  InvRunning trunkId st →
  lastTimeOf st trunkId + PROCESS_DELAY <= due →
  Inv (suspend trunkId (AwaitSleep due) st).
Proof.
  intros (Hpast & Hsp & Hoth & Hproc & Hq) Hdue. split; [done|]. split; [done|].
  intros t. destruct (decide (t = trunkId)) as [->|Hne]; [|by apply suspend_other, Hoth].
  repeat split; simpl; try done.
  - rewrite lookup_insert_eq. by intros due' [= <-].
  - by rewrite lookup_insert_eq.
Qed.

Lemma callHead_inv (st : State) (trunkId : string) :
  InvRunning trunkId st →
  lastTimeOf st trunkId + PROCESS_DELAY <= clock st →
  Inv (callHead st trunkId).
Proof.
  intros HI Hdue. unfold callHead.
  destruct (queueOf st trunkId) as [|element rest]; [by apply finish_inv|].
  destruct HI as (Hpast & Hsp & Hoth & Hproc & Hq).
  split; [|split].
  - intros e [->|He]%elem_of_cons; simpl; [lia | by apply Hpast].
  - simpl. split; [|done]. apply Forall_forall. intros e He Ht.
    specialize (Hq e He Ht). lia.
  - intros t. destruct (decide (t = trunkId)) as [->|Hne].
    + split; [|split]; simpl.
      * intros Hnc. exfalso. apply Hnc. exists element. simpl.
        by rewrite lookup_insert_eq.
      * rewrite lookup_insert_eq. by intros due' [=].
      * by rewrite lookup_insert_eq.
    + apply suspend_other; [done|]. destruct (Hoth _ Hne) as (H1 & H2 & H3).
      split; [|split]; [|done|done].
      intros Hnc e [->|He]%elem_of_cons Ht; [done | by apply H1].
Qed.

Lemma loopHead_inv (st : State) (trunkId : string) :
  InvRunning trunkId st → Inv (loopHead st trunkId).
Proof.
  intros HI. unfold loopHead. destruct (queueOf st trunkId); [by apply finish_inv|].
  fold (lastTimeOf st trunkId).
  destruct (clock st - lastTimeOf st trunkId <? PROCESS_DELAY)%Z eqn:Hlt.
  - apply sleep_inv; [done | lia].
  - apply Z.ltb_ge in Hlt. apply callHead_inv; [done | lia].
Qed.

Lemma processQueue_inv (st : State) (trunkId : string) :
  Inv st → Inv (processQueue st trunkId).
Proof.
  intros (Hpast & Hsp & Hall). unfold processQueue. case_decide as Hproc; [done|].
  apply loopHead_inv. split; [done|]. split; [done|]. split; [|split].
  - intros other Hne. destruct (Hall other) as (H1 & H2 & H3).
    split; [|split]; [done|done|]. simpl.
    rewrite elem_of_union, elem_of_singleton, <- H3. split; [|tauto].
    by intros [->|].
  - simpl. apply elem_of_union. left. by apply elem_of_singleton.
  - destruct (Hall trunkId) as (H1 & _ & H3). apply H1. intros [el Hel].
    apply Hproc, H3. by rewrite Hel.
Qed.

Lemma enqueue_inv (st : State) (trunkId : string) (element : QueueElement) :
  Inv st → Inv (fst (enqueue st trunkId element)).
Proof.
  intros HI. unfold enqueue.
  assert (H1 : Inv match queues st !! trunkId with
                   | Some _ => st
                   | None => setQueue trunkId [] st
                   end) by (by destruct (queues st !! trunkId)).
  revert H1. generalize (match queues st !! trunkId with
                         | Some _ => st
                         | None => setQueue trunkId [] st
                         end). intros st1 H1.
  case_match; simpl; [done|].
  case_decide; [done|]. by apply processQueue_inv.
Qed.

Lemma wake_inv (st : State) (trunkId : string) : Inv st → Inv (wake st trunkId).
Proof.
  intros HI. unfold wake.
  destruct (suspended st !! trunkId) as [[due|el]|] eqn:Hs; try done.
  destruct (due <=? clock st)%Z eqn:Hdue; [|done]. apply Z.leb_le in Hdue.
  destruct HI as (Hpast & Hsp & Hall). destruct (Hall trunkId) as (H1 & H2 & H3).
  apply callHead_inv.
  - split; [done|]. split; [done|]. split; [|split].
    + intros other _. apply Hall.
    + apply H3. by rewrite Hs.
    + apply H1. intros [el Hel]. by rewrite Hs in Hel.
  - specialize (H2 _ Hs). lia.
Qed.

Lemma settle_inv (st : State) (trunkId : string) (ok : bool) :
  Inv st → Inv (settle st trunkId ok).
Proof.
  intros HI. unfold settle.
  destruct (suspended st !! trunkId) as [[due|el]|] eqn:Hs; try done.
  destruct HI as (Hpast & Hsp & Hall). apply loopHead_inv.
  split; [|split; [|split; [|split]]]; simpl.
  - intros e [->|He]%elem_of_cons; simpl; [lia | by apply Hpast].
  - done.
  - intros other Hne. destruct (Hall other) as (H1 & H2 & H3).
    unfold trunkInv, quiet, calling, lastTimeOf. simpl.
    rewrite lookup_insert_ne by done. split; [|split]; [|done|done].
    intros Hnc e [->|He]%elem_of_cons Ht; [done | by apply H1].
  - apply (Hall trunkId). by rewrite Hs.
  - intros e He _. unfold lastTimeOf. simpl. rewrite lookup_insert_eq. simpl.
    apply elem_of_cons in He as [->|He]; simpl; [lia | by apply Hpast].
Qed.

Lemma step_inv (st : State) (i : Input) : Inv st → Inv (step st i).
Proof.
  intros HI. destruct i as [t el|dt|t|t ok]; simpl.
  - by apply enqueue_inv.
  - destruct HI as (Hpast & Hsp & Hall). split; [|split]; [|done|done].
    intros e He. specialize (Hpast e He). simpl. lia.
  - by apply wake_inv.
  - by apply settle_inv.
Qed.

Lemma run_inv (inputs : list Input) (st : State) : Inv st → Inv (run st inputs).
Proof.
  revert st. induction inputs as [|i inputs IH]; intros st HI; simpl; [done|].
  apply IH. by apply step_inv.
Qed.

Lemma lastTimeOf_loopHead (st : State) (trunkId : string) :
  lastTimeOf (loopHead st trunkId) trunkId = lastTimeOf st trunkId.
Proof.
  unfold loopHead, callHead.
  destruct (queueOf st trunkId); [done|]. by case_match.
Qed.

Lemma lastTimeOf_settle (st : State) (trunkId : string) (element : QueueElement)
    (ok : bool) :
  suspended st !! trunkId = Some (AwaitCall element) →
  lastTimeOf (settle st trunkId ok) trunkId = clock st.
Proof.
  intros Hs. unfold settle. rewrite Hs, lastTimeOf_loopHead.
  unfold lastTimeOf. simpl. by rewrite lookup_insert_eq.
Qed.

(** C2.  In every run of the queue manager (submissions, time passing,
    sleep timers coming due no earlier than asked, jobs settling with
    success or failure), a job starts on a trunk at least [PROCESS_DELAY]
    = 1100 ms after everything observed earlier on that trunk: after the
    settling, successful or not, of each earlier job and after the start
    of each earlier job.  The settling of a failed job sets the trunk's
    [lastCallTime] to the current time like that of a successful one. *)
Theorem origination_spacing (t0 : Z) (inputs : list Input) :
  PROCESS_DELAY = 1100
  ∧ (∀ newer older trunkId element s e,
       log (run (init t0) inputs) = newer ++ Started trunkId element s :: older →
       e ∈ older →
       eventTrunk e = trunkId →
       eventTime e + 1100 <= s)
  ∧ (∀ trunkId element ok,
       suspended (run (init t0) inputs) !! trunkId = Some (AwaitCall element) →
       lastTimeOf (settle (run (init t0) inputs) trunkId ok) trunkId
         = clock (run (init t0) inputs)).
Proof.
  split; [done|]. split.
  - intros newer older trunkId element s e Hlog He Ht.
    destruct (run_inv inputs (init t0) (init_inv t0)) as (_ & Hsp & _).
    rewrite Hlog in Hsp. apply spaced_split in Hsp.
    rewrite Forall_forall in Hsp. by apply (Hsp e He).
  - intros trunkId element ok Hs. by apply (lastTimeOf_settle _ _ element).
Qed.

(** Scenario "rate limit": two jobs are submitted together; the first
    fails after 300 ms; a timer callback tried 800 ms after the start does
    not run; the second job starts 1100 ms after the failure. *)
Lemma origination_spacing_witness :
  log (run (init 1700000000000) sampleInputs)
    = [Started "custom_A" job2 1700000001400;
       Settled "custom_A" job1 false 1700000000300;
       Started "custom_A" job1 1700000000000]
  ∧ 1700000000300 + 1100 <= 1700000001400.
Proof.
  split; [vm_compute; reflexivity|].
  destruct (origination_spacing 1700000000000 sampleInputs) as (_ & H & _).
  apply (H [] [Settled "custom_A" job1 false 1700000000300;
               Started "custom_A" job1 1700000000000]
           "custom_A" job2 1700000001400
           (Settled "custom_A" job1 false 1700000000300)).
  - vm_compute. reflexivity.
  - apply list_elem_of_here.
  - reflexivity.
Defined.

End QueueManagerFacts.

(** ** ChannelManager *)

Section ChannelManagerFacts.

Import ChannelManager.

(** *** The latch is never reset, a cancelled timer is never armed again *)

Lemma keeps_ret {A} (P : World → Prop) (a : A) : keeps P (mret a).
Proof. by intros w Hw. Qed.

Lemma keeps_bind {A B} (P : World → Prop) (m : M A) (k : A → M B) :
  keeps P m → (∀ a, keeps P (k a)) → keeps P (m ≫= k).
Proof.
  intros Hm Hk w Hw. unfold mbind, M_bind.
  specialize (Hm w Hw). destruct (m w) as [a w']. by apply Hk.
Qed.

Section Sealed.

Variable ts : list nat.

Lemma keeps_modify (f : Session → Session) :
  (∀ s, isDestroyed s = true → isDestroyed (f s) = true) →
  keeps (sealed ts) (modify f).
Proof. intros Hf w [Hd Ht]. split; [by apply Hf | done]. Qed.

Lemma keeps_get : keeps (sealed ts) get.
Proof. by intros w Hw. Qed.

Lemma keeps_setTimeout (k : TimerKind) (ms : Z) : keeps (sealed ts) (setTimeout k ms).
Proof.
  intros w [Hd Ht]. split; [done|]. simpl.
  eapply Forall_impl; [exact Ht|]. intros t [Hn Hlt]. simpl in *.
  split; [|lia]. rewrite lookup_insert_ne; [done | lia].
Qed.

Lemma keeps_clearTimeout (t : nat) : keeps (sealed ts) (clearTimeout t).
Proof.
  intros w [Hd Ht]. split; [done|]. simpl.
  eapply Forall_impl; [exact Ht|]. intros t' [Hn Hlt]. simpl in *.
  split; [|done]. apply lookup_delete_None. by right.
Qed.

Lemma keeps_api (e : Effect) : keeps (sealed ts) (api e).
Proof. by intros w Hw. Qed.

Lemma keeps_fetchActionXML (url : string) (params : ActionAttributes) :
  keeps (sealed ts) (fetchActionXML url params).
Proof. by intros w Hw. Qed.

Lemma keeps_freshSuffix : keeps (sealed ts) freshSuffix.
Proof. by intros w Hw. Qed.

Create HintDb latch discriminated.

Hint Resolve keeps_get keeps_setTimeout keeps_clearTimeout keeps_api
  keeps_fetchActionXML keeps_freshSuffix : latch.

(** Walk through a method: binds, branches and field updates. *)
Ltac latch_step :=
  lazymatch goal with
  | |- keeps _ (mret _) => apply keeps_ret
  | |- keeps _ (_ ≫= _) => apply keeps_bind; [|intros ?]
  | |- keeps _ (modify _) => apply keeps_modify; intros ? ?; simpl; done
  | |- keeps _ (if ?b then _ else _) => destruct b
  | |- keeps _ (match ?x with _ => _ end) => destruct x
  | |- keeps _ _ => solve [eauto with latch]
  end.

Ltac latch := cbv zeta; repeat latch_step.

Lemma keeps_clearTimeoutHandle : keeps (sealed ts) clearTimeoutHandle.
Proof. unfold clearTimeoutHandle. latch. Qed.

Lemma keeps_clearGatherTimeout : keeps (sealed ts) clearGatherTimeout.
Proof. unfold clearGatherTimeout. latch. Qed.

Hint Resolve keeps_clearTimeoutHandle keeps_clearGatherTimeout : latch.

Lemma keeps_destroy : keeps (sealed ts) destroy.
Proof. unfold destroy. latch. Qed.

Hint Resolve keeps_destroy : latch.

Lemma keeps_getActions (url : string) (params : ActionAttributes) :
  keeps (sealed ts) (getActions url params).
Proof. unfold getActions. latch. Qed.

Lemma keeps_gather (attrib : ActionAttributes) : keeps (sealed ts) (gather attrib).
Proof. unfold gather. latch. Qed.

Hint Resolve keeps_getActions keeps_gather : latch.

Lemma keeps_runActionBody (rec : M unit) :
  keeps (sealed ts) rec → keeps (sealed ts) (runActionBody rec).
Proof. intros Hrec. unfold runActionBody, playWith, setActionWith, hangup. latch. Qed.

Lemma keeps_runAction (fuel : nat) : keeps (sealed ts) (runAction fuel).
Proof.
  induction fuel as [|fuel IH]; simpl; [apply keeps_ret | by apply keeps_runActionBody].
Qed.

Hint Resolve keeps_runAction : latch.

Lemma keeps_callback (fuel : nat) (k : TimerKind) : keeps (sealed ts) (callback fuel k).
Proof. destruct k; simpl; unfold handleTimeout, setAction, setActionWith; latch. Qed.

Lemma keeps_deliver (fuel : nat) (i : Input) : keeps (sealed ts) (deliver fuel i).
Proof.
  destruct i; simpl.
  - unfold start. latch.
  - unfold onDTMFReceived, finishGather. latch.
  - unfold onPlaybackFinished. latch.
  - intros w Hw. unfold fire. destruct (timers w !! t) as [tm|]; [|done].
    by apply keeps_callback, keeps_clearTimeout.
  - unfold setAction, setActionWith. latch.
  - latch.
Qed.

Lemma sealed_deliverAll (fuel : nat) (inputs : list Input) (w : World) :
  sealed ts w → sealed ts (deliverAll fuel inputs w).
Proof.
  revert w. induction inputs as [|i inputs IH]; intros w Hw; simpl; [done|].
  apply IH. by apply keeps_deliver.
Qed.

End Sealed.

(** A timer that is not armed has no callback to run. *)
Lemma fire_unarmed (fuel t : nat) (w : World) :
  timers w !! t = None → fire fuel t w = (tt, w).
Proof. intros H. unfold fire. by rewrite H. Qed.

Lemma destroy_again (w : World) :
  isDestroyed (session w) = true → destroy w = (tt, w).
Proof. intros H. unfold destroy, get, mbind, M_bind. by rewrite H. Qed.

(** The first [destroy]: what it leaves behind. *)
Lemma destroy_first (w : World) :
  isDestroyed (session w) = false →
  let w' := exec destroy w in
  isDestroyed (session w') = true
  ∧ isPlaying (session w') = false
  ∧ playbackId (session w') = EmptyString
  ∧ timeoutHandle (session w') = None
  ∧ g_timeout (gatherInstance (session w')) = None
  ∧ trace w' = ApiHangup (id (session w)) :: trace w
  ∧ nextTimer w' = nextTimer w
  ∧ ∀ t, timeoutHandle (session w) = Some t ∨ g_timeout (gatherInstance (session w)) = Some t →
         timers w' !! t = None.
Proof.
  destruct w as [[i u ra [d r n f a [gt|] tsec] pb ip ct [th|] pa cas isd] tm nt tr pr fr ps];
    simpl; intros ->; unfold exec, destroy, get, mbind, M_bind; simpl.
  all: repeat split; try done.
  all: intros t [[= <-]|[= <-]]; apply lookup_delete_None; try (by left).
  right. apply lookup_delete_None. by left.
Qed.

(** C3, as the code has it.  The first [destroy] sets the latch, clears
    the playback state, issues one hangup and cancels the timers held in
    the two handles of the session; whatever is delivered afterwards, the
    latch stays set and those timers are never armed again, so they never
    fire; a second [destroy] changes nothing and issues nothing.  (The
    latch is read by [destroy] alone: events delivered later are handled as
    usual.) *)
Theorem destroy_latched (w : World) :
  let w' := exec destroy w in
  (isDestroyed (session w) = false →
     isDestroyed (session w') = true
     ∧ isPlaying (session w') = false
     ∧ playbackId (session w') = EmptyString
     ∧ trace w' = ApiHangup (id (session w)) :: trace w
     ∧ ∀ t,
         timeoutHandle (session w) = Some t
         ∨ g_timeout (gatherInstance (session w)) = Some t →
         (t < nextTimer w)%nat →
         ∀ fuel inputs fuel',
           fire fuel' t (deliverAll fuel inputs w') = (tt, deliverAll fuel inputs w'))
  ∧ (∀ fuel inputs, isDestroyed (session (deliverAll fuel inputs w')) = true)
  ∧ destroy w' = (tt, w').
Proof.
  intros w'.
  assert (Hlatch : isDestroyed (session w') = true).
  { destruct (isDestroyed (session w)) eqn:Hd.
    - subst w'. unfold exec. by rewrite destroy_again.
    - by apply destroy_first. }
  split; [|split].
  - intros Hd. destruct (destroy_first w Hd) as (H1 & H2 & H3 & _ & _ & H6 & H7 & H8).
    fold w' in H1, H2, H3, H6, H7, H8. repeat split; try done.
    intros t Ht Hlt fuel inputs fuel'. apply fire_unarmed.
    assert (Hs : sealed [t] w').
    { split; [done|]. constructor; [|done]. split; [by apply H8 | lia]. }
    apply (sealed_deliverAll [t] fuel inputs) in Hs as [_ Hs].
    by apply Forall_inv in Hs as [Hs _].
  - intros fuel inputs. by apply (sealed_deliverAll [] fuel inputs w').
  - by apply destroy_again.
Qed.

(** The post-playback timer of the waiting channel is cancelled by
    [destroy] and cannot fire afterwards. *)
Lemma destroy_latched_witness :
  timers waitingWorld !! 1%nat = Some (mkTimer PostPlaybackTimeout 5000)
  ∧ fire 8 1 (deliverAll 8 [DTMF "1"; PlaybackFinished None] (exec destroy waitingWorld))
    = (tt, deliverAll 8 [DTMF "1"; PlaybackFinished None] (exec destroy waitingWorld)).
Proof.
  split; [vm_compute; reflexivity|].
  destruct (destroy_latched waitingWorld) as [H _].
  destruct H as (_ & _ & _ & _ & H); [vm_compute; reflexivity|].
  apply (H 1%nat); [left; vm_compute; reflexivity | vm_compute; lia].
Defined.

(** C3 fails as stated.  The channel is destroyed while its gather is
    running.  Two digits delivered afterwards complete the gather: the next
    script is fetched and its prompt is played on the PBX.  A
    playback-finished event delivered afterwards arms the gather timer,
    which then fires and runs its callback. *)
Lemma destroy_not_final_counterexample :
  let w := exec destroy gatheringWorld in
  isDestroyed (session w) = true
  ∧ List.filter isPbxCall (trace (deliverAll 8 [DTMF "4"; DTMF "2"] w))
      = ApiPlay "ch1" "custom/demo/confirm" "ch1_1701_cd"
          :: List.filter isPbxCall (trace w)
  ∧ timers w = ∅
  ∧ timers (deliverAll 8 [PlaybackFinished (Some "ch1_1700_ab")] w) !! 0%nat
      = Some (mkTimer GatherTimeout 10000)
  ∧ running (gatherInstance (session
      (deliverAll 8 [PlaybackFinished (Some "ch1_1700_ab")] w))) = true
  ∧ running (gatherInstance (session
      (deliverAll 8 [PlaybackFinished (Some "ch1_1700_ab"); TimerFired 0] w))) = false.
Proof. vm_compute. repeat split; reflexivity. Qed.

(** C6, as the code has it.  A playback-finished event whose id is not
    empty is ignored when the session has a current playback id and the
    two differ: the session, the timers and the requests stay as they
    were. *)
Theorem late_playback_ignored (fuel : nat) (pb : string) (w : World) :
  pb ≠ EmptyString →
  playbackId (session w) ≠ EmptyString →
  pb ≠ playbackId (session w) →
  onPlaybackFinished fuel (Some pb) w = (tt, w).
Proof.
  intros H1 H2 H3. unfold onPlaybackFinished, get, mbind, M_bind. simpl.
  apply String.eqb_neq in H1, H2, H3. by rewrite H1, H2, H3.
Qed.

Lemma late_playback_ignored_witness :
  onPlaybackFinished 8 (Some "ch1_1699_zz") gatheringWorld = (tt, gatheringWorld).
Proof.
  apply (late_playback_ignored 8 "ch1_1699_zz" gatheringWorld).
  - discriminate.
  - vm_compute. discriminate.
  - vm_compute. discriminate.
Defined.

(** C6 fails as stated.  After a barge-in the session has no current
    playback id; the playback-finished event of the interrupted prompt
    carries an id that is not empty and differs from it, and it is handled:
    it arms the gather timer. *)
Lemma late_playback_counterexample :
  let w := exec (onDTMFReceived 8 "4") gatheringWorld in
  playbackId (session w) = EmptyString
  ∧ timers w = ∅
  ∧ g_timeout (gatherInstance (session w)) = None
  ∧ timers (exec (onPlaybackFinished 8 (Some "ch1_1700_ab")) w) !! 0%nat
      = Some (mkTimer GatherTimeout 10000)
  ∧ g_timeout (gatherInstance (session
      (exec (onPlaybackFinished 8 (Some "ch1_1700_ab")) w))) = Some 0%nat.
Proof. vm_compute. repeat split; reflexivity. Qed.

(** C7, as the code has it.  A digit delivered while no gather is running
    and nothing is playing is dropped: nothing is requested from the PBX,
    no script is fetched, and the session keeps every field but one: the
    post-playback timer, if armed, is cancelled.  With no such timer the
    whole state is unchanged. *)
Theorem dropped_digit_cancels_timer (fuel : nat) (digit : string) (w : World) :
  running (gatherInstance (session w)) = false →
  isPlaying (session w) = false →
  let w' := exec (onDTMFReceived fuel digit) w in
  trace w' = trace w
  ∧ session w' = setTimeoutHandle None (session w)
  ∧ timers w' = match timeoutHandle (session w) with
                | Some t => delete t (timers w)
                | None => timers w
                end
  ∧ nextTimer w' = nextTimer w
  ∧ (timeoutHandle (session w) = None → w' = w).
Proof.
  destruct w as [[i u ra [d r n f a gt tsec] pb ip ct [th|] pa cas isd] tm nt tr pr fr ps];
    simpl; intros -> ->;
    unfold exec, onDTMFReceived, clearTimeoutHandle, get, mbind, M_bind; simpl.
  all: by repeat split.
Qed.

Lemma dropped_digit_cancels_timer_witness :
  let w' := exec (onDTMFReceived 8 "7") waitingWorld in
  trace w' = trace waitingWorld
  ∧ session w' = setTimeoutHandle None (session waitingWorld)
  ∧ timers w' = match timeoutHandle (session waitingWorld) with
                | Some t => delete t (timers waitingWorld)
                | None => timers waitingWorld
                end
  ∧ nextTimer w' = nextTimer waitingWorld
  ∧ (timeoutHandle (session waitingWorld) = None → w' = waitingWorld).
Proof.
  apply (dropped_digit_cancels_timer 8 "7" waitingWorld); vm_compute; reflexivity.
Defined.

(** C7 fails as stated.  The channel waits for its post-playback timer, no
    gather is running and nothing is playing; one digit disarms the timer,
    and the session is no longer the same. *)
Lemma dropped_digit_counterexample :
  running (gatherInstance (session waitingWorld)) = false
  ∧ isPlaying (session waitingWorld) = false
  ∧ timeoutHandle (session waitingWorld) = Some 1%nat
  ∧ timers waitingWorld !! 1%nat = Some (mkTimer PostPlaybackTimeout 5000)
  ∧ timeoutHandle (session (exec (onDTMFReceived 8 "7") waitingWorld)) = None
  ∧ timers (exec (onDTMFReceived 8 "7") waitingWorld) !! 1%nat = None.
Proof. vm_compute. repeat split; reflexivity. Qed.

End ChannelManagerFacts.

(** ** WebSocketService *)

Section WebSocketServiceFacts.

Import WebSocketService.

(** C10.  When the socket of the call exists and is open but [send]
    throws, [sendToCallId] returns [false] and leaves the registry as it
    was: the payload is not put in the pending buffer.  In general the
    pending buffer changes exactly when no open socket exists for the call,
    and then the payload replaces whatever was pending for it. *)
Theorem sendToCallId_buffering (svc : Service) (callId : string) (message : Message) :
  (hasOpenSocket svc callId = true →
     sendToCallId svc callId message true = (svc, false))
  ∧ (∀ sendThrows,
       hasOpenSocket svc callId = true →
       pendingMessages (fst (sendToCallId svc callId message sendThrows))
         = pendingMessages svc)
  ∧ (∀ sendThrows,
       hasOpenSocket svc callId = false →
       sendToCallId svc callId message sendThrows
         = (mkService (connections svc) (<[callId := message]> (pendingMessages svc))
                      (lastState svc),
            false)).
Proof.
  unfold hasOpenSocket, sendToCallId.
  destruct (connections svc !! callId) as [ws|]; [|by repeat split].
  destruct (isOpen (readyState ws)); repeat split; try done.
  by intros [].
Qed.

(** On the open socket of [call-1] a throwing [send] loses the message and
    keeps the older pending one; for [call-2], whose socket is closing, the
    message is buffered. *)
Lemma sendToCallId_buffering_witness :
  sendToCallId sampleService "call-1" otpMessage true = (sampleService, false)
  ∧ pendingMessages (fst (sendToCallId sampleService "call-2" otpMessage true)) !! "call-2"
      = Some otpMessage.
Proof.
  split.
  - apply (sendToCallId_buffering sampleService "call-1" otpMessage).
    vm_compute. reflexivity.
  - destruct (sendToCallId_buffering sampleService "call-2" otpMessage) as (_ & _ & H).
    rewrite (H true); [|vm_compute; reflexivity]. simpl. apply lookup_insert_eq.
Defined.

End WebSocketServiceFacts.

(** ** Doubles: the floor of six times a draw *)

Section DoubleFacts.

Import Double.

(** Evaluates the powers of two with a closed exponent. *)
Ltac pow2_eval :=
  repeat match goal with
         | H : context [2 ^ ?c] |- _ =>
             let x := eval vm_compute in (2 ^ c) in change (2 ^ c) with x in H
         | |- context [2 ^ ?c] =>
             let x := eval vm_compute in (2 ^ c) in change (2 ^ c) with x
         end.

Lemma digits2_pos_bounds (p : positive) :
  2 ^ (Z.pos (digits2_pos p) - 1) <= Z.pos p < 2 ^ Z.pos (digits2_pos p).
Proof.
  induction p as [p IH|p IH|]; simpl digits2_pos.
  - rewrite Pos2Z.inj_succ.
    replace (Z.succ (Z.pos (digits2_pos p)) - 1) with (Z.succ (Z.pos (digits2_pos p) - 1)) by lia.
    rewrite !Z.pow_succ_r by lia. lia.
  - rewrite Pos2Z.inj_succ.
    replace (Z.succ (Z.pos (digits2_pos p)) - 1) with (Z.succ (Z.pos (digits2_pos p) - 1)) by lia.
    rewrite !Z.pow_succ_r by lia. lia.
  - simpl. lia.
Qed.

Lemma Zdigits2_le (n k : Z) : 0 <= n → 0 <= k → n < 2 ^ k → Zdigits2 n <= k.
Proof.
  intros Hn Hk Hlt. destruct n as [|p|p]; simpl; [lia| |lia].
  destruct (digits2_pos_bounds p) as [Hlo _].
  destruct (Z_le_gt_dec (Z.pos (digits2_pos p)) k) as [|Hgt]; [done|].
  assert (2 ^ k <= 2 ^ (Z.pos (digits2_pos p) - 1)) by (apply Z.pow_le_mono_r; lia).
  lia.
Qed.

Lemma Zdigits2_ge (n k : Z) : 0 < n → 2 ^ (k - 1) <= n → k <= Zdigits2 n.
Proof.
  intros Hn Hle. destruct n as [|p|p]; simpl; [lia| |lia].
  destruct (digits2_pos_bounds p) as [_ Hhi].
  destruct (Z_le_gt_dec k (Z.pos (digits2_pos p))) as [|Hgt]; [done|].
  assert (2 ^ Z.pos (digits2_pos p) <= 2 ^ (k - 1)) by (apply Z.pow_le_mono_r; lia).
  lia.
Qed.

Lemma iter_pos_nat {A : Type} (f : A → A) (p : positive) (x : A) :
  SpecFloat.iter_pos f p x = Nat.iter (Pos.to_nat p) f x.
Proof.
  revert x. induction p as [p IH|p IH|]; intros x; simpl SpecFloat.iter_pos.
  - rewrite !IH, Pos2Nat.inj_xI.
    replace (S (2 * Pos.to_nat p)) with (S (Pos.to_nat p + Pos.to_nat p))%nat by lia.
    by rewrite Nat.iter_succ_r, Nat.iter_add.
  - rewrite !IH, Pos2Nat.inj_xO.
    replace (2 * Pos.to_nat p)%nat with (Pos.to_nat p + Pos.to_nat p)%nat by lia.
    by rewrite Nat.iter_add.
  - done.
Qed.

(** [k] right shifts of [N]: the quotient, and where the remainder lies
    with respect to the half. *)
Lemma shr_1_remainder (N k : Z) (mrs : shr_record) (ρ : Z) :
  0 <= k →
  0 <= ρ < 2 ^ k → N = shr_m mrs * 2 ^ k + ρ → 0 <= shr_m mrs →
  (shr_r mrs = true ↔ 2 ^ k <= 2 * ρ) →
  (shr_s mrs = true ↔ ρ ≠ 0 ∧ 2 * ρ ≠ 2 ^ k) →
  ∃ ρ', 0 <= ρ' < 2 ^ (k + 1)
        ∧ N = shr_m (shr_1 mrs) * 2 ^ (k + 1) + ρ'
        ∧ 0 <= shr_m (shr_1 mrs)
        ∧ (shr_r (shr_1 mrs) = true ↔ 2 ^ (k + 1) <= 2 * ρ')
        ∧ (shr_s (shr_1 mrs) = true ↔ ρ' ≠ 0 ∧ 2 * ρ' ≠ 2 ^ (k + 1)).
Proof.
  intros Hk Hρ HN Hm Hr Hs.
  rewrite Z.pow_add_r by lia. change (2 ^ 1) with 2.
  assert (HP : 0 < 2 ^ k) by (apply Z.pow_pos_nonneg; lia).
  set (P := 2 ^ k) in *. clearbody P.
  assert (Hrs : orb (shr_r mrs) (shr_s mrs) = true ↔ ρ ≠ 0).
  { rewrite orb_true_iff, Hr, Hs. lia. }
  destruct mrs as [m r s]. simpl in *.
  destruct m as [|[p|p|]|p]; simpl; try lia.
  - exists ρ. rewrite Hrs. split_and!; lia.
  - exists (P + ρ). rewrite Hrs. split_and!; lia.
  - exists ρ. rewrite Hrs. split_and!; lia.
  - exists (P + ρ). rewrite Hrs. split_and!; lia.
Qed.

Lemma shr_remainder (N E n : Z) :
  0 <= N →
  ∃ mrs ρ,
    shr (Build_shr_record N false false) E n = (mrs, E + Z.max n 0)
    ∧ 0 <= ρ < 2 ^ Z.max n 0
    ∧ N = shr_m mrs * 2 ^ Z.max n 0 + ρ
    ∧ 0 <= shr_m mrs
    ∧ (shr_r mrs = true ↔ 2 ^ Z.max n 0 <= 2 * ρ)
    ∧ (shr_s mrs = true ↔ ρ ≠ 0 ∧ 2 * ρ ≠ 2 ^ Z.max n 0).
Proof.
  intros HN.
  assert (H0 : ∃ mrs ρ,
            (Build_shr_record N false false, E) = (mrs, E + 0)
            ∧ 0 <= ρ < 2 ^ 0
            ∧ N = shr_m mrs * 2 ^ 0 + ρ
            ∧ 0 <= shr_m mrs
            ∧ (shr_r mrs = true ↔ 2 ^ 0 <= 2 * ρ)
            ∧ (shr_s mrs = true ↔ ρ ≠ 0 ∧ 2 * ρ ≠ 2 ^ 0)).
  { exists (Build_shr_record N false false), 0. simpl.
    rewrite Z.add_0_r. split_and!; try done; lia. }
  destruct n as [|p|p]; [exact H0| |exact H0].
  rewrite Z.max_l by lia. simpl shr. rewrite iter_pos_nat.
  rewrite <- (positive_nat_Z p). generalize (Pos.to_nat p) as k. clear H0.
  intros k.
  assert (Hk : ∃ ρ,
            0 <= ρ < 2 ^ Z.of_nat k
            ∧ N = shr_m (Nat.iter k shr_1 (Build_shr_record N false false))
                  * 2 ^ Z.of_nat k + ρ
            ∧ 0 <= shr_m (Nat.iter k shr_1 (Build_shr_record N false false))
            ∧ (shr_r (Nat.iter k shr_1 (Build_shr_record N false false)) = true
               ↔ 2 ^ Z.of_nat k <= 2 * ρ)
            ∧ (shr_s (Nat.iter k shr_1 (Build_shr_record N false false)) = true
               ↔ ρ ≠ 0 ∧ 2 * ρ ≠ 2 ^ Z.of_nat k)).
  { induction k as [|k (ρ & H1 & H2 & H3 & H4 & H5)].
    - exists 0. simpl. split_and!; lia.
    - rewrite Nat.iter_succ, Nat2Z.inj_succ, <- Z.add_1_r.
      apply (shr_1_remainder N (Z.of_nat k) _ ρ); try done. lia. }
  destruct Hk as (ρ & Hk). eexists _, ρ. split; [reflexivity | exact Hk].
Qed.

(** Rounding to nearest, ties to even, against an even threshold. *)
Lemma round_nearest_even_threshold (N k : Z) (mrs : shr_record) (ρ T : Z) :
  0 <= k →
  0 <= ρ < 2 ^ k → N = shr_m mrs * 2 ^ k + ρ → 0 <= shr_m mrs →
  (shr_r mrs = true ↔ 2 ^ k <= 2 * ρ) →
  (shr_s mrs = true ↔ ρ ≠ 0 ∧ 2 * ρ ≠ 2 ^ k) →
  Z.even T = true →
  0 <= round_nearest_even (shr_m mrs) (loc_of_shr_record mrs)
  ∧ (T <= round_nearest_even (shr_m mrs) (loc_of_shr_record mrs)
     ↔ (2 * T - 1) * 2 ^ k <= 2 * N).
Proof.
  intros Hk Hρ HN Hm Hr Hs HT.
  assert (HP : 0 < 2 ^ k) by (apply Z.pow_pos_nonneg; lia).
  set (P := 2 ^ k) in *. clearbody P.
  apply Z.even_spec in HT as [t ->].
  destruct mrs as [m r s]. simpl in *. subst N.
  assert (Hq : (2 * (2 * t) - 1) * P <= 2 * (m * P + ρ)
               ↔ 2 * t <= m ∨ (2 * t = m + 1 ∧ P <= 2 * ρ)).
  { split.
    - intros H. destruct (Z_le_gt_dec (2 * t) m) as [|Hgt]; [by left|right].
      assert (2 * t = m + 1 ∨ m + 2 <= 2 * t) as [?|?] by lia; [split; [done|nia]|nia].
    - intros [H|[H1 H2]]; nia. }
  rewrite Hq. clear Hq.
  destruct r, s; simpl.
  - lia.
  - destruct (Z.even m) eqn:He.
    + apply Z.even_spec in He as [a ->]. lia.
    + lia.
  - lia.
  - lia.
Qed.

(** The product [N * 2 ^ E], rounded to a double: the mantissa [M] it is
    rounded to at the exponent [E1], and the floor of the result. *)
Lemma binary_round_aux_floor (N E : Z) :
  0 < N →
  let n := Z.max (fexp prec emax (Zdigits2 N + E) - E) 0 in
  let E1 := E + n in
  E1 <= 0 →
  ∃ M, 0 <= M
       ∧ (∀ T, Z.even T = true → T <= M ↔ (2 * T - 1) * 2 ^ n <= 2 * N)
       ∧ (M < 2 ^ (53 - E1) →
          floor (binary_round_aux prec emax false N E loc_Exact) = M / 2 ^ (- E1)).
Proof.
  intros HN n E1 HE1.
  unfold binary_round_aux, shr_fexp.
  change (shr_record_of_loc N loc_Exact) with (Build_shr_record N false false).
  destruct (shr_remainder N E (fexp prec emax (Zdigits2 N + E) - E))
    as (mrs & ρ & Hshr & Hρ & HNρ & Hm & Hr & Hs); [lia|].
  fold n in Hshr, Hρ, HNρ, Hr, Hs. fold E1 in Hshr. rewrite Hshr.
  assert (Hn : 0 <= n) by (subst n; lia).
  set (M := round_nearest_even (shr_m mrs) (loc_of_shr_record mrs)).
  exists M. split_and!.
  - by destruct (round_nearest_even_threshold N n mrs ρ 0 Hn Hρ HNρ Hm Hr Hs eq_refl).
  - intros T HT.
    by destruct (round_nearest_even_threshold N n mrs ρ T Hn Hρ HNρ Hm Hr Hs HT).
  - intros HM.
    assert (HM0 : 0 <= M)
      by by destruct (round_nearest_even_threshold N n mrs ρ 0 Hn Hρ HNρ Hm Hr Hs eq_refl).
    clearbody M.
    change (shr_record_of_loc M loc_Exact) with (Build_shr_record M false false).
    destruct (shr_remainder M E1 (fexp prec emax (Zdigits2 M + E1) - E1))
      as (mrs2 & ρ2 & Hshr2 & Hρ2 & HMρ & Hm2 & _ & _); [lia|].
    rewrite Hshr2.
    set (n2 := Z.max (fexp prec emax (Zdigits2 M + E1) - E1) 0) in *.
    assert (Hd : Zdigits2 M <= 53 - E1) by (apply Zdigits2_le; lia).
    assert (Hn2 : 0 <= n2 <= - E1).
    { subst n2. unfold fexp, emin, prec, emax. lia. }
    clearbody n2.
    assert (HP2 : 0 < 2 ^ n2) by (apply Z.pow_pos_nonneg; lia).
    assert (Hpow : 2 ^ (- E1) = 2 ^ n2 * 2 ^ (- (E1 + n2))).
    { rewrite <- Z.pow_add_r by lia. f_equal. lia. }
    assert (Hdiv : M / 2 ^ (- E1) = shr_m mrs2 / 2 ^ (- (E1 + n2))).
    { rewrite Hpow, <- Z.div_div by lia. f_equal.
      symmetry. apply (Z.div_unique_pos M (2 ^ n2) (shr_m mrs2) ρ2); lia. }
    rewrite Hdiv.
    destruct (shr_m mrs2) as [|q|q] eqn:Hq; [| |lia].
    + simpl. by rewrite Z.div_0_l by (apply Z.pow_nonzero; lia).
    + assert (Hle : (E1 + n2 <=? emax - prec)%Z = true).
      { apply Z.leb_le. unfold emax, prec. lia. }
      rewrite Hle. simpl floor. apply Z.shiftl_div_pow2. lia.
Qed.

Lemma pow2_split (a b : Z) : 0 <= a → 0 <= b → 2 ^ (a + b) = 2 ^ a * 2 ^ b.
Proof. intros. by apply Z.pow_add_r. Qed.

(** What [bounded] says of a double below 1. *)
Lemma bounded_below_one (m : positive) (e : Z) :
  bounded prec emax m e = true →
  Z.pos m < 2 ^ (- e) →
  53 <= - e <= 1074
  ∧ Z.pos m <= (2 ^ 53 - 1) * 2 ^ (- e - 53).
Proof.
  intros Hb Hlt.
  apply andb_true_iff in Hb as [Hc _]. apply Z.eqb_eq in Hc.
  unfold fexp, emin, prec, emax in Hc.
  destruct (digits2_pos_bounds m) as [Hlo Hhi].
  set (d := Z.pos (digits2_pos m)) in *.
  assert (Hd : d <= 53 ∧ -1074 <= e ∧ (d = 53 ∨ e = -1074)) by lia.
  destruct Hd as (Hd & He & Hcase).
  assert (Ht : 53 <= - e).
  { destruct Hcase as [-> | ->]; [|lia].
    destruct (Z_le_gt_dec 53 (- e)) as [|Hgt]; [done|].
    assert (2 ^ (- e) <= 2 ^ (53 - 1)) by (apply Z.pow_le_mono_r; lia). lia. }
  split; [lia|].
  assert (Hm : Z.pos m < 2 ^ 53).
  { assert (2 ^ d <= 2 ^ 53) by (apply Z.pow_le_mono_r; lia). lia. }
  assert (Hu : 2 ^ (- e) = 2 ^ 53 * 2 ^ (- e - 53)).
  { rewrite <- pow2_split by lia. f_equal. lia. }
  assert (Hv : 0 < 2 ^ (- e - 53)) by (apply Z.pow_pos_nonneg; lia).
  rewrite Hu in Hlt. change (2 ^ 53) with 9007199254740992 in *.
  set (v := 2 ^ (- e - 53)) in *. clearbody v. 
  assert (v = 1 ∨ 2 <= v) as [-> | Hv2] by lia; lia.
Qed.

(** The floor of six times a double of [0,1): it is at least [j] exactly
    when the exact product is at least [j] less half the gap between [j]
    and the double before it, which is [2 ^ (b - 54)] where [2 ^ b] is the
    power of two that [j] is at most. *)
Lemma mul_six_floor (m : positive) (e : Z) :
  bounded prec emax m e = true →
  Z.pos m < 2 ^ (- e) →
  let p := floor (mul (S754_finite false m e) (ofZ 6)) in
  0 <= p <= 5
  ∧ ∀ j b, In (j, b) [(1, 0); (2, 1); (3, 2); (4, 2); (5, 3); (6, 3)] →
      (j <= p ↔ (j * 2 ^ (54 - b) - 1) * 2 ^ (- e) <= 6 * 2 ^ (54 - b) * Z.pos m).
Proof.
  intros Hb Hlt.
  destruct (bounded_below_one m e Hb Hlt) as (Ht & Hmv). clear Hlt Hb.
  change (ofZ 6) with (S754_finite false 6755399441055744 (-50)).
  unfold mul, SFmul. change (xorb false false) with false.
  rewrite Pos2Z.inj_mul.
  set (N := Z.pos m * 6755399441055744).
  set (E := e + -50).
  assert (HN : 0 < N) by (subst N; lia).
  set (t := - e) in *.
  assert (Hu : 2 ^ t = 9007199254740992 * 2 ^ (t - 53)).
  { change 9007199254740992 with (2 ^ 53). rewrite <- pow2_split by lia. f_equal. lia. }
  assert (Hv : 0 < 2 ^ (t - 53)) by (apply Z.pow_pos_nonneg; lia).
  change (2 ^ 53 - 1) with 9007199254740991 in Hmv.
  set (v := 2 ^ (t - 53)) in *.
  (* the digits of the product *)
  set (D := Zdigits2 N).
  assert (HD : 53 <= D <= t + 53).
  { split.
    - apply Zdigits2_ge; [done|]. change (2 ^ (53 - 1)) with 4503599627370496.
      subst N. lia.
    - apply Zdigits2_le; [lia | lia |].
      replace (t + 53) with ((t - 53) + 106) by lia. rewrite pow2_split by lia.
      fold v. change (2 ^ 106) with 81129638414606681695789005144064. subst N. lia. }
  assert (HDlo : 2 ^ (D - 1) <= N).
  { subst D N. rewrite <- Pos2Z.inj_mul. simpl Zdigits2. apply digits2_pos_bounds. }
  set (n := Z.max (fexp prec emax (D + E) - E) 0).
  assert (Hn : n = Z.max (D - 53) (t - 1024)).
  { subst n E. unfold fexp, emin, prec, emax. lia. }
  destruct (binary_round_aux_floor N E HN) as (M & HM0 & HMT & HMfloor).
  { fold D n. subst E. lia. }
  fold D n in HMT, HMfloor.
  set (E1 := E + n) in *.
  assert (HE1 : 50 <= - E1 ∧ - E1 + n = t + 50) by (subst E1 E; lia).
  set (K := 2 ^ (- E1)) in *.
  assert (HK : 0 < K) by (apply Z.pow_pos_nonneg; lia).
  assert (HKeven : ∀ j, Z.even (j * K) = true).
  { intros j. subst K. replace (- E1) with (1 + (- E1 - 1)) by lia.
    rewrite pow2_split by lia. change (2 ^ 1) with 2.
    rewrite Z.even_mul, Z.even_mul. simpl. by rewrite orb_true_r. }
  assert (HKn : K * 2 ^ n = 10141204801825835211973625643008 * v).
  { subst K. rewrite <- pow2_split by lia.
    replace (- E1 + n) with (103 + (t - 53)) by lia. by rewrite pow2_split by lia. }
  assert (Hn0 : 0 < 2 ^ n) by (apply Z.pow_pos_nonneg; lia).
  (* the thresholds of the rounded mantissa *)
  assert (Hthr : ∀ j b, In (j, b) [(1, 0); (2, 1); (3, 2); (4, 2); (5, 3); (6, 3)] →
            (j * K <= M
             ↔ (j * 2 ^ (54 - b) - 1) * 2 ^ t <= 6 * 2 ^ (54 - b) * Z.pos m)).
  { intros j b Hjb.
    assert (Hb03 : 0 <= b <= 3).
    { simpl in Hjb. repeat (destruct Hjb as [[= <- <-]|Hjb]; [lia|]). done. }
    rewrite (HMT (j * K) (HKeven j)).
    replace ((2 * (j * K) - 1) * 2 ^ n) with (2 * j * (K * 2 ^ n) - 2 ^ n) by ring.
    rewrite HKn, Hu.
    (* compare [n] with [t + b - 3] *)
    assert (Hpow : 2 ^ (t + b - 3) = 2 ^ (50 + b) * v).
    { replace (t + b - 3) with ((50 + b) + (t - 53)) by lia. by rewrite pow2_split by lia. }
    assert (HDhi : t + b + 50 < D → 2 ^ (103 + b) * v <= N).
    { intros H. etrans; [|exact HDlo].
      replace (2 ^ (103 + b) * v) with (2 ^ (103 + b + (t - 53)))
        by (by rewrite pow2_split by lia).
      apply Z.pow_le_mono_r; lia. }
    assert (HDge : 2 ^ (102 + b) * v <= N → t + b + 50 <= D).
    { intros H. apply Zdigits2_ge; [done|].
      replace (t + b + 50 - 1) with (102 + b + (t - 53)) by lia.
      by rewrite pow2_split by lia. }
    assert (Hmono : t + b - 3 <= n → 2 ^ (t + b - 3) <= 2 ^ n).
    { intros H. apply Z.pow_le_mono_r; lia. }
    assert (Hmono' : n <= t + b - 3 → 2 ^ n <= 2 ^ (t + b - 3)).
    { intros H. apply Z.pow_le_mono_r; lia. }
    rewrite Hpow in Hmono, Hmono'.
    clear HMT HMfloor HKn HKeven Hu HDlo Hpow HK. subst N. clearbody v D.
    set (Pn := 2 ^ n) in *. clearbody Pn. clearbody n. clear E E1 K HM0 HE1.
    simpl in Hjb.
    repeat (destruct Hjb as [[= <- <-]|Hjb]; [pow2_eval; lia|]). done. }
  assert (HM6 : M < 6 * K).
  { destruct (Z_lt_le_dec M (6 * K)) as [|Hge]; [done|exfalso].
    apply (Hthr 6 3) in Hge; [|simpl; auto 10].
    rewrite Hu in Hge. change (2 ^ (54 - 3)) with 2251799813685248 in Hge.
    clear - Hge Hmv Hv. lia. }
  assert (Hfloor : floor (binary_round_aux prec emax false N E loc_Exact) = M / K).
  { apply HMfloor. replace (53 - E1) with (53 + - E1) by lia.
    rewrite pow2_split by lia. fold K. change (2 ^ 53) with 9007199254740992.
    clear - HM6 HK. lia. }
  cbv zeta. rewrite Hfloor. split.
  - split; [apply Z.div_pos; lia|].
    assert (M / K < 6) by (apply Z.div_lt_upper_bound; lia). lia.
  - intros j b Hjb. rewrite <- (Hthr j b Hjb). split.
    + intros Hj. pose proof (Z.mul_div_le M K HK). nia.
    + intros Hj. apply Z.div_le_lower_bound; lia.
Qed.

(** A threshold on the exact product, in integers. *)
Lemma toQ_threshold (j : Z) (c m : positive) (e : Z) :
  e < 0 →
  (inject_Z j - (1 # 2 ^ c) <= 6 * toQ (S754_finite false m e))%Q
  ↔ (j * 2 ^ Z.pos c - 1) * 2 ^ (- e) <= 6 * 2 ^ Z.pos c * Z.pos m.
Proof.
  intros He. unfold toQ.
  assert (H0 : (0 <=? e)%Z = false) by (apply Z.leb_gt; lia). rewrite H0.
  assert (Hu : 0 < 2 ^ (- e)) by (apply Z.pow_pos_nonneg; lia).
  unfold Qle, Qminus, Qplus, Qopp, Qmult, inject_Z. cbn [Qnum Qden].
  rewrite !Pos2Z.inj_mul, Z2Pos.id, Pos2Z.inj_pow by done.
  replace ((j * 2 ^ Z.pos c + - (1) * 1) * (1 * 2 ^ (- e)))
    with ((j * 2 ^ Z.pos c - 1) * 2 ^ (- e)) by ring.
  by replace (6 * Z.pos m * (1 * 2 ^ Z.pos c)) with (6 * 2 ^ Z.pos c * Z.pos m) by ring.
Qed.

(** The timeout of [answer], for every double of [0,1) that
    [Math.random()] can return. *)
Lemma answer_timeout_of_draw (r : spec_float) :
  isDraw r = true →
  let p := floor (mul r (ofZ 6)) in
  let x := (6 * toQ r)%Q in
  0 <= p <= 5
  ∧ (1 <= p ↔ (1 - (1 # 2 ^ 54) <= x)%Q)
  ∧ (2 <= p ↔ (2 - (1 # 2 ^ 53) <= x)%Q)
  ∧ (3 <= p ↔ (3 - (1 # 2 ^ 52) <= x)%Q)
  ∧ (4 <= p ↔ (4 - (1 # 2 ^ 52) <= x)%Q)
  ∧ (5 <= p ↔ (5 - (1 # 2 ^ 51) <= x)%Q).
Proof.
  intros Hr. destruct r as [[]| | |[] m e]; try discriminate.
  - vm_compute. split_and!; try done; split; intros H; exfalso; by apply H.
  - apply andb_true_iff in Hr as [Hb Hlt]. apply Z.ltb_lt in Hlt.
    destruct (bounded_below_one m e Hb Hlt) as (Ht & _).
    destruct (mul_six_floor m e Hb Hlt) as (Hrange & Hthr).
    cbv zeta. split; [exact Hrange|].
    split_and!.
    + rewrite (Hthr 1 0) by (simpl; auto 10).
      symmetry. apply (toQ_threshold 1 54 m e). lia.
    + rewrite (Hthr 2 1) by (simpl; auto 10).
      symmetry. apply (toQ_threshold 2 53 m e). lia.
    + rewrite (Hthr 3 2) by (simpl; auto 10).
      symmetry. apply (toQ_threshold 3 52 m e). lia.
    + rewrite (Hthr 4 2) by (simpl; auto 10).
      symmetry. apply (toQ_threshold 4 52 m e). lia.
    + rewrite (Hthr 5 3) by (simpl; auto 10).
      symmetry. apply (toQ_threshold 5 51 m e). lia.
Qed.
End DoubleFacts.

(** ** ActionController *)

Section ActionControllerFacts.

Import ActionController.

Lemma truthy_Some (s : string) : s ≠ EmptyString → truthy (Some s) = true.
Proof. intros H. simpl. by apply String.eqb_neq in H as ->. Qed.

(** The side effects of [option1] and [option2] do not touch the call
    store. *)
Lemma calls_processActionLogic_option (env : Env) (ctx : Ctx) (status uuid : string)
    (digits : option string) :
  status = "option1" ∨ status = "option2" →
  calls (processActionLogic env ctx status uuid digits) = calls ctx.
Proof.
  intros [-> | ->]; unfold processActionLogic; simpl; by destruct (truthy digits).
Qed.

(** For a name that [Object.prototype] does not hold, the lookup finds
    the entries of the campaign and nothing else. *)
Lemma getActionMember_entry (env : Env) (campaign action : string) :
  inheritedMember action = None →
  getActionMember env campaign action = Entry <$> getActionData env campaign action.
Proof.
  intros Hnone. unfold getActionMember, getActionData.
  destruct (campaignsCache env !! campaign) as [c|]; simpl; [|done].
  destruct (c !! action); simpl; [done|]. by rewrite Hnone.
Qed.

Lemma handleActionFrom_entry (env : Env) (ctx : Ctx) (status uuid campaign : string)
    (Digits : option string) :
  inheritedMember status = None →
  handleActionFrom env ctx status uuid campaign Digits =
    match getActionData env campaign status with
    | None => (ctx, errorXml)
    | Some actionData =>
        let ctx1 := processActionLogic env ctx status uuid Digits in
        let gather1Next := getActionData env campaign "gather1" ≫= next in
        if String.eqb status "gather1" && truthy Digits && truthy gather1Next then
          let nxt := default EmptyString gather1Next in
          let redirectUrl :=
            if String.prefix "http" nxt then nxt
            else (baseUrl env ++ "/action/" ++ nxt)%string in
          (ctx1, [mkElem "Redirect" [] (redirectUrl ++ "?uuid=" ++ uuid)%string])
        else (ctx1, generateXMLResponse env status actionData uuid campaign)
    end.
Proof.
  intros Hnone. unfold handleActionFrom.
  rewrite (getActionMember_entry env campaign status Hnone).
  by destruct (getActionData env campaign status).
Qed.

Lemma handleActionFrom_option (env : Env) (ctx : Ctx) (status uuid campaign : string)
    (Digits : option string) :
  status = "option1" ∨ status = "option2" →
  handleActionFrom env ctx status uuid campaign Digits =
    match getActionData env campaign status with
    | None => (ctx, errorXml)
    | Some actionData =>
        (processActionLogic env ctx status uuid Digits,
         generateXMLResponse env status actionData uuid campaign)
    end.
Proof.
  intros [-> | ->]; (rewrite handleActionFrom_entry by reflexivity);
    by destruct (getActionData env campaign _).
Qed.

(** C8.  A request for [/action/options] that carries digits and the uuid
    of a known call stores [selectedOption] = "1" when the digits are "1"
    and "2" for any other digits, and the rest of the request runs under
    the status [option1], respectively [option2]: the catalog lookup, the
    side effects of [processActionLogic] and the XML are those of that
    status. *)
Theorem options_menu_hoisting (env : Env) (ctx : Ctx) (uuid digits : string)
    (callData : CallStore.CallData) :
  uuid ≠ EmptyString →
  digits ≠ EmptyString →
  calls ctx !! uuid = Some callData →
  let selected := if String.eqb digits "1" then "1" else "2" in
  let status' := if String.eqb digits "1" then "option1" else "option2" in
  let ctx' := updateCall ctx uuid (CallStore.mkUpdates None (Some selected) None) in
  let result := handleAction env ctx "options" (Some uuid) (Some digits) in
  result = handleActionFrom env ctx' status' uuid (CallStore.campaign callData) (Some digits)
  ∧ result =
      match getActionData env (CallStore.campaign callData) status' with
      | None => (ctx', errorXml)
      | Some actionData =>
          (processActionLogic env ctx' status' uuid (Some digits),
           generateXMLResponse env status' actionData uuid (CallStore.campaign callData))
      end
  ∧ CallStore.selectedOption <$> calls (fst result) !! uuid = Some (Some selected).
Proof.
  intros Hu Hd Hcall selected status' ctx' result.
  assert (Hres : result = handleActionFrom env ctx' status' uuid
                            (CallStore.campaign callData) (Some digits)).
  { subst result. unfold handleAction, CallStore.getCall.
    rewrite (truthy_Some uuid Hu). simpl default. rewrite Hcall.
    rewrite (truthy_Some digits Hd). simpl.
    subst ctx' status' selected. by destruct (String.eqb digits "1"). }
  assert (Hst : status' = "option1" ∨ status' = "option2").
  { subst status'. destruct (String.eqb digits "1"); auto. }
  split; [done|]. rewrite Hres, (handleActionFrom_option _ _ _ _ _ _ Hst).
  split; [done|].
  assert (Hc : calls ctx' !! uuid
               = Some (CallStore.merge callData
                         (CallStore.mkUpdates None (Some selected) None))).
  { subst ctx'. simpl. unfold CallStore.updateCall. rewrite Hcall.
    apply lookup_insert_eq. }
  destruct (getActionData env (CallStore.campaign callData) status'); cbn [fst].
  - rewrite (calls_processActionLogic_option _ _ _ _ _ Hst). by rewrite Hc.
  - by rewrite Hc.
Qed.

(** Scenario "menu split": the caller presses 1 at [/action/options]. *)
Lemma options_menu_hoisting_witness :
  let result := handleAction sampleEnv sampleCtx "options" (Some "ch1") (Some "1") in
  result = handleActionFrom sampleEnv
             (updateCall sampleCtx "ch1" (CallStore.mkUpdates None (Some "1") None))
             "option1" "ch1" "venmo_fraude" (Some "1")
  ∧ CallStore.selectedOption <$> calls (fst result) !! "ch1" = Some (Some "1").
Proof.
  destruct (options_menu_hoisting sampleEnv sampleCtx "ch1" "1"
              (CallStore.mkCall "ch1" "pending" "venmo_fraude" 0 None None))
    as (H1 & _ & H3); [discriminate | discriminate | vm_compute; reflexivity |].
  split; [exact H1 | exact H3].
Defined.

Example menu_split_xml :
  snd (handleAction sampleEnv sampleCtx "options" (Some "ch1") (Some "1"))
    = [mkElem "Play" [] "custom/venmo_fraude/option1";
       mkElem "Gather"
         [("input", Str "speech dtmf");
          ("action", Str "http://localhost:3000/action/confirm?uuid=ch1");
          ("timeout", Num 8);
          ("numDigits", Num 6)] EmptyString]
  ∧ snd (handleAction sampleEnv sampleCtx "options" (Some "ch1") (Some "5"))
    = [mkElem "Play" [] "custom/venmo_fraude/option2";
       mkElem "Gather"
         [("input", Str "speech dtmf");
          ("action", Str "http://localhost:3000/action/confirm?uuid=ch1");
          ("timeout", Num 9);
          ("numDigits", Num 0);
          ("finishOnKey", Str "#")] EmptyString].
Proof. vm_compute. split; reflexivity. Qed.

(** C9.  In the XML built by [generateXMLResponse], [confirm] is a single
    [Play] carrying the catalog timeout and no [Gather]; the completed
    steps are a single [Play]; every other status is a [Play] followed by a
    [Gather] whose timeout is the catalog timeout, except for [answer],
    where it is [Math.floor(Math.random() * 6) + 10], computed on doubles:
    the product is rounded to the nearest double before the floor is
    taken.  For every double of [0,1) that [Math.random()] can return the
    timeout is an integer from 10 to 15, and it is at least [10 + j]
    exactly when six times the draw is at least [j] less half the distance
    from [j] to the double before it (2^-54 for 1, 2^-53 for 2, 2^-52 for
    3 and 4, 2^-51 for 5).  So the timeout [10 + j] is chosen on an
    interval of draws, from [j/6] to [(j+1)/6] up to that rounding: six
    intervals of equal length up to 2^-51, and a uniform draw gives a
    timeout that is uniform up to the rounding. *)
Theorem timeout_jitter_only_for_answer (env : Env) (status : string)
    (actionData : ActionData) (uuid campaign : string) :
  let xml := generateXMLResponse env status actionData uuid campaign in
  let randomTimeout := Double.floor (Double.mul (random env) (Double.ofZ 6)) + 10 in
  let product := (6 * Double.toQ (random env))%Q in
  (status = "confirm" →
     xml = [mkElem "Play" [("timeout", Num (timeout actionData))]
                   (buildAudioPath campaign status)]
     ∧ hasTag "Gather" xml = false)
  ∧ (status = "completed" ∨ status = "completed_option1" ∨ status = "completed_option2" →
     xml = [mkElem "Play" [] (buildAudioPath campaign status)]
     ∧ hasTag "Gather" xml = false)
  ∧ (status ≠ "confirm" → status ≠ "completed" → status ≠ "completed_option1" →
     status ≠ "completed_option2" →
     (∃ gatherAttrs,
        xml = [mkElem "Play" [] (buildAudioPath campaign status);
               mkElem "Gather" gatherAttrs EmptyString])
     ∧ attrOf "Gather" "timeout" xml
         = Some (Num (if String.eqb status "answer" then randomTimeout
                      else timeout actionData)))
  ∧ (Double.isDraw (random env) = true →
     10 <= randomTimeout <= 15
     ∧ (11 <= randomTimeout ↔ (1 - (1 # 2 ^ 54) <= product)%Q)
     ∧ (12 <= randomTimeout ↔ (2 - (1 # 2 ^ 53) <= product)%Q)
     ∧ (13 <= randomTimeout ↔ (3 - (1 # 2 ^ 52) <= product)%Q)
     ∧ (14 <= randomTimeout ↔ (4 - (1 # 2 ^ 52) <= product)%Q)
     ∧ (15 <= randomTimeout ↔ (5 - (1 # 2 ^ 51) <= product)%Q)).
Proof.
  intros xml randomTimeout product. subst xml. split; [|split; [|split]].
  - intros ->. by split.
  - intros [-> | [-> | ->]]; by split.
  - intros H1 H2 H3 H4. unfold generateXMLResponse.
    apply String.eqb_neq in H1, H2, H3, H4. rewrite H1, H2, H3, H4.
    cbv zeta. cbn [orb].
    split; [by eexists|].
    unfold attrOf, getRandomizedTimeout. cbn [List.find tag attrs fst snd String.eqb
      Ascii.eqb Bool.eqb fmap option_fmap option_map mbind option_bind].
    by destruct (String.eqb status "answer").
  - intros Hdraw.
    destruct (answer_timeout_of_draw (random env) Hdraw) as (H0 & H1 & H2 & H3 & H4 & H5).
    fold product in H1, H2, H3, H4, H5.
    rewrite <- H1, <- H2, <- H3, <- H4, <- H5. subst randomTimeout.
    revert H0. generalize (Double.floor (Double.mul (random env) (Double.ofZ 6))).
    clear. intros p Hp. lia.
Qed.

(** The [answer] prompt of the sample campaign, with a draw just below
    5/6, and its [confirm] prompt. *)
Lemma timeout_jitter_only_for_answer_witness :
  attrOf "Gather" "timeout"
    (generateXMLResponse sampleEnv "answer"
       (mkActionData "answer.wav" (Some "gather") (Some 1) None None 7) "ch1" "venmo_fraude")
    = Some (Num (Double.floor (Double.mul (random sampleEnv) (Double.ofZ 6)) + 10))
  ∧ 10 <= Double.floor (Double.mul (random sampleEnv) (Double.ofZ 6)) + 10 <= 15
  ∧ (generateXMLResponse sampleEnv "confirm"
        (mkActionData "confirm.wav" None None None None 30) "ch1" "venmo_fraude"
      = [mkElem "Play" [("timeout", Num 30)] "custom/venmo_fraude/confirm"]
     ∧ hasTag "Gather"
         (generateXMLResponse sampleEnv "confirm"
            (mkActionData "confirm.wav" None None None None 30) "ch1" "venmo_fraude")
       = false).
Proof.
  destruct (timeout_jitter_only_for_answer sampleEnv "answer"
              (mkActionData "answer.wav" (Some "gather") (Some 1) None None 7)
              "ch1" "venmo_fraude") as (_ & _ & Hg & Hr).
  destruct (timeout_jitter_only_for_answer sampleEnv "confirm"
              (mkActionData "confirm.wav" None None None None 30)
              "ch1" "venmo_fraude") as (Hc & _).
  split; [|split].
  - apply Hg; discriminate.
  - apply Hr. vm_compute. reflexivity.
  - apply Hc. reflexivity.
Defined.

(** The draw 3752999689475413 / 2^52: six times the draw is less than 5,
    the double it is rounded to is 5, and the timeout is 15. *)
Example timeout_of_a_draw_below_five_sixths :
  let env := sampleEnv in
  Double.isDraw (random env) = true
  ∧ (Double.toQ (random env) == 3752999689475413 # 2 ^ 52)%Q
  ∧ (6 * Double.toQ (random env) < 5)%Q
  ∧ Double.mul (random env) (Double.ofZ 6) = Double.ofZ 5
  ∧ getRandomizedTimeout env "answer" 7 = 15.
Proof. vm_compute. split_and!; reflexivity. Qed.

End ActionControllerFacts.


(** ** TrunkStore: keep-alive, refresh and the invariants of a run *)

Section TrunkStoreRuns.

Import TrunkStore.

(** X1.  [keepAlive] on a known assignment leaves every usage counter and
    every other assignment alone, stamps the assignment with the current
    time, cancels its timer and arms a fresh one for the same assignment;
    the cancelled timer cannot fire any more.  On an unknown id it reports
    not-found and changes nothing. *)
Theorem keepAlive_renews (st : Store) (id : string) (now : Z) :
  (∀ a, assignments st !! id = Some a →
     let st' := fst (keepAlive st id now) in
     (∃ m, snd (keepAlive st id now) = OpOk m)
     ∧ trunkUsageCount st' = trunkUsageCount st
     ∧ trunksByUserToken st' = trunksByUserToken st
     ∧ assignments st'
         = <[id := mkAssignment (a_trunk_id a) (trunk_data a) now (nextTimer st)]>
             (assignments st)
     ∧ timers st' = <[nextTimer st := id]> (delete (timeout_id a) (timers st))
     ∧ (timeout_id a ≠ nextTimer st → fireTimer st' (timeout_id a) = st'))
  ∧ (assignments st !! id = None →
       ∃ m, keepAlive st id now = (st, OpNotFound m)).
Proof.
  split.
  - intros a Ha st'. subst st'. unfold keepAlive. rewrite Ha. simpl.
    split; [by eexists|]. do 4 (split; [done|]).
    intros Hne. unfold fireTimer. simpl.
    rewrite lookup_insert_ne by done. by rewrite lookup_delete_eq.
  - intros Hn. unfold keepAlive. rewrite Hn. by eexists.
Qed.

Lemma keepAlive_renews_witness :
  let st := fst (assignMany 1 "u1" sampleStore) in
  let st' := fst (keepAlive st "A" 77) in
  (∃ m, snd (keepAlive st "A" 77) = OpOk m)
  ∧ trunkUsageCount st' = trunkUsageCount st
  ∧ trunksByUserToken st' = trunksByUserToken st
  ∧ assignments st'
      = <["A" := mkAssignment "custom_A" custom_A 77 (nextTimer st)]> (assignments st)
  ∧ timers st' = <[nextTimer st := "A"]> (delete 0%nat (timers st))
  ∧ (0%nat ≠ nextTimer st → fireTimer st' 0 = st').
Proof.
  intros st.
  apply (proj1 (keepAlive_renews st "A" 77) (mkAssignment "custom_A" custom_A 0 0)).
  vm_compute. reflexivity.
Defined.

(** *** Timers and assignments go together *)

Lemma fireTimer_release (st : Store) (t : nat) (id : string) :
  timersConsistent st →
  timers st !! t = Some id →
  fireTimer st t = fst (releaseAssignment st id).
Proof.
  intros (_ & Hb & _) Ht. unfold fireTimer. rewrite Ht.
  destruct (Hb _ _ Ht) as (a & Ha & <-).
  unfold releaseAssignmentById, releaseAssignment. simpl. rewrite Ha. simpl.
  by rewrite delete_delete_eq.
Qed.

Lemma timersConsistent_assign (st : Store) (userToken : string) (now : Z) (uuid : string) :
  timersConsistent st →
  assignments st !! uuid = None →
  timersConsistent (fst (assignTrunk st userToken now uuid)).
Proof.
  intros (Ha & Hb & Hc) Hfresh. unfold assignTrunk.
  destruct (findAvailableTrunk st userToken) as [trunk|]; simpl; [|done].
  split; [|split]; simpl.
  - intros id a. destruct (decide (id = uuid)) as [->|Hne].
    + rewrite lookup_insert_eq. intros [= <-]. simpl. by rewrite lookup_insert_eq.
    + rewrite lookup_insert_ne by done. intros Hid.
      assert (timeout_id a < nextTimer st)%nat by (apply Hc; rewrite (Ha _ _ Hid); eauto).
      rewrite lookup_insert_ne by lia. by apply Ha.
  - intros t id. destruct (decide (t = nextTimer st)) as [->|Hne].
    + rewrite lookup_insert_eq. intros [= <-]. eexists. by rewrite lookup_insert_eq.
    + rewrite lookup_insert_ne by done. intros Ht.
      destruct (Hb _ _ Ht) as (a & Hid & <-). exists a. split; [|done].
      rewrite lookup_insert_ne; [done|]. intros ->. by rewrite Hfresh in Hid.
  - intros t. destruct (decide (t = nextTimer st)) as [->|Hne]; [lia|].
    rewrite lookup_insert_ne by done. intros Ht. specialize (Hc _ Ht). lia.
Qed.

Lemma timersConsistent_keepAlive (st : Store) (id : string) (now : Z) :
  timersConsistent st → timersConsistent (fst (keepAlive st id now)).
Proof.
  intros (Ha & Hb & Hc). unfold keepAlive.
  destruct (assignments st !! id) as [a|] eqn:Hid; simpl; [|done].
  assert (Hold : (timeout_id a < nextTimer st)%nat).
  { apply Hc. rewrite (Ha _ _ Hid). eauto. }
  split; [|split]; simpl.
  - intros id' a'. destruct (decide (id' = id)) as [->|Hne].
    + rewrite lookup_insert_eq. intros [= <-]. simpl. by rewrite lookup_insert_eq.
    + rewrite lookup_insert_ne by done. intros Hid'.
      assert (timeout_id a' < nextTimer st)%nat by (apply Hc; rewrite (Ha _ _ Hid'); eauto).
      rewrite lookup_insert_ne by lia. rewrite lookup_delete_ne; [by apply Ha|].
      intros Heq. pose proof (Ha _ _ Hid) as H1. pose proof (Ha _ _ Hid') as H2.
      rewrite Heq in H1. congruence.
  - intros t id'. destruct (decide (t = nextTimer st)) as [->|Hne].
    + rewrite lookup_insert_eq. intros [= <-]. eexists. by rewrite lookup_insert_eq.
    + rewrite lookup_insert_ne by done. intros [Hne' Ht]%lookup_delete_Some.
      destruct (Hb _ _ Ht) as (a' & Hid' & <-). exists a'. split; [|done].
      rewrite lookup_insert_ne; [done|]. intros ->. congruence.
  - intros t. destruct (decide (t = nextTimer st)) as [->|Hne]; [lia|].
    rewrite lookup_insert_ne by done. intros [x [_ Ht]%lookup_delete_Some].
    assert (t < nextTimer st)%nat by (apply Hc; eauto). lia.
Qed.

Lemma timersConsistent_release (st : Store) (id : string) :
  timersConsistent st → timersConsistent (fst (releaseAssignment st id)).
Proof.
  intros (Ha & Hb & Hc). unfold releaseAssignment.
  destruct (assignments st !! id) as [a|] eqn:Hid; simpl; [|done].
  assert (Hshape : ∀ u, timersConsistent
                          (mkStore (trunksByUserToken st) u (delete id (assignments st))
                                   (delete (timeout_id a) (timers st)) (nextTimer st))).
  { intros u. split; [|split]; simpl.
    - intros id' a' [Hne Hid']%lookup_delete_Some.
      rewrite lookup_delete_ne; [by apply Ha|].
      intros Heq. pose proof (Ha _ _ Hid) as H1. pose proof (Ha _ _ Hid') as H2.
      rewrite Heq in H1. congruence.
    - intros t id' [Hne Ht]%lookup_delete_Some.
      destruct (Hb _ _ Ht) as (a' & Hid' & <-). exists a'. split; [|done].
      rewrite lookup_delete_ne; [done|]. intros ->. congruence.
    - intros t [x [_ Ht]%lookup_delete_Some]. apply Hc. eauto. }
  destruct (0 <? _)%nat; apply Hshape.
Qed.

Lemma timersConsistent_refresh (st : Store) (data : list (string * list Trunk)) :
  timersConsistent st → timersConsistent (updateTrunkInventory st data).
Proof.
  intros (Ha & Hb & Hc). unfold updateTrunkInventory. split; [|split]; simpl.
  - intros id a. rewrite lookup_fmap. destruct (assignments st !! id) as [a0|] eqn:Hid; [|done].
    simpl. intros [= <-]. specialize (Ha _ _ Hid). by case_match.
  - intros t id Ht. destruct (Hb _ _ Ht) as (a & Hid & <-).
    eexists. rewrite lookup_fmap, Hid. simpl. split; [done|]. by case_match.
  - done.
Qed.

Lemma timersConsistent_applyOp (st : Store) (op : Op) :
  timersConsistent st →
  match op with Assign _ _ uuid => assignments st !! uuid = None | _ => True end →
  timersConsistent (applyOp st op).
Proof.
  intros Hst Hfresh. destruct op as [tok now uuid|id now|id|t|data]; simpl.
  - by apply timersConsistent_assign.
  - by apply timersConsistent_keepAlive.
  - by apply timersConsistent_release.
  - destruct (timers st !! t) as [id|] eqn:Ht.
    + rewrite (fireTimer_release st t id) by done. by apply timersConsistent_release.
    + unfold fireTimer. by rewrite Ht.
  - by apply timersConsistent_refresh.
Qed.

(** X2.  Along every run of the store (assign with a fresh uuid, keep-alive,
    release, TTL expiry, inventory refresh) each live assignment holds the
    handle of an armed timer that releases that very assignment, and each
    armed timer belongs to a live assignment: a release or an expiry leaves
    no timer behind, and no assignment is left without its timer. *)
Theorem timers_match_assignments (st : Store) (ops : list Op) :
  timersConsistent st →
  freshRun st ops →
  timersConsistent (runOps st ops).
Proof.
  revert st. induction ops as [|op ops IH]; intros st Hst Hfresh; simpl; [done|].
  destruct Hfresh as [Hop Hrest]. apply IH; [|done].
  by apply timersConsistent_applyOp.
Qed.

Lemma timers_match_assignments_witness :
  timersConsistent
    (runOps sampleStore
       [Assign "u-1" 0 "A"; Assign "u-1" 1 "B"; KeepAlive "A" 5; TimerDue 1;
        Refresh [("u-1", [custom_V])]; Release "A"]).
Proof.
  apply timers_match_assignments.
  - split; [|split].
    + intros id a H. vm_compute in H. discriminate.
    + intros t id H. change (timers sampleStore) with (∅ : gmap nat string) in H.
      by rewrite lookup_empty in H.
    + intros t [x H]. change (timers sampleStore) with (∅ : gmap nat string) in H.
      by rewrite lookup_empty in H.
  - vm_compute. repeat split.
Defined.

(** *** Counters and live assignments *)

Lemma assignmentsOn_insert_fresh (st : Store) (u : gmap string nat) (tm : gmap nat string)
    (n : nat) (uuid id : string) (a : TrunkAssignment) :
  assignments st !! uuid = None →
  assignmentsOn (mkStore (trunksByUserToken st) u (<[uuid := a]> (assignments st)) tm n) id
    = if decide (a_trunk_id a = id) then S (assignmentsOn st id) else assignmentsOn st id.
Proof.
  intros Hfresh. unfold assignmentsOn. simpl. case_decide as Hid.
  - rewrite map_filter_insert_True by done.
    rewrite map_size_insert_None; [done|].
    apply map_lookup_filter_None. left. done.
  - rewrite map_filter_insert_False by done. by rewrite delete_id.
Qed.

Lemma assignmentsOn_replace (st : Store) (u : gmap string nat) (tm : gmap nat string)
    (n : nat) (uuid id : string) (a a' : TrunkAssignment) :
  assignments st !! uuid = Some a →
  a_trunk_id a' = a_trunk_id a →
  assignmentsOn (mkStore (trunksByUserToken st) u (<[uuid := a']> (assignments st)) tm n) id
    = assignmentsOn st id.
Proof.
  intros Ha Heq. unfold assignmentsOn. simpl.
  destruct (decide (a_trunk_id a = id)) as [Hid|Hid].
  - rewrite map_filter_insert_True by (simpl; congruence).
    apply map_size_insert_Some. exists a.
    apply map_lookup_filter_Some. done.
  - rewrite map_filter_insert_False by (simpl; congruence).
    rewrite map_filter_delete, delete_id; [done|].
    apply map_lookup_filter_None. right. intros x Hx. simpl. congruence.
Qed.

Lemma assignmentsOn_delete (st : Store) (u : gmap string nat) (tm : gmap nat string)
    (n : nat) (uuid id : string) (a : TrunkAssignment) :
  assignments st !! uuid = Some a →
  assignmentsOn (mkStore (trunksByUserToken st) u (delete uuid (assignments st)) tm n) id
    = if decide (a_trunk_id a = id) then Nat.pred (assignmentsOn st id)
      else assignmentsOn st id.
Proof.
  intros Ha. unfold assignmentsOn. simpl. rewrite map_filter_delete.
  case_decide as Hid.
  - rewrite map_size_delete_Some; [lia|]. exists a.
    apply map_lookup_filter_Some. done.
  - rewrite delete_id; [done|].
    apply map_lookup_filter_None. right. intros x Hx. simpl. congruence.
Qed.

Lemma accounted_assign (st : Store) (userToken : string) (now : Z) (uuid : string) :
  accounted st →
  assignments st !! uuid = None →
  accounted (fst (assignTrunk st userToken now uuid)).
Proof.
  intros Hacc Hfresh id. unfold assignTrunk.
  destruct (findAvailableTrunk st userToken) as [trunk|]; simpl; [|by apply Hacc].
  rewrite (assignmentsOn_insert_fresh st) by done. simpl.
  unfold usageOf at 1. simpl. case_decide as Hid.
  - subst. rewrite lookup_insert_eq. simpl. by rewrite Hacc.
  - rewrite lookup_insert_ne by done. apply Hacc.
Qed.

Lemma accounted_keepAlive (st : Store) (id : string) (now : Z) :
  accounted st → accounted (fst (keepAlive st id now)).
Proof.
  intros Hacc k. unfold keepAlive.
  destruct (assignments st !! id) as [a|] eqn:Ha; simpl; [|by apply Hacc].
  rewrite (assignmentsOn_replace st _ _ _ _ _ a) by done. apply Hacc.
Qed.

Lemma accounted_release (st : Store) (id : string) :
  accounted st → accounted (fst (releaseAssignment st id)).
Proof.
  intros Hacc k. unfold releaseAssignment.
  destruct (assignments st !! id) as [a|] eqn:Ha; simpl; [|by apply Hacc].
  assert (Hpos : (0 < usageOf st (a_trunk_id a))%nat).
  { rewrite Hacc. unfold assignmentsOn.
    assert (Hin : filter (fun kv => a_trunk_id (snd kv) = a_trunk_id a) (assignments st)
                    !! id = Some a) by (by apply map_lookup_filter_Some).
    destruct (decide (size (filter (fun kv : string * TrunkAssignment =>
                                      a_trunk_id (snd kv) = a_trunk_id a)
                                   (assignments st)) = 0%nat)) as [Hz|]; [|lia].
    apply map_size_empty_inv in Hz. rewrite Hz in Hin. by rewrite lookup_empty in Hin. }
  change (usageOf (clearTimeout (timeout_id a) st) (a_trunk_id a))
    with (usageOf st (a_trunk_id a)).
  apply Nat.ltb_lt in Hpos as Hb. rewrite Hb.
  rewrite (assignmentsOn_delete st _ _ _ _ _ a) by done.
  unfold usageOf at 1. simpl. case_decide as Hk.
  - subst. rewrite lookup_insert_eq. simpl. rewrite Hacc. lia.
  - rewrite lookup_insert_ne by done. apply Hacc.
Qed.

Lemma accounted_fireTimer (st : Store) (t : nat) :
  accounted st → accounted (fireTimer st t).
Proof.
  intros Hacc. unfold fireTimer. destruct (timers st !! t) as [id|]; [|done].
  change (releaseAssignmentById ?x ?y) with (releaseAssignment x y).
  by apply accounted_release.
Qed.

(** X3.  As long as the inventory is not refreshed, each usage counter
    equals the number of live assignments of its trunk: from a store where
    this holds, every run of assign (with a fresh uuid), keep-alive, release
    and TTL expiry keeps it.  A store just loaded with an inventory is such
    a store. *)
Theorem usage_counts_live_assignments (st : Store) (ops : list Op) :
  (accounted st →
   freshRun st ops →
   Forall (fun op => isRefresh op = false) ops →
   accounted (runOps st ops))
  ∧ ∀ data, accounted (updateTrunkInventory empty data).
Proof.
  split.
  - revert st. induction ops as [|op ops IH]; intros st Hacc Hfresh Hno; simpl; [done|].
    destruct Hfresh as [Hop Hrest]. inversion Hno as [|? ? Hop' Hno']; subst.
    apply IH; [|done|done].
    destruct op as [tok now uuid|id now|id|t|data]; simpl; try done.
    + by apply accounted_assign.
    + by apply accounted_keepAlive.
    + by apply accounted_release.
    + by apply accounted_fireTimer.
  - intros data id. unfold assignmentsOn, updateTrunkInventory. simpl.
    rewrite fmap_empty, map_filter_empty, map_size_empty.
    unfold usageOf. simpl.
    destruct (filter _ _ !! id) as [n|] eqn:Hn; [|done]. simpl.
    apply map_lookup_filter_Some in Hn as [Hn _].
    revert Hn. generalize (concat (map snd data)). intros l.
    assert (Hgen : ∀ (m : gmap string nat),
               (∀ k v, m !! k = Some v → v = 0%nat) →
               ∀ k v, foldl (fun m t => match m !! trunk_id t with
                                         | Some _ => m
                                         | None => <[trunk_id t := 0%nat]> m
                                         end) m l !! k = Some v → v = 0%nat).
    { induction l as [|t l IHl]; intros m Hm k v; simpl; [by apply Hm|].
      apply IHl. destruct (m !! trunk_id t) eqn:Ht; [done|].
      intros k' v'. destruct (decide (k' = trunk_id t)) as [->|Hne].
      - rewrite lookup_insert_eq. by intros [= <-].
      - rewrite lookup_insert_ne by done. apply Hm. }
    apply Hgen. intros k v Hk. by rewrite lookup_empty in Hk.
Qed.

Lemma usage_counts_live_assignments_witness :
  accounted
    (runOps sampleStore
       [Assign "u-1" 0 "A"; Assign "u-1" 1 "B"; KeepAlive "A" 5; TimerDue 1; Release "A"]).
Proof.
  apply (proj1 (usage_counts_live_assignments sampleStore _)).
  - apply (proj2 (usage_counts_live_assignments sampleStore [])).
  - vm_compute. repeat split.
  - repeat constructor.
Defined.

(** *** The inventory refresh *)

Lemma foldl_counters (l : list Trunk) (m : gmap string nat) (k : string) :
  foldl (fun m t => match m !! trunk_id t with
                    | Some _ => m
                    | None => <[trunk_id t := 0%nat]> m
                    end) m l !! k
  = match m !! k with
    | Some n => Some n
    | None => if decide (k ∈ map trunk_id l) then Some 0%nat else None
    end.
Proof.
  revert m. induction l as [|t l IH]; intros m; simpl.
  - by destruct (m !! k).
  - rewrite IH. destruct (m !! trunk_id t) as [n|] eqn:Ht.
    + destruct (m !! k) as [n'|] eqn:Hk; [done|].
      assert (Hne : k ≠ trunk_id t) by congruence.
      apply decide_ext. rewrite elem_of_cons.
      split; [by right | intros [Heq|Hin]; [by destruct Hne | exact Hin]].
    + destruct (decide (k = trunk_id t)) as [->|Hne].
      * rewrite lookup_insert_eq, Ht. rewrite decide_True; [done|]. apply elem_of_cons. by left.
      * rewrite lookup_insert_ne by done. destruct (m !! k); [done|].
        apply decide_ext. rewrite elem_of_cons.
      split; [by right | intros [Heq|Hin]; [by destruct Hne | exact Hin]].
Qed.

Lemma foldl_byId (l : list Trunk) (m : gmap string Trunk) (k : string) :
  (k ∉ map trunk_id l → foldl (fun m t => <[trunk_id t := t]> m) m l !! k = m !! k)
  ∧ (k ∈ map trunk_id l →
       ∃ t, foldl (fun m t => <[trunk_id t := t]> m) m l !! k = Some t
            ∧ trunk_id t = k ∧ t ∈ l).
Proof.
  revert m. induction l as [|t l IH]; intros m; simpl.
  - split; [done|]. intros H. by apply elem_of_nil in H.
  - destruct (IH (<[trunk_id t := t]> m)) as [IH1 IH2]. split.
    + intros Hk. rewrite not_elem_of_cons in Hk. destruct Hk as [Hne Hk].
      rewrite IH1 by done. by rewrite lookup_insert_ne.
    + intros Hk. destruct (decide (k ∈ map trunk_id l)) as [Hin|Hnin].
      * destruct (IH2 Hin) as (t' & H1 & H2 & H3). exists t'.
        split; [done|]. split; [done|]. apply elem_of_cons. by right.
      * apply elem_of_cons in Hk as [->|Hk]; [|done].
        rewrite IH1 by done. rewrite lookup_insert_eq. exists t.
        split; [done|]. split; [done|]. apply elem_of_cons. by left.
Qed.

(** X4.  An inventory refresh keeps the counter of every trunk id that is
    still listed (a newly listed id starts at 0) and removes the counter of
    every id that is not; it leaves the timers and the set of assignments as
    they are.  An assignment keeps its trunk id, its timer and its time; its
    trunk snapshot is replaced by a listed record of the same id when the id
    is still listed, and is left as it was when the id has gone. *)
Theorem refresh_effects (st : Store) (data : list (string * list Trunk)) :
  let st' := updateTrunkInventory st data in
  (∀ id, id ∈ listedIds data → trunkUsageCount st' !! id = Some (usageOf st id))
  ∧ (∀ id, id ∉ listedIds data → trunkUsageCount st' !! id = None)
  ∧ timers st' = timers st
  ∧ nextTimer st' = nextTimer st
  ∧ (∀ aid, assignments st !! aid = None → assignments st' !! aid = None)
  ∧ (∀ aid a,
       assignments st !! aid = Some a →
       ∃ a', assignments st' !! aid = Some a'
             ∧ a_trunk_id a' = a_trunk_id a
             ∧ timeout_id a' = timeout_id a
             ∧ assigned_at a' = assigned_at a
             ∧ (a_trunk_id a ∉ listedIds data → a' = a)
             ∧ (a_trunk_id a ∈ listedIds data →
                  trunk_id (trunk_data a') = a_trunk_id a
                  ∧ trunk_data a' ∈ concat (map snd data))).
Proof.
  intros st'. subst st'. unfold updateTrunkInventory, listedIds. simpl.
  split; [|split; [|split; [|split; [|split]]]]; try done.
  - intros id Hid. apply map_lookup_filter_Some. split.
    + rewrite foldl_counters. unfold usageOf.
      destruct (trunkUsageCount st !! id); [done|]. by rewrite decide_True.
    + simpl. by apply elem_of_list_to_set.
  - intros id Hid. apply map_lookup_filter_None. right. intros x _. simpl.
    by rewrite elem_of_list_to_set.
  - intros aid Ha. by rewrite lookup_fmap, Ha.
  - intros aid a Ha. rewrite lookup_fmap, Ha. simpl. eexists. split; [done|].
    destruct (foldl_byId (concat (map snd data)) ∅ (a_trunk_id a)) as [H1 H2].
    destruct (decide (a_trunk_id a ∈ map trunk_id (concat (map snd data)))) as [Hin|Hnin].
    + destruct (H2 Hin) as (t & Ht & Hid & Hmem). rewrite Ht. simpl.
      repeat split; try done.
    + rewrite (H1 Hnin), lookup_empty. repeat split; try done.
Qed.

Lemma refresh_effects_witness :
  let st := fst (assignMany 2 "u1" sampleStore) in
  let st' := updateTrunkInventory st [("u-2", [custom_V])] in
  trunkUsageCount st' !! "custom_V" = Some (usageOf st "custom_V")
  ∧ trunkUsageCount st' !! "custom_A" = None.
Proof.
  intros st.
  destruct (refresh_effects st [("u-2", [custom_V])]) as (H1 & H2 & _).
  split.
  - apply H1. vm_compute. apply list_elem_of_here.
  - apply H2. vm_compute. intros H. apply list_elem_of_singleton in H. discriminate.
Defined.

Lemma removeDashes_idemp (s : string) : removeDashes (removeDashes s) = removeDashes s.
Proof.
  induction s as [|c s IH]; simpl; [done|].
  destruct (Ascii.eqb c "-") eqn:Hc; [done|]. simpl. by rewrite Hc, IH.
Qed.

Lemma removeDashes_app (a b : string) :
  removeDashes (a ++ b)%string = (removeDashes a ++ removeDashes b)%string.
Proof.
  induction a as [|c a IH]; simpl; [done|].
  destruct (Ascii.eqb c "-"); simpl; by rewrite IH.
Qed.

Lemma foldl_byUser (data : list (string * list Trunk)) (m : gmap string (list Trunk))
    (k : string) :
  foldl (fun m g => <[removeDashes (fst g) := snd g]> m) m data !! k
  = match lastGroup k data with
    | Some trunks => Some trunks
    | None => m !! k
    end.
Proof.
  revert m. induction data as [|g data IH]; intros m; simpl; [done|].
  rewrite IH. destruct (lastGroup k data); [done|].
  destruct (String.eqb (removeDashes (fst g)) k) eqn:Hk.
  - apply String.eqb_eq in Hk as <-. by rewrite lookup_insert_eq.
  - apply String.eqb_neq in Hk. by rewrite lookup_insert_ne.
Qed.

(** X5.  After an inventory refresh the trunks of a user token are those of
    the last group of the new inventory whose token is the same once the
    dashes are removed, and none when there is no such group: nothing of the
    old inventory is left.  Dashes in a token never matter: a token, the
    token with a dash put anywhere, and the token without its dashes get the
    same trunks and the same assignment. *)
Theorem refresh_replaces_inventory (st : Store) (data : list (string * list Trunk))
    (userToken : string) :
  getTrunksForUser (updateTrunkInventory st data) userToken
    = default [] (lastGroup (removeDashes userToken) data)
  ∧ (∀ a b, getTrunksForUser st (a ++ "-" ++ b)%string = getTrunksForUser st (a ++ b)%string)
  ∧ getTrunksForUser st (removeDashes userToken) = getTrunksForUser st userToken
  ∧ (∀ now uuid,
       assignTrunk st (removeDashes userToken) now uuid = assignTrunk st userToken now uuid).
Proof.
  split; [|split; [|split]].
  - unfold getTrunksForUser, updateTrunkInventory. simpl. rewrite foldl_byUser.
    destruct (lastGroup _ data); [done|]. by rewrite lookup_empty.
  - intros a b. unfold getTrunksForUser. by rewrite !removeDashes_app.
  - unfold getTrunksForUser. by rewrite removeDashes_idemp.
  - intros now uuid. unfold assignTrunk, findAvailableTrunk, getTrunksForUser.
    by rewrite removeDashes_idemp.
Qed.

End TrunkStoreRuns.


(** ** QueueManager: bounds, order and isolation *)

Section QueueManagerOrder.

Import QueueManager.

Lemma bounded_step (st : State) (i : Input) : bounded st → bounded (step st i).
Proof.
  intros Hb t. destruct i as [tr el|dt|tr|tr ok]; simpl.
  - unfold enqueue.
    assert (H1 : ∀ k, queueOf match queues st !! tr with
                               | Some _ => st
                               | None => setQueue tr [] st
                               end k = queueOf st k).
    { intros k. destruct (queues st !! tr) eqn:Hq; [done|]. unfold queueOf. simpl.
      destruct (decide (k = tr)) as [->|Hne].
      - by rewrite lookup_insert_eq, Hq.
      - by rewrite lookup_insert_ne. }
    revert H1. generalize (match queues st !! tr with
                           | Some _ => st
                           | None => setQueue tr [] st
                           end). intros st1 H1.
    destruct (QUEUE_LIMIT <=? length (queueOf st1 tr))%nat eqn:Hfull; simpl.
    + rewrite H1. apply Hb.
    + apply Nat.leb_gt in Hfull.
      assert (H2 : (length (queueOf (setQueue tr (queueOf st1 tr ++ [el]) st1) t)
                    <= QUEUE_LIMIT)%nat).
      { unfold queueOf at 1. simpl. destruct (decide (t = tr)) as [->|Hne].
        - rewrite lookup_insert_eq. simpl. rewrite length_app. simpl. lia.
        - rewrite lookup_insert_ne by done. fold (queueOf st1 t). rewrite H1. apply Hb. }
      case_decide; [done|]. unfold queueOf. rewrite queues_processQueue. apply H2.
  - apply Hb.
  - unfold wake. destruct (suspended st !! tr) as [[due|el]|]; try apply Hb.
    destruct (due <=? clock st)%Z; [|apply Hb].
    unfold queueOf. rewrite queues_callHead. apply Hb.
  - unfold settle. destruct (suspended st !! tr) as [[due|el]|]; try apply Hb.
    unfold queueOf at 1. rewrite queues_loopHead. simpl.
    destruct (decide (t = tr)) as [->|Hne].
    + rewrite lookup_insert_eq. simpl. specialize (Hb tr).
      unfold queueOf at 1. simpl. fold (queueOf st tr).
      destruct (queueOf st tr); simpl in *; lia.
    + rewrite lookup_insert_ne by done. apply Hb.
Qed.

(** X6.  Whatever is submitted and however slowly the jobs settle, no
    trunk's queue ever holds more than [QUEUE_LIMIT] = 50 jobs, the job in
    flight included. *)
Theorem queue_never_exceeds_limit (t0 : Z) (inputs : list Input) (trunkId : string) :
  (length (queueOf (run (init t0) inputs) trunkId) <= 50)%nat.
Proof.
  assert (H : ∀ st, bounded st → bounded (run st inputs)).
  { induction inputs as [|i inputs IH]; intros st Hst; simpl; [done|].
    apply IH. by apply bounded_step. }
  apply H. intros t. unfold queueOf. simpl. rewrite lookup_empty. simpl. lia.
Qed.

(** *** One coroutine per non-empty queue *)

Lemma queueOf_setQueue_eq (st : State) (tr : string) (q : list QueueElement) :
  queueOf (setQueue tr q st) tr = q.
Proof. unfold queueOf. simpl. by rewrite lookup_insert_eq. Qed.

Lemma queueOf_setQueue_ne (st : State) (tr t : string) (q : list QueueElement) :
  t ≠ tr → queueOf (setQueue tr q st) t = queueOf st t.
Proof. intros Hne. unfold queueOf. simpl. by rewrite lookup_insert_ne. Qed.

Lemma draining_finish (st : State) (tr : string) :
  (∀ t, t ≠ tr → draining st t) →
  queueOf st tr = [] →
  ∀ t, draining (finish tr st) t.
Proof.
  intros Hoth Hq t. destruct (decide (t = tr)) as [->|Hne].
  - unfold draining. simpl. rewrite lookup_delete_eq.
    change (queueOf (finish tr st) tr) with (queueOf st tr). rewrite Hq.
    rewrite elem_of_difference, elem_of_singleton.
    split; [|split]; [split; [by intros [_ []] | done] | split; [by intros [_ []] | by intros []] |done].
  - destruct (Hoth t Hne) as (H1 & H2 & H3). unfold draining. simpl.
    rewrite lookup_delete_ne by done.
    change (queueOf (finish tr st) t) with (queueOf st t).
    rewrite elem_of_difference, elem_of_singleton.
    split; [|split]; [|rewrite <- H2|done]; tauto.
Qed.

Lemma draining_suspend_other (st : State) (tr t : string) (a : Await) :
  t ≠ tr → draining st t → draining (suspend tr a st) t.
Proof.
  intros Hne H. unfold draining. simpl. by rewrite lookup_insert_ne.
Qed.

Lemma draining_callHead (st : State) (tr : string) :
  (∀ t, t ≠ tr → draining st t) →
  tr ∈ processing st →
  ∀ t, draining (callHead st tr) t.
Proof.
  intros Hoth Hproc. unfold callHead.
  destruct (queueOf st tr) as [|el rest] eqn:Hq; [by apply draining_finish|].
  intros t. destruct (decide (t = tr)) as [->|Hne].
  - unfold draining. simpl. rewrite lookup_insert_eq.
    change (queueOf (suspend tr (AwaitCall el) (emit (Started tr el (clock st)) st)) tr)
      with (queueOf st tr). rewrite Hq.
    split; [|split]; [done|done|]. intros el' [= <-]. by exists rest.
  - apply draining_suspend_other; [done|]. by apply (Hoth t).
Qed.

Lemma draining_loopHead (st : State) (tr : string) :
  (∀ t, t ≠ tr → draining st t) →
  tr ∈ processing st →
  ∀ t, draining (loopHead st tr) t.
Proof.
  intros Hoth Hproc. unfold loopHead.
  destruct (queueOf st tr) as [|el rest] eqn:Hq; [by apply draining_finish|].
  case_match; [|by apply draining_callHead].
  intros t. destruct (decide (t = tr)) as [->|Hne].
  - unfold draining. simpl. rewrite lookup_insert_eq.
    match goal with |- context [queueOf ?x tr] => change (queueOf x tr) with (queueOf st tr) end.
    rewrite Hq. split; [|split]; done.
  - apply draining_suspend_other; [done|]. by apply (Hoth t).
Qed.

Lemma draining_step (st : State) (i : Input) :
  (∀ t, draining st t) → ∀ t, draining (step st i) t.
Proof.
  intros HD. destruct i as [tr el|dt|tr|tr ok]; simpl.
  - unfold enqueue.
    assert (H1 : ∀ t, draining match queues st !! tr with
                                | Some _ => st
                                | None => setQueue tr [] st
                                end t).
    { intros t. destruct (queues st !! tr) eqn:Hq; [done|].
      assert (Hsame : queueOf (setQueue tr [] st) t = queueOf st t).
      { unfold queueOf. simpl. destruct (decide (t = tr)) as [->|Hne].
        - by rewrite lookup_insert_eq, Hq.
        - by rewrite lookup_insert_ne. }
      unfold draining. rewrite Hsame. apply HD. }
    revert H1. generalize (match queues st !! tr with
                           | Some _ => st
                           | None => setQueue tr [] st
                           end). intros st1 H1.
    destruct (QUEUE_LIMIT <=? length (queueOf st1 tr))%nat; simpl; [done|].
    assert (Hoth : ∀ t, t ≠ tr →
              draining (setQueue tr (queueOf st1 tr ++ [el]) st1) t).
    { intros t Hne. unfold draining. rewrite queueOf_setQueue_ne by done. apply H1. }
    case_decide as Hproc.
    + intros t. destruct (decide (t = tr)) as [->|Hne]; [|by apply Hoth].
      destruct (H1 tr) as (Ha & Hb & Hc).
      unfold draining. rewrite queueOf_setQueue_eq. simpl.
      split; [|split]; [|done|].
      * split; [intros _ | by intros _]. by destruct (queueOf st1 tr).
      * intros el' Hel'. destruct (Hc _ Hel') as [rest ->]. by eexists.
    + unfold processQueue. rewrite decide_False by done.
      apply draining_loopHead; simpl.
      * intros t Hne. destruct (Hoth t Hne) as (Ha & Hb & Hc).
        unfold draining. simpl.
        split; [|split]; [|clear Ha|done].
        -- rewrite elem_of_union, elem_of_singleton. simpl in Ha. tauto.
        -- rewrite elem_of_union, elem_of_singleton. simpl in Hb. tauto.
      * apply elem_of_union. left. by apply elem_of_singleton.
  - done.
  - unfold wake. destruct (suspended st !! tr) as [[due|el]|] eqn:Hs; try done.
    destruct (due <=? clock st)%Z; [|done].
    apply draining_callHead; [by intros t _|]. apply (HD tr). by rewrite Hs.
  - unfold settle. destruct (suspended st !! tr) as [[due|el]|] eqn:Hs; try done.
    apply draining_loopHead; simpl.
    + intros t Hne. unfold draining.
      match goal with
      | |- context [queueOf (setQueue tr ?q ?x) t] =>
          rewrite (queueOf_setQueue_ne x tr t q) by done
      end.
      apply HD.
    + apply (HD tr). by rewrite Hs.
Qed.

Lemma draining_run (inputs : list Input) (st : State) :
  (∀ t, draining st t) → ∀ t, draining (run st inputs) t.
Proof.
  revert st. induction inputs as [|i inputs IH]; intros st HD; simpl; [done|].
  apply IH. by apply draining_step.
Qed.

Lemma draining_init (t0 : Z) (t : string) : draining (init t0) t.
Proof.
  unfold draining, queueOf. simpl. rewrite !lookup_empty. simpl.
  split; [|split]; [split; [by intros ?%elem_of_empty | done]
                   |split; [by intros ?%elem_of_empty | by intros []]|done].
Qed.

(** X7.  At every point of every run, a trunk has a [processQueue] coroutine
    exactly when its queue is not empty, so no accepted job is left without
    a coroutine to run it and no coroutine lingers on an empty queue; the
    coroutine is suspended at a [sleep] or at a job, and a job in flight is
    the head of the queue (it is removed only when it settles). *)
Theorem coroutine_iff_pending_jobs (t0 : Z) (inputs : list Input) (trunkId : string) :
  let st := run (init t0) inputs in
  (trunkId ∈ processing st ↔ queueOf st trunkId ≠ [])
  ∧ (trunkId ∈ processing st ↔ is_Some (suspended st !! trunkId))
  ∧ ∀ element, suspended st !! trunkId = Some (AwaitCall element) →
               ∃ rest, queueOf st trunkId = element :: rest.
Proof. apply draining_run, draining_init. Qed.

Lemma coroutine_iff_pending_jobs_witness :
  ∃ rest, queueOf (run (init 5000) [Enqueue "custom_A" job1; Enqueue "custom_A" job2])
            "custom_A" = job1 :: rest.
Proof.
  apply (coroutine_iff_pending_jobs 5000
           [Enqueue "custom_A" job1; Enqueue "custom_A" job2] "custom_A").
  vm_compute. reflexivity.
Defined.

(** *** Jobs start in the order they were accepted *)

Lemma fifo_callHead (st : State) (tr t : string) :
  startedOn t (log (callHead st tr)) ++ waiting (callHead st tr) t
  = startedOn t (log st) ++ (if decide (t = tr) then queueOf st tr else waiting st t).
Proof.
  unfold callHead. destruct (queueOf st tr) as [|el rest] eqn:Hq.
  - f_equal. unfold waiting. simpl.
    change (queueOf (finish tr st) t) with (queueOf st t).
    case_decide as Ht.
    + subst. by rewrite lookup_delete_eq.
    + by rewrite lookup_delete_ne.
  - unfold waiting. simpl.
    match goal with |- context [queueOf ?x t] => change (queueOf x t) with (queueOf st t) end.
    case_decide as Ht.
    + subst. rewrite String.eqb_refl, lookup_insert_eq, Hq. simpl.
      by rewrite <- app_assoc.
    + rewrite lookup_insert_ne by done.
      assert (Hb : String.eqb tr t = false) by (apply String.eqb_neq; congruence).
      by rewrite Hb.
Qed.

Lemma fifo_loopHead (st : State) (tr t : string) :
  startedOn t (log (loopHead st tr)) ++ waiting (loopHead st tr) t
  = startedOn t (log st) ++ (if decide (t = tr) then queueOf st tr else waiting st t).
Proof.
  unfold loopHead. destruct (queueOf st tr) as [|el rest] eqn:Hq.
  - f_equal. unfold waiting. simpl.
    change (queueOf (finish tr st) t) with (queueOf st t).
    case_decide as Ht.
    + subst. by rewrite lookup_delete_eq.
    + by rewrite lookup_delete_ne.
  - case_match.
    + f_equal. unfold waiting. simpl.
      match goal with |- context [queueOf ?x t] => change (queueOf x t) with (queueOf st t) end.
      case_decide as Ht.
      * subst. by rewrite lookup_insert_eq.
      * by rewrite lookup_insert_ne.
    + rewrite fifo_callHead. by rewrite Hq.
Qed.

Lemma fifo_step (st : State) (i : Input) (t : string) :
  (∀ k, draining st k) →
  startedOn t (log (step st i)) ++ waiting (step st i) t
  = startedOn t (log st) ++ waiting st t ++ acceptedOn t st [i].
Proof.
  intros HD. destruct i as [tr el|dt|tr|tr ok]; simpl.
  - unfold enqueue.
    assert (H1 : ∀ k, queueOf match queues st !! tr with
                               | Some _ => st
                               | None => setQueue tr [] st
                               end k = queueOf st k).
    { intros k. destruct (queues st !! tr) eqn:Hq; [done|]. unfold queueOf. simpl.
      destruct (decide (k = tr)) as [->|Hne].
      - by rewrite lookup_insert_eq, Hq.
      - by rewrite lookup_insert_ne. }
    assert (H2 : suspended match queues st !! tr with
                           | Some _ => st
                           | None => setQueue tr [] st
                           end = suspended st
                 ∧ processing match queues st !! tr with
                              | Some _ => st
                              | None => setQueue tr [] st
                              end = processing st
                 ∧ log match queues st !! tr with
                       | Some _ => st
                       | None => setQueue tr [] st
                       end = log st) by (by destruct (queues st !! tr)).
    revert H1 H2. generalize (match queues st !! tr with
                              | Some _ => st
                              | None => setQueue tr [] st
                              end). intros st1 H1 (Hs & Hp & Hl).
    destruct (QUEUE_LIMIT <=? length (queueOf st1 tr))%nat; simpl.
    + unfold waiting. rewrite Hl, Hs, H1. by rewrite app_nil_r.
    + rewrite app_nil_r. case_decide as Hproc.
      * simpl. rewrite Hl. f_equal. unfold waiting. simpl. rewrite Hs.
        destruct (decide (t = tr)) as [->|Hne].
        -- rewrite queueOf_setQueue_eq, String.eqb_refl, H1.
           destruct (suspended st !! tr) as [[due|el']|] eqn:Hsus; try done.
           destruct (HD tr) as (_ & _ & Hhead). destruct (Hhead _ Hsus) as [rest ->]. done.
        -- rewrite queueOf_setQueue_ne, H1 by done.
           assert (Hb : String.eqb tr t = false) by (apply String.eqb_neq; congruence).
           by rewrite Hb, app_nil_r.
      * unfold processQueue. rewrite decide_False by done. rewrite fifo_loopHead. simpl.
        rewrite Hl. f_equal. case_decide as Ht.
        -- subst. unfold queueOf at 1. simpl. rewrite lookup_insert_eq. simpl.
           rewrite String.eqb_refl, H1.
           unfold waiting. destruct (HD tr) as (_ & Hb & _).
           destruct (suspended st !! tr) as [a|] eqn:Hsus; [|done].
           exfalso. apply Hproc. simpl. rewrite Hp. apply Hb. eauto.
        -- assert (Hb : String.eqb tr t = false) by (apply String.eqb_neq; congruence).
           rewrite Hb, app_nil_r. unfold waiting, queueOf. simpl.
           rewrite Hs, lookup_insert_ne by congruence.
           fold (queueOf st1 t). fold (queueOf st t). by rewrite H1.
  - by rewrite !app_nil_r.
  - rewrite !app_nil_r. unfold wake.
    destruct (suspended st !! tr) as [[due|el]|] eqn:Hs; try done.
    destruct (due <=? clock st)%Z; [|done].
    rewrite fifo_callHead. f_equal. case_decide as Ht; [|done].
    subst. unfold waiting. by rewrite Hs.
  - rewrite !app_nil_r. unfold settle.
    destruct (suspended st !! tr) as [[due|el]|] eqn:Hs; try done.
    rewrite fifo_loopHead. simpl. f_equal. case_decide as Ht.
    + subst. rewrite queueOf_setQueue_eq. unfold waiting. by rewrite Hs.
    + unfold waiting. simpl.
      match goal with
      | |- context [queueOf (setQueue tr ?q ?x) t] =>
          rewrite (queueOf_setQueue_ne x tr t q) by congruence
      end.
      done.
Qed.

Lemma fifo_run (inputs : list Input) (st : State) (t : string) :
  (∀ k, draining st k) →
  startedOn t (log (run st inputs)) ++ waiting (run st inputs) t
  = startedOn t (log st) ++ waiting st t ++ acceptedOn t st inputs.
Proof.
  revert st. induction inputs as [|i inputs IH]; intros st HD.
  - simpl. by rewrite app_nil_r.
  - change (run st (i :: inputs)) with (run (step st i) inputs).
    rewrite IH by (by apply draining_step).
    rewrite app_assoc, (fifo_step st i t HD). simpl acceptedOn.
    rewrite !app_nil_r, <- !app_assoc. done.
Qed.

(** X8.  On each trunk the jobs start in the order in which [enqueue]
    accepted them, none skipped and none twice: at every point of every run
    the jobs started so far, followed by the jobs still waiting in the
    queue, are exactly the jobs accepted so far, in order.  A rejected
    submission never runs. *)
Theorem jobs_start_in_accept_order (t0 : Z) (inputs : list Input) (trunkId : string) :
  startedOn trunkId (log (run (init t0) inputs))
    ++ waiting (run (init t0) inputs) trunkId
  = acceptedOn trunkId (init t0) inputs.
Proof.
  rewrite fifo_run by apply draining_init.
  unfold waiting, queueOf. simpl. by rewrite !lookup_empty.
Qed.

Example jobs_start_in_accept_order_sample :
  startedOn "custom_A" (log (run (init 1700000000000) sampleInputs)) = [job1; job2]
  ∧ acceptedOn "custom_A" (init 1700000000000) sampleInputs = [job1; job2].
Proof. vm_compute. split; reflexivity. Qed.

(** *** Trunks do not wait for one another *)

Lemma sameFor_refl (t : string) (st : State) : sameFor t st st.
Proof. by repeat split. Qed.

Lemma sameFor_trans (t : string) (st1 st2 st3 : State) :
  sameFor t st1 st2 → sameFor t st2 st3 → sameFor t st1 st3.
Proof.
  intros (A1 & A2 & A3 & A4 & A5) (B1 & B2 & B3 & B4 & B5).
  split; [congruence|]. split; [congruence|]. split; [congruence|].
  split; [tauto | congruence].
Qed.

Lemma sameFor_finish (st : State) (tr t : string) : t ≠ tr → sameFor t st (finish tr st).
Proof.
  intros Hne. split; [done|]. split; [by simpl; rewrite lookup_delete_ne|].
  split; [done|]. split; [|done]. simpl.
  rewrite elem_of_difference, elem_of_singleton. tauto.
Qed.

Lemma sameFor_callHead (st : State) (tr t : string) :
  t ≠ tr → sameFor t st (callHead st tr).
Proof.
  intros Hne. unfold callHead.
  destruct (queueOf st tr) as [|el rest]; [by apply sameFor_finish|].
  split; [done|]. split; [by simpl; rewrite lookup_insert_ne|].
  split; [done|]. split; [done|]. simpl.
  assert (Hb : String.eqb tr t = false) by (apply String.eqb_neq; congruence).
  by rewrite Hb.
Qed.

Lemma sameFor_loopHead (st : State) (tr t : string) :
  t ≠ tr → sameFor t st (loopHead st tr).
Proof.
  intros Hne. unfold loopHead.
  destruct (queueOf st tr) as [|el rest]; [by apply sameFor_finish|].
  case_match; [|by apply sameFor_callHead].
  split; [done|]. split; [by simpl; rewrite lookup_insert_ne|]. by repeat split.
Qed.

Lemma sameFor_step (st : State) (i : Input) (t : string) :
  inputTrunk i ≠ Some t → sameFor t st (step st i).
Proof.
  intros Hi. destruct i as [tr el|dt|tr|tr ok]; simpl in *.
  - assert (Hne : t ≠ tr) by congruence. unfold enqueue.
    assert (H1 : sameFor t st match queues st !! tr with
                              | Some _ => st
                              | None => setQueue tr [] st
                              end).
    { destruct (queues st !! tr); [apply sameFor_refl|].
      split; [by apply queueOf_setQueue_ne | by repeat split]. }
    revert H1. generalize (match queues st !! tr with
                           | Some _ => st
                           | None => setQueue tr [] st
                           end). intros st1 H1.
    destruct (QUEUE_LIMIT <=? length (queueOf st1 tr))%nat; simpl; [done|].
    assert (H2 : sameFor t st1 (setQueue tr (queueOf st1 tr ++ [el]) st1)).
    { split; [by apply queueOf_setQueue_ne | by repeat split]. }
    apply (sameFor_trans t st st1); [done|].
    case_decide as Hproc; [done|].
    apply (sameFor_trans t _ _ _ H2). unfold processQueue. rewrite decide_False by done.
    eapply sameFor_trans; [|by apply sameFor_loopHead].
    split; [done|]. split; [done|]. split; [done|]. split; [|done]. simpl.
    rewrite elem_of_union, elem_of_singleton. tauto.
  - by repeat split.
  - assert (Hne : t ≠ tr) by congruence. unfold wake.
    destruct (suspended st !! tr) as [[due|el]|]; try apply sameFor_refl.
    destruct (due <=? clock st)%Z; [|apply sameFor_refl]. by apply sameFor_callHead.
  - assert (Hne : t ≠ tr) by congruence. unfold settle.
    destruct (suspended st !! tr) as [[due|el]|]; try apply sameFor_refl.
    eapply sameFor_trans; [|by apply sameFor_loopHead].
    split; [by rewrite queueOf_setQueue_ne|]. split; [done|].
    split; [by simpl; rewrite lookup_insert_ne|]. by repeat split.
Qed.

(** X9.  Trunks are independent: inputs that are about other trunks (their
    submissions, even rejected, their timers, their jobs settling) and the
    passing of time leave a trunk's queue, its coroutine, its last call time
    and the list of jobs started on it exactly as they were. *)
Theorem other_trunks_do_not_interfere (st : State) (inputs : list Input)
    (trunkId : string) :
  Forall (fun i => inputTrunk i ≠ Some trunkId) inputs →
  sameFor trunkId st (run st inputs).
Proof.
  revert st. induction inputs as [|i inputs IH]; intros st Hall; simpl.
  - apply sameFor_refl.
  - inversion Hall as [|? ? Hi Hrest]; subst.
    eapply sameFor_trans; [by apply sameFor_step | by apply IH].
Qed.

Lemma other_trunks_do_not_interfere_witness :
  sameFor "telnyx_B" (init 5000) (run (init 5000) sampleInputs).
Proof.
  apply other_trunks_do_not_interfere.
  unfold sampleInputs. repeat constructor; discriminate.
Defined.

End QueueManagerOrder.


(** ** ChannelManager: fetches, gathers and timers *)

Section ChannelManagerMore.

Import ChannelManager.

Lemma includes_unfold (needle hay : string) :
  includes needle hay
  = (String.prefix needle hay
     || match hay with
        | EmptyString => false
        | String _ rest => includes needle rest
        end).
Proof. by destruct hay. Qed.

Lemma prefix_app (a b : string) : String.prefix a (a ++ b)%string = true.
Proof.
  induction a as [|c a IH]; simpl; [by destruct b|].
  destruct (Ascii.ascii_dec c c); [done | congruence].
Qed.

Lemma string_app_assoc (a b c : string) :
  (a ++ b ++ c)%string = ((a ++ b) ++ c)%string.
Proof.
  induction a as [|x a IH]; [done|].
  change (String x (a ++ b ++ c)%string = String x ((a ++ b) ++ c)%string).
  by rewrite IH.
Qed.

Lemma includes_app (needle a b : string) :
  includes needle (a ++ needle ++ b)%string = true.
Proof.
  induction a as [|c a IH].
  - change (includes needle (needle ++ b)%string = true).
    by rewrite includes_unfold, prefix_app.
  - change (includes needle (String c (a ++ needle ++ b))%string = true).
    rewrite includes_unfold, IH. apply orb_true_r.
Qed.

Lemma finalUrl_uuid (s : Session) (url : string) :
  includes "uuid=" (if includes "uuid=" url then url else addUuidToUrl s url) = true.
Proof.
  destruct (includes "uuid=" url) eqn:Hu; [done|].
  unfold addUuidToUrl. rewrite string_app_assoc. apply includes_app.
Qed.

(** *** Properties of the requests made so far *)

Section Requests.

(** [Q] holds of the requests made so far and goes on holding when a PBX
    call, or a fetch with [uuid=] in its URL, is added. *)
Variable Q : list Effect → Prop.

Hypothesis Q_cons : ∀ e tr, carriesUuid e → Q tr → Q (e :: tr).

Let P (w : World) : Prop := Q (trace w).

Lemma requests_modify (f : Session → Session) : keeps P (modify f).
Proof. by intros w Hw. Qed.

Lemma requests_get : keeps P get.
Proof. by intros w Hw. Qed.

Lemma requests_setTimeout (k : TimerKind) (ms : Z) : keeps P (setTimeout k ms).
Proof. by intros w Hw. Qed.

Lemma requests_clearTimeout (t : nat) : keeps P (clearTimeout t).
Proof. by intros w Hw. Qed.

Lemma requests_freshSuffix : keeps P freshSuffix.
Proof. by intros w Hw. Qed.

Lemma requests_api (e : Effect) : isPbxCall e = true → keeps P (api e).
Proof. intros He w Hw. apply Q_cons; [by destruct e | done]. Qed.

Lemma requests_fetchActionXML (url : string) (params : ActionAttributes) :
  includes "uuid=" url = true → keeps P (fetchActionXML url params).
Proof. intros Hu w Hw. by apply Q_cons. Qed.

Create HintDb requests discriminated.

Hint Resolve requests_get requests_setTimeout requests_clearTimeout requests_modify
  requests_freshSuffix : requests.

Ltac requests_step :=
  lazymatch goal with
  | |- keeps _ (mret _) => apply keeps_ret
  | |- keeps _ (_ ≫= _) => apply keeps_bind; [|intros ?]
  | |- keeps _ (api _) => by apply requests_api
  | |- keeps _ (fetchActionXML _ _) => apply requests_fetchActionXML, finalUrl_uuid
  | |- keeps _ (if ?b then _ else _) => destruct b
  | |- keeps _ (match ?x with _ => _ end) => destruct x
  | |- keeps _ _ => solve [eauto with requests]
  end.

Ltac requests := cbv zeta; repeat requests_step.

Lemma requests_clearTimeoutHandle : keeps P clearTimeoutHandle.
Proof. unfold clearTimeoutHandle. requests. Qed.

Lemma requests_clearGatherTimeout : keeps P clearGatherTimeout.
Proof. unfold clearGatherTimeout. requests. Qed.

Hint Resolve requests_clearTimeoutHandle requests_clearGatherTimeout : requests.

Lemma requests_destroy : keeps P destroy.
Proof. unfold destroy. requests. Qed.

Hint Resolve requests_destroy : requests.

Lemma requests_getActions (url : string) (params : ActionAttributes) :
  keeps P (getActions url params).
Proof.
  unfold getActions. apply keeps_bind; [apply requests_get | intros s].
  cbv zeta. apply keeps_bind; [requests | intros _].
  apply keeps_bind; [apply requests_fetchActionXML, finalUrl_uuid | intros r].
  requests.
Qed.

Lemma requests_gather (attrib : ActionAttributes) : keeps P (gather attrib).
Proof. unfold gather. requests. Qed.

Hint Resolve requests_getActions requests_gather : requests.

Lemma requests_runActionBody (rec : M unit) :
  keeps P rec → keeps P (runActionBody rec).
Proof. intros Hrec. unfold runActionBody, playWith, setActionWith, hangup. requests. Qed.

Lemma requests_runAction (fuel : nat) : keeps P (runAction fuel).
Proof.
  induction fuel as [|fuel IH]; simpl; [apply keeps_ret | by apply requests_runActionBody].
Qed.

Hint Resolve requests_runAction : requests.

Lemma requests_callback (fuel : nat) (k : TimerKind) : keeps P (callback fuel k).
Proof. destruct k; simpl; unfold handleTimeout, setAction, setActionWith; requests. Qed.

Lemma requests_deliver (fuel : nat) (i : Input) : keeps P (deliver fuel i).
Proof.
  destruct i; simpl.
  - unfold start. requests.
  - unfold onDTMFReceived, finishGather. requests.
  - unfold onPlaybackFinished. requests.
  - intros w Hw. unfold fire. destruct (timers w !! t) as [tm|]; [|done].
    by apply requests_callback, requests_clearTimeout.
  - unfold setAction, setActionWith. requests.
  - requests.
Qed.

Lemma requests_deliverAll (fuel : nat) (inputs : list Input) (w : World) :
  Q (trace w) → Q (trace (deliverAll fuel inputs w)).
Proof.
  revert w. induction inputs as [|i inputs IH]; intros w Hw; simpl; [done|].
  apply IH. by apply requests_deliver.
Qed.

End Requests.

(** X10. Whatever is delivered to a session (start, digits, playback
    ends, timers, steering, destroy) and whatever the PBX and the script
    server answer, every script it fetches has [uuid=] in its URL: if no
    fetch so far lacked it, none does afterwards. *)
Theorem every_fetch_carries_uuid (fuel : nat) (inputs : list Input) (w : World) :
  fetchesCarryUuid w → fetchesCarryUuid (deliverAll fuel inputs w).
Proof.
  apply (requests_deliverAll (Forall carriesUuid)).
  intros e tr He Htr. by constructor.
Qed.

Lemma every_fetch_carries_uuid_witness :
  fetchesCarryUuid (deliverAll 8 [DTMF "1"; DTMF "2"] gatheringWorld).
Proof.
  apply (every_fetch_carries_uuid 8 [DTMF "1"; DTMF "2"] gatheringWorld).
  vm_compute. repeat constructor.
Defined.

(** X11. A digit that does not complete a running gather is only
    collected.  In terminator mode that is every digit other than the
    terminator, however many were collected; in fixed-length mode it is a
    digit that leaves the count below [numDigits].  The digit is appended,
    the gather keeps running with its timer, the script is not advanced and
    nothing is fetched; the only request is the barge-in stop of a prompt
    that was playing. *)
Theorem gather_digit_accumulates (fuel : nat) (digit : string) (w : World) :
  let s := session w in
  let g := gatherInstance s in
  running g = true →
  (if truthy (finishOnKey g)
   then String.eqb digit (default EmptyString (finishOnKey g)) = false
   else (Z.of_nat (String.length (digits g ++ digit)%string) < numDigits g)%Z) →
  let w' := exec (onDTMFReceived fuel digit) w in
  gatherInstance (session w')
    = mkGather (digits g ++ digit)%string true (numDigits g) (finishOnKey g) (action g)
               (g_timeout g) (timeoutSeconds g)
  ∧ remainingActions (session w') = remainingActions s
  ∧ trace w' = (if isPlaying s && negb (String.eqb (playbackId s) EmptyString)
                then ApiStopPlayback (playbackId s) :: trace w
                else trace w)
  ∧ timers w' = match timeoutHandle s with
                | Some t => delete t (timers w)
                | None => timers w
                end
  ∧ fetchReplies w' = fetchReplies w.
Proof.
  destruct w as [[i u ra [d r n f a gt tsec] pb ip ct th pa cas isd] tm nt tr pr fr ps].
  simpl. intros -> Hd.
  unfold exec, onDTMFReceived, clearTimeoutHandle, get, mbind, M_bind. simpl.
  destruct (truthy f) eqn:Hf;
    [|apply Z.ltb_lt in Hd; rewrite Z.ltb_antisym in Hd; apply negb_true_iff in Hd];
    destruct (ip && negb (String.eqb pb EmptyString)); simpl;
    destruct th as [t|]; simpl;
    rewrite ?Hf, ?Hd; simpl; rewrite ?Hf, ?Hd; simpl;
    by repeat split.
Qed.

Lemma gather_digit_accumulates_witness :
  let w := gatheringWorld in
  let s := session w in
  let g := gatherInstance s in
  let w' := exec (onDTMFReceived 8 "1") w in
  gatherInstance (session w')
    = mkGather (digits g ++ "1")%string true (numDigits g) (finishOnKey g) (action g)
               (g_timeout g) (timeoutSeconds g)
  ∧ remainingActions (session w') = remainingActions s
  ∧ trace w' = (if isPlaying s && negb (String.eqb (playbackId s) EmptyString)
                then ApiStopPlayback (playbackId s) :: trace w
                else trace w)
  ∧ timers w' = match timeoutHandle s with
                | Some t => delete t (timers w)
                | None => timers w
                end
  ∧ fetchReplies w' = fetchReplies w.
Proof.
  apply (gather_digit_accumulates 8 "1" gatheringWorld); vm_compute; reflexivity.
Defined.

Lemma exec_bind {A B} (m : M A) (k : A → M B) (w : World) :
  exec (m ≫= k) w = exec (k (fst (m w))) (exec m w).
Proof. unfold exec, mbind, M_bind. by destruct (m w). Qed.

(** [getActions] records its fetch on top of the requests made before;
    what comes later is the hangup of [destroy] when the fetch fails. *)
Lemma getActions_fetches (url : string) (params : ActionAttributes) (w : World) :
  let finalUrl :=
    if includes "uuid=" url then url else addUuidToUrl (session w) url in
  ∃ later, trace (exec (getActions url params) w)
           = later ++ FetchActionXML finalUrl params :: trace w.
Proof.
  intros finalUrl. unfold getActions.
  rewrite exec_bind. change (fst (get w)) with (session w).
  change (exec get w) with w. cbv zeta. fold finalUrl.
  rewrite exec_bind.
  set (w1 := exec _ w).
  assert (Hw1 : trace w1 = trace w).
  { subst w1. by repeat destruct (includes _ finalUrl). }
  clearbody w1. rewrite exec_bind.
  set (r := fst _). clearbody r.
  set (Q := fun tr : list Effect =>
              ∃ later, tr = later ++ FetchActionXML finalUrl params :: trace w).
  assert (HQ : ∀ e tr, carriesUuid e → Q tr → Q (e :: tr)).
  { intros e tr _ [later ->]. by exists (e :: later). }
  assert (Hk : keeps (fun w => Q (trace w))
                 (match r with
                  | FetchActions actions => modify (setRemainingActions actions)
                  | FetchNoResponse => mret tt
                  | FetchError => destroy
                  end)).
  { destruct r;
      first [apply (requests_modify Q) | apply keeps_ret | by apply requests_destroy]. }
  apply Hk. exists []. simpl. by rewrite Hw1.
Qed.

(** The tail of a completed gather: the digits go to the action URL. *)
Lemma finishGather_fetches (fuel : nat) (w : World) :
  let s := session w in
  let g := gatherInstance s in
  let url := default EmptyString (action g) in
  let finalUrl := if includes "uuid=" url then url else addUuidToUrl s url in
  truthy (action g) = true →
  ∃ later,
    trace (exec (finishGather fuel) w)
    = later ++ FetchActionXML finalUrl (mkAttrs None None None None (Some (digits g)))
         :: trace w.
Proof.
  intros s g url finalUrl Ha. unfold finishGather.
  rewrite exec_bind, exec_bind.
  set (w2 := exec clearGatherTimeout (exec (modify (setRunning false)) w)).
  assert (Hw2 : trace w2 = trace w ∧ id (session w2) = id s
                ∧ action (gatherInstance (session w2)) = action g
                ∧ digits (gatherInstance (session w2)) = digits g).
  { subst w2 s g. unfold exec, clearGatherTimeout, get, mbind, M_bind. simpl.
    by destruct (g_timeout (gatherInstance (session w))). }
  clearbody w2. destruct Hw2 as (Htr & Hid & Hact & Hdig).
  rewrite exec_bind. change (exec get w2) with w2. change (fst (get w2)) with (session w2).
  rewrite Hact. fold g. rewrite Ha, Hdig. fold g url.
  rewrite exec_bind.
  destruct (getActions_fetches url (mkAttrs None None None None (Some (digits g))) w2)
    as [later Hlater].
  revert Hlater. cbv zeta. unfold addUuidToUrl. rewrite Hid, Htr.
  fold (addUuidToUrl s url). fold finalUrl.
  set (w3 := exec (getActions _ _) w2). clearbody w3. intros Hlater.
  set (fetch := FetchActionXML _ _) in *.
  apply (requests_runAction (fun tr => ∃ later, tr = later ++ fetch :: trace w)).
  - intros e tr' _ [l ->]. by exists (e :: l).
  - by exists later.
Qed.

(** X12. The digit that completes a running gather posts what was
    collected to the gather's action URL.  A gather completes on its
    terminator, which is not part of the digits sent, or, when it has no
    terminator, on the digit that brings the count to [numDigits], which is.
    The fetch carries no parameter but [Digits], goes to the action URL
    (with the channel's [uuid=] added when it has none), and is the first
    request after the barge-in stop, if there was one. *)
Theorem gather_completion_posts_digits (fuel : nat) (digit : string) (w : World) :
  let s := session w in
  let g := gatherInstance s in
  let terminator :=
    truthy (finishOnKey g) && String.eqb digit (default EmptyString (finishOnKey g)) in
  let sent := if terminator then digits g else (digits g ++ digit)%string in
  let url := default EmptyString (action g) in
  let finalUrl := if includes "uuid=" url then url else addUuidToUrl s url in
  let before :=
    if isPlaying s && negb (String.eqb (playbackId s) EmptyString)
    then ApiStopPlayback (playbackId s) :: trace w
    else trace w in
  running g = true →
  truthy (action g) = true →
  terminator = true
  ∨ (truthy (finishOnKey g) = false ∧ (numDigits g <= Z.of_nat (String.length sent))%Z) →
  ∃ later,
    trace (exec (onDTMFReceived fuel digit) w)
    = later ++ FetchActionXML finalUrl (mkAttrs None None None None (Some sent)) :: before.
Proof.
  destruct w as [[i u ra [d r n f a gt tsec] pb ip ct th pa cas isd] tm nt tr pr fr ps].
  simpl. intros -> Ha Hc.
  unfold exec at 1. unfold onDTMFReceived, clearTimeoutHandle, get, mbind, M_bind. simpl.
  destruct (ip && negb (String.eqb pb EmptyString)); simpl;
    destruct th as [t|]; simpl.
  all: destruct (truthy f && String.eqb digit (default EmptyString f)) eqn:Hterm; simpl.
  all: try (destruct Hc as [Hc|[Hf Hc]]; [done|];
            apply Z.leb_le in Hc; rewrite Hf, Hc; simpl).
  all: match goal with
       | |- context [(finishGather ?F ?W).2] =>
           change ((finishGather F W).2) with (exec (finishGather F) W);
           apply (finishGather_fetches F W Ha)
       end.
Qed.

Lemma gather_completion_posts_digits_witness :
  let w := exec (onDTMFReceived 8 "1") gatheringWorld in
  let s := session w in
  let g := gatherInstance s in
  let terminator :=
    truthy (finishOnKey g) && String.eqb "2" (default EmptyString (finishOnKey g)) in
  let sent := if terminator then digits g else (digits g ++ "2")%string in
  let url := default EmptyString (action g) in
  let finalUrl := if includes "uuid=" url then url else addUuidToUrl s url in
  let before :=
    if isPlaying s && negb (String.eqb (playbackId s) EmptyString)
    then ApiStopPlayback (playbackId s) :: trace w
    else trace w in
  ∃ later,
    trace (exec (onDTMFReceived 8 "2") w)
    = later ++ FetchActionXML finalUrl (mkAttrs None None None None (Some sent)) :: before.
Proof.
  apply (gather_completion_posts_digits 8 "2" (exec (onDTMFReceived 8 "1") gatheringWorld)).
  - vm_compute. reflexivity.
  - vm_compute. reflexivity.
  - right. vm_compute. split; [reflexivity | discriminate].
Defined.

(** The end of a playback while a gather runs: the gather timer is
    started anew, and nothing is requested. *)
Lemma playback_end_arms_gather_timer (fuel : nat) (pb : option string) (w : World) :
  let s := session w in
  let g := gatherInstance s in
  running g = true →
  pendingAction s = None →
  pb = None ∨ pb = Some (playbackId s) →
  timeoutHandle s = None →
  g_timeout g = None →
  let w' := exec (onPlaybackFinished fuel pb) w in
  trace w' = trace w
  ∧ timers w' = <[nextTimer w := mkTimer GatherTimeout (timeoutSeconds g * 1000)]> (timers w)
  ∧ g_timeout (gatherInstance (session w')) = Some (nextTimer w)
  ∧ running (gatherInstance (session w')) = true
  ∧ isPlaying (session w') = false.
Proof.
  destruct w as [[i u ra [d r n f a gt tsec] pb0 ip ct th pa0 cas isd] tm nt tr pr fr ps].
  simpl. intros -> -> Hpb -> ->.
  unfold exec, onPlaybackFinished, clearTimeoutHandle, clearGatherTimeout,
    get, mbind, M_bind.
  destruct Hpb as [-> | ->]; simpl; rewrite ?String.eqb_refl, ?andb_false_r; simpl; done.
Qed.

(** A prompt followed by a gather, the playback accepted by the PBX:
    the state the two steps of [runAction] leave. *)
Lemma run_prompt_then_gather (fuel : nat) (audio : string)
    (pa ga : ActionAttributes) (gd : option string) (rest : list Action) (w : World) :
  let s := session w in
  let g := gatherInstance s in
  remainingActions s = mkAction "play" (Some audio) pa :: mkAction "gather" gd ga :: rest →
  audio ≠ EmptyString →
  hd PbxOk (pbxReplies w) = PbxOk →
  let playbackId := (id s ++ "_" ++ hd "0_0" (playbackSuffixes w))%string in
  let armed := (0 <? orElse (attr_timeout pa) 0)%Z in
  let tm0 := match timeoutHandle s with Some t => delete t (timers w) | None => timers w end in
  let tm1 :=
    if armed
    then delete (nextTimer w)
           (<[nextTimer w := mkTimer PlayTimeout (orElse (attr_timeout pa) 0 * 1000)]> tm0)
    else tm0 in
  let tm2 := match g_timeout g with Some t => delete t tm1 | None => tm1 end in
  exec (runAction (S (S fuel))) w
  = mkWorld
      (mkSession (id s) (action_url s) rest
         (mkGather EmptyString true (orText (attr_numDigits ga) 1) (attr_finishOnKey ga)
                   (attr_action ga) None (orText (attr_timeout ga) 5))
         playbackId true (orElse (attr_timeout ga) 0) None (pendingAction s)
         (currentActionStatus s) (isDestroyed s))
      tm2 (if armed then S (nextTimer w) else nextTimer w)
      (ApiPlay (id s) audio playbackId :: trace w)
      (tail (pbxReplies w)) (fetchReplies w) (tail (playbackSuffixes w)).
Proof.
  destruct w as [[i u ra [d r n f a gt tsec] pb ip ct th pa0 cas isd] tm nt tr pr fr ps].
  cbv zeta. simpl session. simpl remainingActions. simpl pbxReplies.
  intros -> Haudio Hpbx.
  assert (Htruthy : negb (String.eqb audio EmptyString) = true).
  { apply negb_true_iff, String.eqb_neq, Haudio. }
  unfold exec, runAction, runActionBody, playWith, gather,
    clearTimeoutHandle, clearGatherTimeout, get, mbind, M_bind.
  destruct pr as [|[|e] pr]; simpl in Hpbx; try discriminate;
    destruct ps as [|suffix ps]; destruct th as [t|]; destruct gt as [t'|];
    simpl; rewrite Htruthy; simpl;
    destruct (0 <? orElse (attr_timeout pa) 0)%Z; simpl; reflexivity.
Qed.

(** X13. The gather timer waits for the prompt.  When the script is a
    prompt followed by a gather and the PBX accepts the playback, running
    the script starts the prompt and opens the gather without a timer:
    both timer handles are empty and no timer is armed that was not armed
    before (the timeout the prompt armed is cancelled at once by the step
    to the gather, and the gather defers its own).  Only the end of that
    playback arms the gather timer, without any request.  The gather takes
    its attributes as the script has them: the timer runs for the timeout
    attribute in milliseconds, 0 ms for a timeout of 0, and for 5 s only
    when the gather has no timeout; the digit count is the attribute's,
    0 included, and 1 only when the gather has none. *)
Theorem gather_timer_waits_for_prompt (fuel fuel' : nat) (audio : string)
    (pa ga : ActionAttributes) (gd : option string) (rest : list Action) (w : World) :
  let s := session w in
  remainingActions s = mkAction "play" (Some audio) pa :: mkAction "gather" gd ga :: rest →
  audio ≠ EmptyString →
  hd PbxOk (pbxReplies w) = PbxOk →
  pendingAction s = None →
  let w1 := exec (runAction (S (S fuel))) w in
  let g1 := gatherInstance (session w1) in
  let w2 := exec (onPlaybackFinished fuel' (Some (playbackId (session w1)))) w1 in
  (trace w1 = ApiPlay (id s) audio (playbackId (session w1)) :: trace w
   ∧ isPlaying (session w1) = true
   ∧ remainingActions (session w1) = rest
   ∧ running g1 = true ∧ digits g1 = EmptyString
   ∧ numDigits g1 = orText (attr_numDigits ga) 1
   ∧ timeoutHandle (session w1) = None ∧ g_timeout g1 = None
   ∧ timers w1 ⊆ timers w)
  ∧ (trace w2 = trace w1
     ∧ timers w2
       = <[nextTimer w1 := mkTimer GatherTimeout (orText (attr_timeout ga) 5 * 1000)]>
           (timers w1)
     ∧ g_timeout (gatherInstance (session w2)) = Some (nextTimer w1)
     ∧ running (gatherInstance (session w2)) = true
     ∧ isPlaying (session w2) = false).
Proof.
  intros s Hra Haudio Hpbx Hpa w1.
  pose proof (run_prompt_then_gather fuel audio pa ga gd rest w Hra Haudio Hpbx) as E.
  cbv zeta in E. fold w1 s in E. clearbody w1.
  set (tm0 := match timeoutHandle s with Some t => delete t (timers w) | None => timers w end) in E.
  assert (Htm0 : tm0 ⊆ timers w).
  { subst tm0. destruct (timeoutHandle s); [apply delete_subseteq | done]. }
  clearbody tm0.
  set (tm1 := if (0 <? _)%Z then _ else tm0) in E.
  assert (Htm1 : tm1 ⊆ timers w).
  { subst tm1. destruct (0 <? _)%Z; [|done].
    rewrite delete_insert_eq. etrans; [apply delete_subseteq | done]. }
  clearbody tm1.
  set (tm2 := match g_timeout _ with Some t => delete t tm1 | None => tm1 end) in E.
  assert (Htm2 : tm2 ⊆ timers w).
  { subst tm2. destruct (g_timeout _); [|done]. etrans; [apply delete_subseteq | done]. }
  clearbody tm2.
  intros g1 w2.
  assert (Hw1 : (trace w1 = ApiPlay (id s) audio (playbackId (session w1)) :: trace w
                 ∧ isPlaying (session w1) = true
                 ∧ remainingActions (session w1) = rest
                 ∧ running g1 = true ∧ digits g1 = EmptyString
                 ∧ numDigits g1 = orText (attr_numDigits ga) 1
                 ∧ timeoutHandle (session w1) = None ∧ g_timeout g1 = None
                 ∧ timers w1 ⊆ timers w)
                ∧ pendingAction (session w1) = None
                ∧ timeoutSeconds g1 = orText (attr_timeout ga) 5).
  { subst g1. rewrite E. simpl. by split_and!. }
  destruct Hw1 as (Hw1 & Hpend & Hsec). split; [exact Hw1|].
  destruct Hw1 as (_ & _ & _ & Hrun & _ & _ & Hth & Hgt & _).
  pose proof (playback_end_arms_gather_timer fuel' (Some (playbackId (session w1))) w1
                Hrun Hpend (or_intror eq_refl) Hth Hgt) as H.
  cbv zeta in H. fold w2 g1 in H. by rewrite Hsec in H.
Qed.

Lemma gather_timer_waits_for_prompt_witness :
  let w := fetchedWorld in
  let ga := mkAttrs (Some 10) (Some 2) None
                    (Some "http://localhost:3000/action/gather?uuid=ch1") None in
  let s := session w in
  let w1 := exec (runAction 8) w in
  let g1 := gatherInstance (session w1) in
  let w2 := exec (onPlaybackFinished 8 (Some (playbackId (session w1)))) w1 in
  (trace w1 = ApiPlay (id s) "custom/demo/answer" (playbackId (session w1)) :: trace w
   ∧ isPlaying (session w1) = true
   ∧ remainingActions (session w1) = []
   ∧ running g1 = true ∧ digits g1 = EmptyString
   ∧ numDigits g1 = orText (attr_numDigits ga) 1
   ∧ timeoutHandle (session w1) = None ∧ g_timeout g1 = None
   ∧ timers w1 ⊆ timers w)
  ∧ (trace w2 = trace w1
     ∧ timers w2
       = <[nextTimer w1 := mkTimer GatherTimeout (orText (attr_timeout ga) 5 * 1000)]>
           (timers w1)
     ∧ g_timeout (gatherInstance (session w2)) = Some (nextTimer w1)
     ∧ running (gatherInstance (session w2)) = true
     ∧ isPlaying (session w2) = false).
Proof.
  apply (gather_timer_waits_for_prompt 6 8 "custom/demo/answer" noAttrs
           (mkAttrs (Some 10) (Some 2) None
                    (Some "http://localhost:3000/action/gather?uuid=ch1") None)
           None [] fetchedWorld).
  - vm_compute. reflexivity.
  - discriminate.
  - vm_compute. reflexivity.
  - vm_compute. reflexivity.
Defined.

(** A gather whose script says [timeout="0" numDigits="0"] keeps both:
    its timer is armed for 0 ms and its digit count is 0. *)
Example gather_keeps_zero_attributes :
  let script :=
    [mkAction "play" (Some "custom/demo/answer") noAttrs;
     mkAction "gather" None (mkAttrs (Some 0) (Some 0) None None None)] in
  let w :=
    newWorld (mkSession "ch1" None script
                (mkGather EmptyString false 1 None None None 5)
                EmptyString false 0 None None EmptyString false) [] [] ["1700_ab"] in
  let w1 := exec (runAction 8) w in
  let w2 := exec (onPlaybackFinished 8 (Some (playbackId (session w1)))) w1 in
  numDigits (gatherInstance (session w1)) = 0
  ∧ timers w1 = ∅
  ∧ timers w2 = <[nextTimer w1 := mkTimer GatherTimeout 0]> ∅.
Proof. vm_compute. split_and!; reflexivity. Qed.

(** X14. When the timer of a gather fires while the gather still runs,
    the gather is closed and the session destroyed: a live session sends
    its one hangup to the PBX, the latch is set and neither timer handle
    survives.  A gather timer left over from a gather that has completed
    since does nothing beyond disappearing from the armed timers. *)
Theorem gather_timeout_hangs_up (fuel t : nat) (ms : Z) (w : World) :
  let s := session w in
  timers w !! t = Some (mkTimer GatherTimeout ms) →
  let w' := exec (fire fuel t) w in
  timers w' !! t = None
  ∧ (running (gatherInstance s) = false →
     w' = mkWorld s (delete t (timers w)) (nextTimer w) (trace w)
                  (pbxReplies w) (fetchReplies w) (playbackSuffixes w))
  ∧ (running (gatherInstance s) = true →
     running (gatherInstance (session w')) = false
     ∧ isDestroyed (session w') = true
     ∧ remainingActions (session w') = remainingActions s
     ∧ (isDestroyed s = false →
        trace w' = ApiHangup (id s) :: trace w
        ∧ timeoutHandle (session w') = None
        ∧ g_timeout (gatherInstance (session w')) = None
        ∧ isPlaying (session w') = false)
     ∧ (isDestroyed s = true → trace w' = trace w)).
Proof.
  destruct w as [[i u ra [d r n f a gt tsec] pb ip ct th pa cas isd] tm nt tr pr fr ps].
  simpl. intros Ht.
  unfold exec, fire. simpl. rewrite Ht. simpl.
  unfold destroy, clearTimeoutHandle, clearGatherTimeout, get, mbind, M_bind. simpl.
  destruct r; simpl; [|by rewrite lookup_delete_eq].
  destruct isd; simpl; [by rewrite lookup_delete_eq|].
  destruct th as [t1|]; simpl; destruct gt as [t2|]; simpl.
  all: split_and!; try done.
  all: repeat first [apply lookup_delete_eq | apply lookup_delete_None; right].
Qed.

Lemma gather_timeout_hangs_up_witness :
  let w := exec (onPlaybackFinished 8 None) gatheringWorld in
  let s := session w in
  let w' := exec (fire 8 0%nat) w in
  timers w' !! 0%nat = None
  ∧ (running (gatherInstance s) = false →
     w' = mkWorld s (delete 0%nat (timers w)) (nextTimer w) (trace w)
                  (pbxReplies w) (fetchReplies w) (playbackSuffixes w))
  ∧ (running (gatherInstance s) = true →
     running (gatherInstance (session w')) = false
     ∧ isDestroyed (session w') = true
     ∧ remainingActions (session w') = remainingActions s
     ∧ (isDestroyed s = false →
        trace w' = ApiHangup (id s) :: trace w
        ∧ timeoutHandle (session w') = None
        ∧ g_timeout (gatherInstance (session w')) = None
        ∧ isPlaying (session w') = false)
     ∧ (isDestroyed s = true → trace w' = trace w)).
Proof.
  apply (gather_timeout_hangs_up 8 0%nat 10000 (exec (onPlaybackFinished 8 None) gatheringWorld)).
  vm_compute. reflexivity.
Defined.

(** X15. The end of the script.  When a playback ends with nothing left
    to do (no pending action, no gather running, no action left in the
    script), the session asks nothing of the PBX and arms one timer with
    the timeout of the last action in milliseconds, also when that timeout
    is 0.  When this timer fires on a session not yet destroyed, the
    session is destroyed: the latch is set, one hangup goes to the PBX and
    the timer is gone. *)
Theorem end_of_script_hangs_up_after_timeout (fuel fuel' : nat) (pb : option string)
    (w : World) :
  let s := session w in
  pb = None ∨ pb = Some (playbackId s) →
  pendingAction s = None →
  running (gatherInstance s) = false →
  remainingActions s = [] →
  isDestroyed s = false →
  let w1 := exec (onPlaybackFinished fuel pb) w in
  let w2 := exec (fire fuel' (nextTimer w)) w1 in
  (trace w1 = trace w
   ∧ timers w1 !! nextTimer w = Some (mkTimer PostPlaybackTimeout (currentTimeout s * 1000))
   ∧ timeoutHandle (session w1) = Some (nextTimer w)
   ∧ isPlaying (session w1) = false
   ∧ isDestroyed (session w1) = false)
  ∧ (trace w2 = ApiHangup (id s) :: trace w
     ∧ isDestroyed (session w2) = true
     ∧ timers w2 !! nextTimer w = None
     ∧ timeoutHandle (session w2) = None).
Proof.
  destruct w as [[i u ra [d r n f a gt tsec] pb0 ip ct th pa cas isd] tm nt tr pr fr ps].
  simpl. intros Hpb -> -> -> ->.
  unfold exec, fire, onPlaybackFinished, clearTimeoutHandle, get, mbind, M_bind.
  destruct Hpb as [-> | ->]; simpl; rewrite ?String.eqb_refl, ?andb_false_r; simpl.
  all: destruct th as [t|]; simpl; rewrite lookup_insert_eq; simpl.
  all: unfold destroy, clearTimeoutHandle, clearGatherTimeout, get, mbind, M_bind; simpl.
  all: destruct gt as [t'|]; simpl.
  all: split_and!; try done.
  all: repeat first [apply lookup_delete_eq | apply lookup_delete_None; right].
Qed.

Lemma end_of_script_hangs_up_after_timeout_witness :
  let w := exec (start 8)
             (newWorld (newSession "ch1" (Some "http://localhost:3000/action/confirm"))
                       [] [FetchActions confirmScript] ["1700_ab"]) in
  let s := session w in
  let w1 := exec (onPlaybackFinished 8 (Some (playbackId s))) w in
  let w2 := exec (fire 8 (nextTimer w)) w1 in
  (trace w1 = trace w
   ∧ timers w1 !! nextTimer w = Some (mkTimer PostPlaybackTimeout (currentTimeout s * 1000))
   ∧ timeoutHandle (session w1) = Some (nextTimer w)
   ∧ isPlaying (session w1) = false
   ∧ isDestroyed (session w1) = false)
  ∧ (trace w2 = ApiHangup (id s) :: trace w
     ∧ isDestroyed (session w2) = true
     ∧ timers w2 !! nextTimer w = None
     ∧ timeoutHandle (session w2) = None).
Proof.
  apply (end_of_script_hangs_up_after_timeout 8 8
           (Some (playbackId (session (exec (start 8)
             (newWorld (newSession "ch1" (Some "http://localhost:3000/action/confirm"))
                       [] [FetchActions confirmScript] ["1700_ab"])))))).
  - right. reflexivity.
  - vm_compute. reflexivity.
  - vm_compute. reflexivity.
  - vm_compute. reflexivity.
  - vm_compute. reflexivity.
Defined.

(** X16. The [hangup] action of a script asks the PBX to hang up and then
    destroys the session, which asks again: on a session not yet destroyed
    the PBX receives two hangup requests for the channel, on a destroyed
    one a single request.  Either way the latch is set afterwards, the
    action is consumed and the rest of the script is left where it is. *)
Theorem hangup_action_requests_twice (fuel : nat) (d : option string)
    (a : ActionAttributes) (rest : list Action) (w : World) :
  let s := session w in
  remainingActions s = mkAction "hangup" d a :: rest →
  let w' := exec (runAction (S fuel)) w in
  trace w' = (if isDestroyed s
              then [ApiHangup (id s)]
              else [ApiHangup (id s); ApiHangup (id s)]) ++ trace w
  ∧ isDestroyed (session w') = true
  ∧ remainingActions (session w') = rest
  ∧ (∀ t, timeoutHandle s = Some t → timers w' !! t = None)
  ∧ fetchReplies w' = fetchReplies w.
Proof.
  destruct w as [[i u ra [dg r n f ac gt tsec] pb ip ct th pa cas isd] tm nt tr pr fr ps].
  simpl. intros ->.
  generalize (runAction fuel) as rec. intros rec.
  unfold exec, runActionBody, hangup, destroy, clearTimeoutHandle, clearGatherTimeout,
    get, mbind, M_bind.
  destruct th as [t|]; simpl; destruct isd; simpl; destruct gt as [t'|]; simpl.
  all: split_and!; try done.
  all: intros ? [= <-].
  all: repeat first [apply lookup_delete_eq | apply lookup_delete_None; right].
Qed.

Lemma hangup_action_requests_twice_witness :
  let w := newWorld (mkSession "ch1" None [mkAction "hangup" None noAttrs]
                       (mkGather EmptyString false 1 None None None 5)
                       EmptyString false 0 None None EmptyString false)
             [] [] [] in
  let s := session w in
  let w' := exec (runAction 1) w in
  trace w' = (if isDestroyed s
              then [ApiHangup (id s)]
              else [ApiHangup (id s); ApiHangup (id s)]) ++ trace w
  ∧ isDestroyed (session w') = true
  ∧ remainingActions (session w') = []
  ∧ (∀ t, timeoutHandle s = Some t → timers w' !! t = None)
  ∧ fetchReplies w' = fetchReplies w.
Proof.
  apply (hangup_action_requests_twice 0 None noAttrs []
           (newWorld (mkSession "ch1" None [mkAction "hangup" None noAttrs]
                        (mkGather EmptyString false 1 None None None 5)
                        EmptyString false 0 None None EmptyString false)
              [] [] [])).
  reflexivity.
Defined.

End ChannelManagerMore.


(** ** WebSocketService: attaching a socket *)

Section WebSocketServiceAttach.

Import WebSocketService.







End WebSocketServiceAttach.

(** ** CallStore: expiry *)

Section CallStoreExpiry.

Import CallStore.

Lemma isExpired_ms (now : Z) (c : CallData) :
  isExpired now c = (900000 <? now - created_at c)%Z.
Proof.
  unfold isExpired, EXPIRATION_TIME, Qle_bool, Qdiv, Qmult, Qinv, inject_Z. simpl.
  rewrite Z.ltb_antisym. f_equal. f_equal. lia.
Qed.

Lemma lookup_foldl_delete (ks : list string) (m : gmap string CallData) (k : string) :
  foldl (fun m uuid => delete uuid m) m ks !! k
  = if decide (k ∈ ks) then None else m !! k.
Proof.
  revert m. induction ks as [|k' ks IH]; intros m; simpl.
  - by destruct (decide (k ∈ [])) as [H|H]; [inversion H|].
  - rewrite IH.
    destruct (decide (k ∈ ks)) as [Hin|Hnin].
    + rewrite decide_True; [done | by right].
    + destruct (decide (k = k')) as [->|Hne].
      * rewrite decide_True; [|by left]. apply lookup_delete_eq.
      * rewrite decide_False; [by rewrite lookup_delete_ne|].
        intros [?|?]%elem_of_cons; done.
Qed.

Lemma lookup_cleanupExpiredCalls (calls : gmap string CallData) (now : Z) (k : string) :
  cleanupExpiredCalls calls now !! k
  = c ← calls !! k; if isExpired now c then None else Some c.
Proof.
  unfold cleanupExpiredCalls. rewrite lookup_foldl_delete.
  set (l := filter _ _).
  destruct (calls !! k) as [c|] eqn:Hk; simpl.
  - destruct (isExpired now c) eqn:He.
    + rewrite decide_True; [done|].
      apply list_elem_of_fmap. exists (k, c). split; [done|].
      apply list_elem_of_filter. split; [done|]. by apply elem_of_map_to_list.
    + rewrite decide_False; [done|].
      intros ([k' c'] & Hk' & Hin)%list_elem_of_fmap. simpl in Hk'. subst k'.
      apply list_elem_of_filter in Hin as [Hexp Hin]. simpl in Hexp.
      apply elem_of_map_to_list in Hin. congruence.
  - destruct (decide (k ∈ map fst l)) as [Hin|Hnin]; [|done].
    apply list_elem_of_fmap in Hin as ([k' c'] & Hk' & Hin). simpl in Hk'. subst k'.
    apply list_elem_of_filter in Hin as [_ Hin].
    apply elem_of_map_to_list in Hin. congruence.
Qed.

(** X19. A run of the cleanup removes exactly the calls created more than
    15 minutes before it: a call whose age in milliseconds exceeds 900000
    is gone afterwards, every other call (one that is exactly 15 minutes
    old included) is kept as it was, and no call appears. *)
Theorem cleanup_removes_exactly_expired (calls : gmap string CallData) (now : Z)
    (k : string) :
  cleanupExpiredCalls calls now !! k
  = match calls !! k with
    | Some c => if (900000 <? now - created_at c)%Z then None else Some c
    | None => None
    end.
Proof.
  rewrite lookup_cleanupExpiredCalls.
  destruct (calls !! k) as [c|]; simpl; [|done]. by rewrite isExpired_ms.
Qed.

End CallStoreExpiry.


(** ** ActionController: answers and side effects *)

Section ActionControllerAnswers.

Import ActionController.

Lemma generateXMLResponse_not_error (env : Env) (status : string) (ad : ActionData)
    (uuid campaign : string) :
  generateXMLResponse env status ad uuid campaign ≠ errorXml.
Proof.
  unfold generateXMLResponse, errorXml, buildAudioPath.
  destruct (String.eqb status "confirm"); [by intros [=]|].
  cbv zeta.
  destruct (String.eqb status "completed" || String.eqb status "completed_option1"
            || String.eqb status "completed_option2"); by intros [=].
Qed.

(** The status under which a request runs once the menu block is passed. *)
Lemma handleAction_known (env : Env) (ctx : Ctx) (status uuid : string)
    (Digits : option string) (c : CallStore.CallData) :
  uuid ≠ EmptyString →
  calls ctx !! uuid = Some c →
  let menu := String.eqb status "options" && truthy Digits in
  let selected := if String.eqb (default EmptyString Digits) "1" then "1" else "2" in
  let final :=
    if menu
    then (if String.eqb (default EmptyString Digits) "1" then "option1" else "option2")
    else status in
  let ctx1 :=
    if menu then updateCall ctx uuid (CallStore.mkUpdates None (Some selected) None)
    else ctx in
  handleAction env ctx status (Some uuid) Digits
  = handleActionFrom env ctx1 final uuid (CallStore.campaign c) Digits.
Proof.
  intros Hu Hc. unfold handleAction, CallStore.getCall.
  rewrite (truthy_Some uuid Hu). simpl. rewrite Hc.
  destruct (String.eqb status "options" && truthy Digits); simpl; [|done].
  by destruct (String.eqb (default EmptyString Digits) "1").
Qed.

(** The names of [Object.prototype], one by one. *)
Lemma inheritedMember_Some (key member : string) :
  inheritedMember key = Some member → In (key, member) objectPrototype.
Proof.
  unfold inheritedMember. intros H.
  destruct (List.find _ objectPrototype) as [[k m]|] eqn:Hfind; [|done].
  simpl in H. injection H as ->.
  apply List.find_some in Hfind as [Hin Hk]. simpl in Hk.
  by apply String.eqb_eq in Hk as ->.
Qed.

(** No name of [Object.prototype] is a status with side effects. *)
Lemma processActionLogic_inherited (env : Env) (ctx : Ctx) (status uuid member : string)
    (digits : option string) :
  inheritedMember status = Some member →
  processActionLogic env ctx status uuid digits = ctx
  ∧ String.eqb status "gather1" = false
  ∧ String.eqb status "options" = false.
Proof.
  intros H%inheritedMember_Some. unfold objectPrototype in H. simpl in H.
  repeat (destruct H as [[= <- <-]|H]; [by split_and!|]). done.
Qed.

(** X21. The error answer (the single error Play) is given in exactly
    three cases: the request has no uuid, the uuid is not that of a stored
    call, or the lookup of the status under which the request runs
    ([option1] or [option2] for a menu request with digits, the requested
    status otherwise) finds nothing: the campaign of the call is not
    loaded, or it has no entry of that name and the name is none of those
    every object inherits ([constructor], [toString], ...).  In the first
    two cases, and in the third for a request that is not a menu choice,
    neither the call store nor the push registry is touched.  A status
    that is an inherited name and no entry of the loaded campaign is not
    answered with the error: the answer is a prompt with a Gather whose
    timeout is the text [undefined] and whose digit count is 0, and
    nothing is touched. *)
Theorem error_answer_iff (env : Env) (ctx : Ctx) (status : string)
    (uuid Digits : option string) :
  let u := default EmptyString uuid in
  let menu := String.eqb status "options" && truthy Digits in
  let final :=
    if menu
    then (if String.eqb (default EmptyString Digits) "1" then "option1" else "option2")
    else status in
  let result := handleAction env ctx status uuid Digits in
  let noEntry :=
    truthy uuid = false
    ∨ calls ctx !! u = None
    ∨ ∃ c, calls ctx !! u = Some c
           ∧ (campaignsCache env !! CallStore.campaign c = None
              ∨ ∃ campaign, campaignsCache env !! CallStore.campaign c = Some campaign
                  ∧ campaign !! final = None
                  ∧ inheritedMember final = None) in
  (snd result = errorXml ↔ noEntry)
  ∧ (noEntry → menu = false → fst result = ctx)
  ∧ (∀ c campaign member,
       truthy uuid = true →
       calls ctx !! u = Some c →
       campaignsCache env !! CallStore.campaign c = Some campaign →
       campaign !! status = None →
       inheritedMember status = Some member →
       result
       = (ctx,
          [mkElem "Play" [] (buildAudioPath (CallStore.campaign c) status);
           mkElem "Gather"
             [("input", Str "speech dtmf");
              ("action",
               Str ((baseUrl env ++ "/action/" ++ member) ++ "?uuid=" ++ u)%string);
              ("timeout", Str "undefined");
              ("numDigits", Num 0)]
             EmptyString])).
Proof.
  intros u menu final result noEntry.
  destruct (truthy uuid) eqn:Hu.
  2:{ subst result. unfold handleAction. rewrite Hu. simpl.
      split_and!; [|done..]. split; [by left | done]. }
  destruct uuid as [uu|]; [|done]. simpl in u.
  assert (Huu : uu ≠ EmptyString).
  { intros ->. discriminate. }
  destruct (calls ctx !! u) as [c|] eqn:Hc.
  2:{ subst result. unfold handleAction, CallStore.getCall. rewrite Hu. simpl.
      fold u. rewrite Hc. split_and!; [|done..]. split; [by right; left | done]. }
  subst result. subst u. rewrite (handleAction_known env ctx status uu Digits c Huu Hc).
  fold menu final. cbv zeta.
  set (ctx1 := if menu then _ else ctx).
  assert (Hnone : getActionMember env (CallStore.campaign c) final = None
                  ↔ noEntry).
  { subst noEntry. unfold getActionMember. split.
    - intros H. right. right. exists c. split; [done|].
      destruct (campaignsCache env !! CallStore.campaign c) as [cmp|]; [|by left].
      right. exists cmp. simpl in H. split; [done|].
      destruct (cmp !! final); [done|].
      by destruct (inheritedMember final).
    - intros [?|[?|(c' & Hc' & H)]]; try done.
      assert (c' = c) as -> by congruence.
      destruct H as [H|(cmp & H1 & H2 & H3)]; [by rewrite H|].
      rewrite H1. simpl. by rewrite H2, H3. }
  split_and!.
  - rewrite <- Hnone. unfold handleActionFrom.
    destruct (getActionMember env (CallStore.campaign c) final) as [m|]; [|done].
    split; [|done]. intros Herr. exfalso. revert Herr.
    destruct (String.eqb final "gather1" && _ && _); simpl; [by intros [=]|].
    destruct m; [apply generateXMLResponse_not_error | by intros [=]].
  - intros Hno%Hnone Hmenu. unfold handleActionFrom. rewrite Hno.
    subst ctx1. by rewrite Hmenu.
  - intros c' cmp member _ [= <-] Hcmp Hown Hin.
    destruct (processActionLogic_inherited env ctx status uu member Digits Hin)
      as (Hlogic & Hg1 & Hopt).
    assert (Hmenu : menu = false) by (subst menu; by rewrite Hopt).
    subst ctx1 final. rewrite Hmenu.
    unfold handleActionFrom, getActionMember. rewrite Hcmp. simpl.
    rewrite Hown, Hin. simpl. rewrite Hg1, Hlogic. simpl.
    unfold inheritedXMLResponse, buildNextUrl. rewrite Hin.
    apply inheritedMember_Some in Hin. unfold objectPrototype in Hin. simpl in Hin.
    repeat (destruct Hin as [[= <- <-]|Hin]; [reflexivity|]). done.
Qed.

Lemma error_answer_iff_witness :
  fst (handleAction sampleEnv sampleCtx "gather" (Some "ch1") (Some "1234")) = sampleCtx.
Proof.
  apply (proj1 (proj2 (error_answer_iff sampleEnv sampleCtx "gather" (Some "ch1")
                         (Some "1234")))).
  - right. right. exists (CallStore.mkCall "ch1" "pending" "venmo_fraude" 0 None None).
    split; [vm_compute; reflexivity|].
    right. exists venmo_fraude. split_and!; vm_compute; reflexivity.
  - reflexivity.
Defined.

(** [/action/constructor] and [/action/__proto__] for a call of a campaign
    that has no such entries: a prompt and a Gather, not the error. *)
Example inherited_status_answer :
  snd (handleAction sampleEnv sampleCtx "constructor" (Some "ch1") None)
    = [mkElem "Play" [] "custom/venmo_fraude/constructor";
       mkElem "Gather"
         [("input", Str "speech dtmf");
          ("action",
           Str "http://localhost:3000/action/function Object() { [native code] }?uuid=ch1");
          ("timeout", Str "undefined");
          ("numDigits", Num 0)] EmptyString]
  ∧ snd (handleAction sampleEnv sampleCtx "__proto__" (Some "ch1") None)
    = [mkElem "Play" [] "custom/venmo_fraude/__proto__";
       mkElem "Gather"
         [("input", Str "speech dtmf");
          ("action", Str "http://localhost:3000/action/[object Object]?uuid=ch1");
          ("timeout", Str "undefined");
          ("numDigits", Num 0)] EmptyString]
  ∧ snd (handleAction sampleEnv sampleCtx "nothing" (Some "ch1") None) = errorXml.
Proof. vm_compute. split_and!; reflexivity. Qed.

(** X22. The Gather element.  For every status that is answered with a
    prompt and a Gather (all but [confirm] and the three completed ones)
    the Gather takes speech and DTMF and is in one of two modes: with a
    terminator of exactly one character the digit count is 0 and the
    terminator is passed on; otherwise the count is the catalog's (0 when
    it has none) and no terminator attribute is written, whatever the
    catalog holds.  Its action URL always ends in the uuid of the call:
    [gather1] posts to itself whatever its catalog entry names; any other
    status with a next step posts to it, taken as is when it starts with
    [http://] or [https://] and put under [/action/] of the base URL
    otherwise. *)
Theorem gather_element (env : Env) (status : string) (ad : ActionData)
    (uuid campaign : string) :
  status ∉ ["confirm"; "completed"; "completed_option1"; "completed_option2"] →
  let xml := generateXMLResponse env status ad uuid campaign in
  let fk := default EmptyString (finishOnKey ad) in
  let dynamic := truthy (finishOnKey ad) && Nat.eqb (String.length fk) 1 in
  let nxt := default EmptyString (next ad) in
  let absolute := String.prefix "http://" nxt || String.prefix "https://" nxt in
  map tag xml = ["Play"; "Gather"]
  ∧ attrOf "Gather" "input" xml = Some (Str "speech dtmf")
  ∧ attrOf "Gather" "numDigits" xml
    = Some (Num (if dynamic then 0 else default 0 (dgts ad)))
  ∧ attrOf "Gather" "finishOnKey" xml = (if dynamic then Some (Str fk) else None)
  ∧ (status = "gather1" →
     attrOf "Gather" "action" xml
     = Some (Str ((baseUrl env ++ "/action/gather1") ++ "?uuid=" ++ uuid)%string))
  ∧ (status ≠ "gather1" → truthy (next ad) = true →
     attrOf "Gather" "action" xml
     = Some (Str ((if absolute then nxt else baseUrl env ++ "/action/" ++ nxt)
                  ++ "?uuid=" ++ uuid)%string)).
Proof.
  intros Hst.
  assert (H1 : String.eqb status "confirm" = false).
  { apply String.eqb_neq. intros ->. apply Hst. set_solver. }
  assert (H2 : String.eqb status "completed" = false).
  { apply String.eqb_neq. intros ->. apply Hst. set_solver. }
  assert (H3 : String.eqb status "completed_option1" = false).
  { apply String.eqb_neq. intros ->. apply Hst. set_solver. }
  assert (H4 : String.eqb status "completed_option2" = false).
  { apply String.eqb_neq. intros ->. apply Hst. set_solver. }
  cbv zeta. unfold generateXMLResponse. rewrite H1, H2, H3, H4. cbv zeta. simpl orb.
  cbv iota.
  set (fk := default EmptyString (finishOnKey ad)).
  set (dynamic := truthy (finishOnKey ad) && Nat.eqb (String.length fk) 1).
  set (nextUrl := if String.eqb status "gather1" then _ else _).
  assert (Hfk : dynamic = true → String.eqb fk EmptyString = false).
  { subst dynamic. intros [_ Hlen%Nat.eqb_eq]%andb_true_iff.
    apply String.eqb_neq. intros Hfk. by rewrite Hfk in Hlen. }
  unfold attrOf. simpl.
  split_and!; try done.
  - destruct dynamic; [by rewrite Hfk|done].
  - intros Hg. subst nextUrl. by rewrite Hg.
  - intros Hne Hnext. apply String.eqb_neq in Hne. subst nextUrl. rewrite Hne.
    destruct (String.eqb status "invalid"); rewrite Hnext; simpl;
      by destruct (String.prefix "http://" _ || String.prefix "https://" _).
Qed.

Lemma gather_element_witness :
  let ad := mkActionData "option2.wav" (Some "confirm") None (Some "#") None 9 in
  let xml := generateXMLResponse sampleEnv "option2" ad "ch1" "venmo_fraude" in
  let fk := default EmptyString (finishOnKey ad) in
  let dynamic := truthy (finishOnKey ad) && Nat.eqb (String.length fk) 1 in
  let nxt := default EmptyString (next ad) in
  let absolute := String.prefix "http://" nxt || String.prefix "https://" nxt in
  map tag xml = ["Play"; "Gather"]
  ∧ attrOf "Gather" "input" xml = Some (Str "speech dtmf")
  ∧ attrOf "Gather" "numDigits" xml
    = Some (Num (if dynamic then 0 else default 0 (dgts ad)))
  ∧ attrOf "Gather" "finishOnKey" xml = (if dynamic then Some (Str fk) else None)
  ∧ ("option2" = "gather1" →
     attrOf "Gather" "action" xml
     = Some (Str ((baseUrl sampleEnv ++ "/action/gather1") ++ "?uuid=" ++ "ch1")%string))
  ∧ ("option2" ≠ "gather1" → truthy (next ad) = true →
     attrOf "Gather" "action" xml
     = Some (Str ((if absolute then nxt else baseUrl sampleEnv ++ "/action/" ++ nxt)
                  ++ "?uuid=" ++ "ch1")%string)).
Proof.
  apply (gather_element sampleEnv "option2"
           (mkActionData "option2.wav" (Some "confirm") None (Some "#") None 9)
           "ch1" "venmo_fraude").
  intros H. repeat (apply elem_of_cons in H as [H|H]; [discriminate|]).
  by apply elem_of_nil in H.
Defined.

(** X23. A [gather1] request that carries digits is answered with a
    single Redirect, not with a Gather, when the campaign's [gather1]
    entry names a next step: to that step as it is when it starts with
    [http], under [/action/] of the base URL otherwise, followed by the
    uuid.  Before answering, the request marks the call as being in its
    second gather (state [gather1], stage [second]; a call whose campaign
    name is empty is left alone) and pushes the digits to the call's
    socket as [OtpCode]. *)
Theorem gather1_digits_redirect (env : Env) (ctx : Ctx) (uuid digits : string)
    (c : CallStore.CallData) (ad : ActionData) :
  uuid ≠ EmptyString →
  digits ≠ EmptyString →
  calls ctx !! uuid = Some c →
  getActionData env (CallStore.campaign c) "gather1" = Some ad →
  truthy (next ad) = true →
  let nxt := default EmptyString (next ad) in
  let result := handleAction env ctx "gather1" (Some uuid) (Some digits) in
  snd result
  = [mkElem "Redirect" []
       ((if String.prefix "http" nxt then nxt else baseUrl env ++ "/action/" ++ nxt)
        ++ "?uuid=" ++ uuid)%string]
  ∧ calls (fst result)
    = (if String.eqb (CallStore.campaign c) EmptyString then calls ctx
       else <[uuid := CallStore.merge c
                        (CallStore.mkUpdates (Some "gather1") None (Some CallStore.second))]>
              (calls ctx))
  ∧ webSocketService (fst result)
    = fst (WebSocketService.sendToCallId (webSocketService ctx) uuid
             [("callId", Some uuid); ("OtpCode", Some digits)] (sendThrows env)).
Proof.
  intros Hu Hd Hc Had Hnext nxt result. subst result.
  rewrite (handleAction_known env ctx "gather1" uuid (Some digits) c Hu Hc).
  assert (Hdig : negb (String.eqb digits EmptyString) = true).
  { apply negb_true_iff, String.eqb_neq, Hd. }
  simpl. rewrite handleActionFrom_entry by reflexivity. rewrite Had. simpl.
  rewrite Hdig, Hnext. simpl.
  split; [done|].
  unfold processActionLogic. simpl. rewrite Hdig.
  unfold CallStore.getCall. rewrite Hc. simpl.
  unfold isTwoGatherCampaign. rewrite Had.
  destruct (String.eqb (CallStore.campaign c) EmptyString); simpl; [done|].
  unfold CallStore.updateCall. by rewrite Hc.
Qed.

Lemma gather1_digits_redirect_witness :
  let c := CallStore.mkCall "ch2" "pending" "boostMobile" 5 None None in
  let ad := mkActionData "gather1.wav" (Some "confirm") (Some 6) None None 9 in
  let nxt := default EmptyString (next ad) in
  let result := handleAction twoGatherEnv twoGatherCtx "gather1" (Some "ch2") (Some "4321") in
  snd result
  = [mkElem "Redirect" []
       ((if String.prefix "http" nxt then nxt
         else baseUrl twoGatherEnv ++ "/action/" ++ nxt)
        ++ "?uuid=" ++ "ch2")%string]
  ∧ calls (fst result)
    = (if String.eqb (CallStore.campaign c) EmptyString then calls twoGatherCtx
       else <["ch2" := CallStore.merge c
                         (CallStore.mkUpdates (Some "gather1") None (Some CallStore.second))]>
              (calls twoGatherCtx))
  ∧ webSocketService (fst result)
    = fst (WebSocketService.sendToCallId (webSocketService twoGatherCtx) "ch2"
             [("callId", Some "ch2"); ("OtpCode", Some "4321")] (sendThrows twoGatherEnv)).
Proof.
  apply (gather1_digits_redirect twoGatherEnv twoGatherCtx "ch2" "4321"
           (CallStore.mkCall "ch2" "pending" "boostMobile" 5 None None)
           (mkActionData "gather1.wav" (Some "confirm") (Some 6) None None 9)).
  - discriminate.
  - discriminate.
  - vm_compute. reflexivity.
  - vm_compute. reflexivity.
  - reflexivity.
Defined.

Lemma sendToCallId_frame (env : Env) (ctx : Ctx) (uuid : string)
    (message : WebSocketService.Message) :
  let ctx' := sendToCallId env ctx uuid message in
  calls ctx' = calls ctx
  ∧ WebSocketService.lastState (webSocketService ctx')
    = WebSocketService.lastState (webSocketService ctx)
  ∧ ∀ k, k ≠ uuid →
      WebSocketService.connections (webSocketService ctx') !! k
      = WebSocketService.connections (webSocketService ctx) !! k
      ∧ WebSocketService.pendingMessages (webSocketService ctx') !! k
        = WebSocketService.pendingMessages (webSocketService ctx) !! k.
Proof.
  unfold sendToCallId, WebSocketService.sendToCallId. simpl.
  destruct (WebSocketService.connections (webSocketService ctx) !! uuid) as [ws|];
    [destruct (WebSocketService.isOpen (WebSocketService.readyState ws));
       [destruct (sendThrows env)|]|];
    simpl; split_and!; try done; intros k Hk;
    by rewrite ?lookup_insert_ne.
Qed.

Lemma updateCall_frame (ctx : Ctx) (uuid : string) (u : CallStore.Updates) :
  CallStore.u_uuid u = None ∧ CallStore.u_campaign u = None
  ∧ CallStore.u_created_at u = None ∧ CallStore.u_selectedOption u = None →
  let ctx' := updateCall ctx uuid u in
  webSocketService ctx' = webSocketService ctx
  ∧ (∀ k, k ≠ uuid → calls ctx' !! k = calls ctx !! k)
  ∧ match calls ctx !! uuid, calls ctx' !! uuid with
    | Some c, Some c' =>
        CallStore.uuid c' = CallStore.uuid c
        ∧ CallStore.campaign c' = CallStore.campaign c
        ∧ CallStore.created_at c' = CallStore.created_at c
        ∧ CallStore.selectedOption c' = CallStore.selectedOption c
    | None, None => True
    | _, _ => False
    end.
Proof.
  intros (Hid & Hcmp & Hcr & Hsel). unfold updateCall, CallStore.updateCall. simpl.
  destruct (calls ctx !! uuid) as [c|] eqn:Hc.
  - rewrite lookup_insert_eq. split_and!; try done.
    + intros k Hk. by rewrite lookup_insert_ne.
    + simpl. by rewrite Hid.
    + simpl. by rewrite Hcmp.
    + simpl. by rewrite Hcr.
    + simpl. by rewrite Hsel.
  - by rewrite Hc.
Qed.

Lemma touchesOnly_refl (uuid : string) (ctx : Ctx) : touchesOnly uuid ctx ctx.
Proof. unfold touchesOnly. split_and!; try done. by destruct (calls ctx !! uuid). Qed.

Lemma touchesOnly_send (env : Env) (uuid : string) (ctx ctx1 : Ctx)
    (message : WebSocketService.Message) :
  touchesOnly uuid ctx ctx1 → touchesOnly uuid ctx (sendToCallId env ctx1 uuid message).
Proof.
  intros (H1 & H2 & H3 & H4).
  destruct (sendToCallId_frame env ctx1 uuid message) as (Hc & Hl & Hk).
  unfold touchesOnly. rewrite Hc, Hl. split_and!; try done.
  intros k Hne. destruct (Hk k Hne) as [-> ->]. by apply H4.
Qed.

Lemma touchesOnly_update (uuid : string) (ctx : Ctx) (u : CallStore.Updates) :
  CallStore.u_uuid u = None ∧ CallStore.u_campaign u = None
  ∧ CallStore.u_created_at u = None ∧ CallStore.u_selectedOption u = None →
  touchesOnly uuid ctx (updateCall ctx uuid u).
Proof.
  intros Hsel. destruct (updateCall_frame ctx uuid u Hsel) as (Hw & Hk & Hc).
  unfold touchesOnly. rewrite Hw. by split_and!.
Qed.

(** X24. The side effects of a status stay with the call of the request.
    Whatever the status and the digits, [processActionLogic] leaves every
    other call, every other socket and every other buffered message as
    they were; it adds and removes no call; of the call itself it keeps the
    uuid, the campaign, the creation time and the selected option, so only
    the state and the gather stage can change.  Without digits nothing
    changes at all, unless the status is [confirm]. *)
Theorem processActionLogic_frame (env : Env) (ctx : Ctx) (status uuid : string)
    (digits : option string) :
  let ctx' := processActionLogic env ctx status uuid digits in
  touchesOnly uuid ctx ctx'
  ∧ (truthy digits = false → status ≠ "confirm" → ctx' = ctx).
Proof.
  unfold processActionLogic. cbv zeta.
  destruct (String.eqb status "gather") eqn:E1.
  { destruct (truthy digits); [|split; [apply touchesOnly_refl | done]].
    split; [|done]. apply touchesOnly_send.
    destruct (_ && _); [by apply touchesOnly_update | apply touchesOnly_refl]. }
  destruct (String.eqb status "gather1") eqn:E2.
  { destruct (truthy digits); [|split; [apply touchesOnly_refl | done]].
    split; [|done]. apply touchesOnly_send.
    destruct (_ && _); [by apply touchesOnly_update | apply touchesOnly_refl]. }
  destruct (String.eqb status "option1" || String.eqb status "option2") eqn:E3.
  { destruct (truthy digits); [|split; [apply touchesOnly_refl | done]].
    split; [|done]. apply touchesOnly_send, touchesOnly_refl. }
  destruct (String.eqb status "confirm") eqn:E4; [|split; [apply touchesOnly_refl | done]].
  apply String.eqb_eq in E4.
  split; [|done].
  destruct (_ && _ && _); [by apply touchesOnly_update|].
  destruct (truthy digits); [|apply touchesOnly_refl].
  apply touchesOnly_send.
  destruct (_ && _ && _); [by apply touchesOnly_update | apply touchesOnly_refl].
Qed.

End ActionControllerAnswers.


(** ** UnifiedIVROrchestrator: OTP verdicts *)

Section OrchestratorVerdicts.

Import ActionController Orchestrator.

Lemma calls_sendToCallId (env : Env) (ctx : Ctx) (callId : string)
    (message : WebSocketService.Message) :
  calls (sendToCallId env ctx callId message) = calls ctx.
Proof. done. Qed.

(** One verdict on a call of a campaign with two gathers. *)
Lemma validateOtp_twoGather (env : Env) (ctx : Ctx) (callId : string) (isValid : bool) :
  twoGatherCall env ctx callId →
  let r := validateOtp env ctx callId isValid in
  twoGatherCall env (fst r) callId
  ∧ (stageOf (fst r) callId = Some CallStore.second
     ↔ stageOf ctx callId = Some CallStore.second ∨ isValid = true)
  ∧ (snd r = actionUrl "completed"
     ↔ isValid = true ∧ stageOf ctx callId = Some CallStore.second)
  ∧ snd r ∈ [actionUrl "gather1"; actionUrl "completed"; actionUrl "invalid"].
Proof.
  intros (c & Hc & Hcamp & [ad Had]).
  assert (Htr : negb (String.eqb (CallStore.campaign c) EmptyString) = true).
  { apply negb_true_iff, String.eqb_neq, Hcamp. }
  unfold validateOtp, stageOf, twoGatherCall, CallStore.getCall. rewrite Hc. simpl.
  rewrite Htr, Had.
  destruct c as [cu cs cc cat cso cgs]. simpl in *.
  destruct isValid, cgs as [[]|]; simpl;
    unfold updateCall, CallStore.updateCall; simpl; rewrite ?Hc; simpl;
    rewrite ?lookup_insert_eq; simpl; unfold CallStore.merge; simpl.
  all: split; [eexists; split; [reflexivity|]; simpl; split; [done | by rewrite Had]|].
  all: unfold actionUrl; simpl.
  all: split; [intuition (auto; discriminate)|].
  all: split; [intuition (auto; discriminate)|].
  all: solve [repeat constructor].
Qed.

Lemma runVerdicts_completed (env : Env) (callId : string) (verdicts : list bool) :
  ∀ ctx, twoGatherCall env ctx callId →
  ∀ (i : nat) (url : string),
    snd (runVerdicts env ctx callId verdicts) !! i = Some url →
    (url = actionUrl "completed"
     ↔ verdicts !! i = Some true
       ∧ (stageOf ctx callId = Some CallStore.second
          ∨ ∃ j, (j < i)%nat ∧ verdicts !! j = Some true))
    ∧ url ∈ [actionUrl "gather1"; actionUrl "completed"; actionUrl "invalid"].
Proof.
  induction verdicts as [|v vs IH]; intros ctx Htwo i url Hurl; [done|].
  destruct (validateOtp_twoGather env ctx callId v Htwo) as (Htwo' & Hstage & Hdone & Hin).
  simpl in Hurl. destruct i as [|i]; simpl in Hurl.
  - injection Hurl as <-. split; [|done]. rewrite Hdone. simpl. split.
    + intros [-> Hs]. split; [done | by left].
    + intros [[= ->] [Hs|(j & Hj & _)]]; [done | lia].
  - destruct (IH _ Htwo' i url Hurl) as [Hiff Hmem]. split; [|done].
    rewrite Hiff, Hstage. simpl. split.
    + intros [Hv [[Hs| ->]|(j & Hj & Hvj)]].
      * split; [done | by left].
      * split; [done|]. right. exists 0%nat. split; [lia | done].
      * split; [done|]. right. exists (S j). split; [lia | done].
    + intros [Hv [Hs|(j & Hj & Hvj)]].
      * split; [done | by left; left].
      * split; [done|]. destruct j as [|j]; simpl in Hvj.
        -- injection Hvj as ->. left. by right.
        -- right. exists j. split; [lia | done].
Qed.

(** X25. In a campaign with two gathers the channel is steered to
    [completed] only by a valid verdict that follows an earlier valid one.
    For a stored call of such a campaign that is not yet in its second
    gather, along any sequence of verdicts posted for it: a verdict steers
    to [completed] exactly when it is valid and some earlier verdict of the
    sequence was valid; every other verdict steers to [gather1] or to
    [invalid], and none to a menu's completed step. *)
Theorem completed_needs_two_valid_verdicts (env : Env) (ctx : Ctx) (callId : string)
    (verdicts : list bool) (i : nat) (url : string) :
  twoGatherCall env ctx callId →
  stageOf ctx callId ≠ Some CallStore.second →
  snd (runVerdicts env ctx callId verdicts) !! i = Some url →
  (url = actionUrl "completed"
   ↔ verdicts !! i = Some true ∧ ∃ j, (j < i)%nat ∧ verdicts !! j = Some true)
  ∧ url ∈ [actionUrl "gather1"; actionUrl "completed"; actionUrl "invalid"].
Proof.
  intros Htwo Hstage Hurl.
  destruct (runVerdicts_completed env callId verdicts ctx Htwo i url Hurl) as [Hiff Hmem].
  split; [|done]. rewrite Hiff. split.
  - intros [Hv [Hs|Hj]]; [done | by split].
  - intros [Hv Hj]. split; [done | by right].
Qed.

Lemma completed_needs_two_valid_verdicts_witness :
  (actionUrl "completed" = actionUrl "completed"
   ↔ [true; false; true] !! 2%nat = Some true
     ∧ ∃ j, (j < 2)%nat ∧ [true; false; true] !! j = Some true)
  ∧ actionUrl "completed"
    ∈ [actionUrl "gather1"; actionUrl "completed"; actionUrl "invalid"].
Proof.
  apply (completed_needs_two_valid_verdicts twoGatherEnv twoGatherCtx "ch2"
           [true; false; true] 2 (actionUrl "completed")).
  - exists (CallStore.mkCall "ch2" "pending" "boostMobile" 5 None None).
    split; [vm_compute; reflexivity|]. split; [discriminate|].
    eexists. vm_compute. reflexivity.
  - vm_compute. discriminate.
  - vm_compute. reflexivity.
Defined.

Lemma pending_sendToCallId (env : Env) (ctx : Ctx) (callId : string)
    (message : WebSocketService.Message) :
  WebSocketService.hasOpenSocket (webSocketService ctx) callId = false →
  WebSocketService.pendingMessages (webSocketService (sendToCallId env ctx callId message))
    !! callId = Some message.
Proof.
  unfold WebSocketService.hasOpenSocket, sendToCallId, WebSocketService.sendToCallId.
  destruct (WebSocketService.connections (webSocketService ctx) !! callId) as [ws|];
    [intros ->|intros _]; simpl; apply lookup_insert_eq.
Qed.

Lemma state_updateCall_stage (ctx : Ctx) (callId : string) (g : CallStore.GatherStage) :
  CallStore.state <$> calls (updateCall ctx callId (CallStore.mkUpdates None None (Some g)))
                      !! callId
  = CallStore.state <$> calls ctx !! callId.
Proof.
  unfold updateCall, CallStore.updateCall. simpl.
  destruct (calls ctx !! callId) as [c|] eqn:Hc; [|by rewrite Hc].
  by rewrite lookup_insert_eq.
Qed.

(** X26. One verdict.  The route changes nothing but what concerns the
    call it names: of that call only the gather stage can change (state,
    campaign, creation time and selected option stay), and only when its
    campaign has two gathers; no call is added or removed.  A valid verdict
    steers the channel to [gather1] or to one of the three completed steps,
    an invalid one to [invalid] or back to [gather1], never to a completed
    step.  The verdict is pushed to the socket of the call: when no socket
    is open it is the message buffered for the call, naming the call and
    the verdict.  The route does not check that the call exists: for an
    unknown call it still steers, to [completed] or to [invalid]. *)
Theorem otp_verdict_effects (env : Env) (ctx : Ctx) (callId : string) (isValid : bool) :
  let r := validateOtp env ctx callId isValid in
  touchesOnly callId ctx (fst r)
  ∧ CallStore.state <$> calls (fst r) !! callId = CallStore.state <$> calls ctx !! callId
  ∧ (¬ twoGatherCall env ctx callId → calls (fst r) = calls ctx)
  ∧ snd r ∈ (if isValid
             then [actionUrl "gather1"; actionUrl "completed";
                   actionUrl "completed_option1"; actionUrl "completed_option2"]
             else [actionUrl "invalid"; actionUrl "gather1"])
  ∧ (WebSocketService.hasOpenSocket (webSocketService ctx) callId = false →
     ∃ m, WebSocketService.pendingMessages (webSocketService (fst r)) !! callId = Some m
          ∧ ("callId", Some callId) ∈ m
          ∧ ("OtpValidation", Some (if isValid then "valid" else "invalid")) ∈ m)
  ∧ (calls ctx !! callId = None →
     snd r = actionUrl (if isValid then "completed" else "invalid")).
Proof.
  intros r.
  assert (Hunknown : calls ctx !! callId = None →
                     snd r = actionUrl (if isValid then "completed" else "invalid")).
  { subst r. unfold validateOtp, CallStore.getCall. intros ->. simpl. by destruct isValid. }
  cut (touchesOnly callId ctx (fst r)
       ∧ CallStore.state <$> calls (fst r) !! callId = CallStore.state <$> calls ctx !! callId
       ∧ (¬ twoGatherCall env ctx callId → calls (fst r) = calls ctx)
       ∧ snd r ∈ (if isValid
                  then [actionUrl "gather1"; actionUrl "completed";
                        actionUrl "completed_option1"; actionUrl "completed_option2"]
                  else [actionUrl "invalid"; actionUrl "gather1"])
       ∧ (WebSocketService.hasOpenSocket (webSocketService ctx) callId = false →
          ∃ m, WebSocketService.pendingMessages (webSocketService (fst r)) !! callId = Some m
               ∧ ("callId", Some callId) ∈ m
               ∧ ("OtpValidation", Some (if isValid then "valid" else "invalid")) ∈ m)).
  { intros (H1 & H2 & H3 & H4 & H5). by split_and!. }
  clear Hunknown. subst r.
  unfold validateOtp, CallStore.getCall. cbv zeta.
  set (two := match (if truthy _ then _ else None) with Some _ => true | None => false end).
  assert (Htwo : two = true → twoGatherCall env ctx callId).
  { subst two. unfold twoGatherCall.
    destruct (calls ctx !! callId) as [c|]; simpl; [|done].
    destruct (String.eqb (CallStore.campaign c) EmptyString) eqn:Hcamp; simpl; [done|].
    destruct (getActionData env (CallStore.campaign c) "gather1") eqn:Had; [|done].
    intros _. exists c. split; [done|]. split; [by apply String.eqb_neq|].
    by rewrite Had. }
  clearbody two.
  assert (Hleaf : ∀ (ctx1 : Ctx) (message : WebSocketService.Message) (url : string)
                    (urls : list string) (v : string),
            touchesOnly callId ctx ctx1 →
            webSocketService ctx1 = webSocketService ctx →
            CallStore.state <$> calls ctx1 !! callId = CallStore.state <$> calls ctx !! callId →
            (¬ twoGatherCall env ctx callId → calls ctx1 = calls ctx) →
            url ∈ urls →
            ("callId", Some callId) ∈ message →
            ("OtpValidation", Some v) ∈ message →
            let r := (sendToCallId env ctx1 callId message, url) in
            touchesOnly callId ctx (fst r)
            ∧ CallStore.state <$> calls (fst r) !! callId
              = CallStore.state <$> calls ctx !! callId
            ∧ (¬ twoGatherCall env ctx callId → calls (fst r) = calls ctx)
            ∧ snd r ∈ urls
            ∧ (WebSocketService.hasOpenSocket (webSocketService ctx) callId = false →
               ∃ m, WebSocketService.pendingMessages (webSocketService (fst r)) !! callId
                    = Some m
                    ∧ ("callId", Some callId) ∈ m ∧ ("OtpValidation", Some v) ∈ m)).
  { intros ctx1 message url urls v Ht Hws Hstate Hcalls Hurl Hm1 Hm2. simpl.
    split_and!; try done.
    - by apply touchesOnly_send.
    - intros Hclosed. exists message. split_and!; try done.
      apply pending_sendToCallId. by rewrite Hws. }
  destruct isValid, two.
  - destruct (calls ctx !! callId ≫= CallStore.gatherStage) as [[]|].
    all: apply Hleaf; try done; try solve [repeat constructor].
    all: try apply touchesOnly_refl.
    all: try (by apply touchesOnly_update).
    all: try apply state_updateCall_stage.
    all: intros Hn; exfalso; by apply Hn, Htwo.
  - apply Hleaf; try done; try solve [repeat constructor].
    + apply touchesOnly_refl.
    + repeat case_decide; solve [repeat constructor].
  - destruct (calls ctx !! callId ≫= CallStore.gatherStage) as [[]|].
    all: apply Hleaf; try done; try solve [repeat constructor].
    all: try apply touchesOnly_refl.
    all: try (by apply touchesOnly_update).
    all: try apply state_updateCall_stage.
    all: intros Hn; exfalso; by apply Hn, Htwo.
  - apply Hleaf; try done; try solve [repeat constructor].
    apply touchesOnly_refl.
Qed.

End OrchestratorVerdicts.

(** ** The life of a call *)

Section CallLifetime.

Import ActionController.

(** What a cleanup does to a call depends on its creation time only. *)
Lemma cleanup_same_life (calls calls' : gmap string CallStore.CallData) (now : Z)
    (k : string) :
  CallStore.created_at <$> calls' !! k = CallStore.created_at <$> calls !! k →
  (is_Some (CallStore.cleanupExpiredCalls calls' now !! k)
   ↔ is_Some (CallStore.cleanupExpiredCalls calls now !! k)).
Proof.
  intros H. rewrite !lookup_cleanupExpiredCalls.
  destruct (calls !! k) as [c|], (calls' !! k) as [c'|]; simpl in *; try done.
  injection H as H. rewrite !isExpired_ms, H.
  by destruct (900000 <? now - CallStore.created_at c)%Z.
Qed.

Lemma createdAt_updateCall (calls : gmap string CallStore.CallData) (id : string)
    (u : CallStore.Updates) (k : string) :
  CallStore.u_created_at u = None →
  CallStore.created_at <$> CallStore.updateCall calls id u !! k
  = CallStore.created_at <$> calls !! k.
Proof.
  intros Hu. unfold CallStore.updateCall.
  destruct (calls !! id) as [c|] eqn:Hid; [|done].
  destruct (decide (k = id)) as [->|Hne].
  - rewrite lookup_insert_eq, Hid. simpl. by rewrite Hu.
  - by rewrite lookup_insert_ne.
Qed.

Lemma createdAt_processActionLogic (env : Env) (ctx : Ctx) (status uuid : string)
    (digits : option string) (k : string) :
  CallStore.created_at <$> calls (processActionLogic env ctx status uuid digits) !! k
  = CallStore.created_at <$> calls ctx !! k.
Proof.
  unfold processActionLogic. cbv zeta.
  destruct (String.eqb status "gather").
  { destruct (truthy digits); [|done]. rewrite calls_sendToCallId.
    destruct (_ && _); [by apply createdAt_updateCall | done]. }
  destruct (String.eqb status "gather1").
  { destruct (truthy digits); [|done]. rewrite calls_sendToCallId.
    destruct (_ && _); [by apply createdAt_updateCall | done]. }
  destruct (String.eqb status "option1" || String.eqb status "option2").
  { by destruct (truthy digits). }
  destruct (String.eqb status "confirm"); [|done].
  destruct (_ && _ && _); [by apply createdAt_updateCall|].
  destruct (truthy digits); [|done]. rewrite calls_sendToCallId.
  destruct (_ && _ && _); [by apply createdAt_updateCall | done].
Qed.

Lemma createdAt_handleActionFrom (env : Env) (ctx : Ctx) (status uuid campaign : string)
    (Digits : option string) (k : string) :
  CallStore.created_at
    <$> calls (fst (handleActionFrom env ctx status uuid campaign Digits)) !! k
  = CallStore.created_at <$> calls ctx !! k.
Proof.
  unfold handleActionFrom.
  destruct (getActionMember env campaign status); [|done]. cbv zeta.
  destruct (_ && _ && _); apply createdAt_processActionLogic.
Qed.

Lemma createdAt_handleAction (env : Env) (ctx : Ctx) (status : string)
    (uuid Digits : option string) (k : string) :
  CallStore.created_at <$> calls (fst (handleAction env ctx status uuid Digits)) !! k
  = CallStore.created_at <$> calls ctx !! k.
Proof.
  unfold handleAction.
  destruct (negb (truthy uuid)); [done|]. cbv zeta.
  destruct (CallStore.getCall (calls ctx) (default EmptyString uuid)); [|done].
  destruct (_ && _); [|apply createdAt_handleActionFrom].
  destruct (String.eqb _ "1"); rewrite createdAt_handleActionFrom;
    by apply createdAt_updateCall.
Qed.

Lemma createdAt_validateOtp (env : Env) (ctx : Ctx) (callId : string) (isValid : bool)
    (k : string) :
  CallStore.created_at
    <$> calls (fst (Orchestrator.validateOtp env ctx callId isValid)) !! k
  = CallStore.created_at <$> calls ctx !! k.
Proof.
  unfold Orchestrator.validateOtp. cbv zeta.
  destruct isValid;
    (destruct (match (if truthy _ then _ else None) with Some _ => true | None => false end);
     [destruct (CallStore.getCall (calls ctx) callId ≫= CallStore.gatherStage) as [[]|]|]);
    cbn [fst]; rewrite calls_sendToCallId; try done; by apply createdAt_updateCall.
Qed.

(** X20. No request extends the life of a call.  [updateCall] writes
    every field its update carries: an update that carries a creation
    time gives it to the call it names, and one that carries none leaves
    every call its creation time, and with it what every later cleanup
    keeps and removes.  The action requests and the verdict route only
    make updates of the second kind: whatever the status, the uuid, the
    digits or the verdict, every call has the same creation time after
    the request as before it, and a later cleanup removes it exactly when
    it would have without the request. *)
Theorem update_does_not_extend_life (env : Env) (ctx : Ctx) (now : Z) (k : string) :
  let sameLife (calls' : gmap string CallStore.CallData) :=
    CallStore.created_at <$> calls' !! k = CallStore.created_at <$> calls ctx !! k
    ∧ (is_Some (CallStore.cleanupExpiredCalls calls' now !! k)
       ↔ is_Some (CallStore.cleanupExpiredCalls (calls ctx) now !! k)) in
  (∀ id u, CallStore.u_created_at u = None →
           sameLife (CallStore.updateCall (calls ctx) id u))
  ∧ (∀ id u t, CallStore.u_created_at u = Some t → is_Some (calls ctx !! id) →
               CallStore.created_at <$> CallStore.updateCall (calls ctx) id u !! id
               = Some t)
  ∧ (∀ status uuid Digits,
       sameLife (calls (fst (handleAction env ctx status uuid Digits))))
  ∧ (∀ callId isValid,
       sameLife (calls (fst (Orchestrator.validateOtp env ctx callId isValid)))).
Proof.
  intros sameLife.
  assert (Hlife : ∀ calls',
            CallStore.created_at <$> calls' !! k = CallStore.created_at <$> calls ctx !! k →
            sameLife calls').
  { intros calls' H. split; [done | by apply cleanup_same_life]. }
  split_and!.
  - intros id u Hu. by apply Hlife, createdAt_updateCall.
  - intros id u t Hu [c Hc]. unfold CallStore.updateCall.
    rewrite Hc, lookup_insert_eq. simpl. by rewrite Hu.
  - intros status uuid Digits. apply Hlife, createdAt_handleAction.
  - intros callId isValid. apply Hlife, createdAt_validateOtp.
Qed.

(** An update that carries a creation time moves the expiry of the call:
    created at 0, the call is removed by the cleanup at 1000000 ms, but not
    once an update has set its creation time to 500000. *)
Example update_with_created_at :
  let calls := CallStore.saveCall ∅ "ch1" "pending" "venmo_fraude" 0 in
  let u := CallStore.mkPartial None None None (Some 500000) None None in
  CallStore.cleanupExpiredCalls calls 1000000 !! "ch1" = None
  ∧ is_Some (CallStore.cleanupExpiredCalls (CallStore.updateCall calls "ch1" u) 1000000
             !! "ch1").
Proof. vm_compute. split; [reflexivity | by eexists]. Qed.

End CallLifetime.


(** ** ARIEventHandler *)

Section ARIEventHandlerFacts.

Import ARIEventHandler.

Lemma takeDue_Some (now : Z) (pbId : string) (timers timers' : list (string * Z)) :
  takeDue now pbId timers = Some timers' →
  ∃ l1 l2 due, timers = l1 ++ (pbId, due) :: l2 ∧ timers' = l1 ++ l2 ∧ due <= now.
Proof.
  revert timers'. induction timers as [|[p due] rest IH]; intros timers' H; [done|].
  simpl in H. destruct (decide (p = pbId)) as [->|Hne].
  - destruct (due <=? now)%Z eqn:Hdue.
    + injection H as <-. exists [], rest, due. split_and!; try done. by apply Z.leb_le.
    + destruct (takeDue now pbId rest) as [r|]; [|done]. injection H as <-.
      destruct (IH r eq_refl) as (l1 & l2 & d & -> & -> & Hd).
      by exists ((pbId, due) :: l1), l2, d.
  - destruct (takeDue now pbId rest) as [r|]; [|done]. injection H as <-.
    destruct (IH r eq_refl) as (l1 & l2 & d & -> & -> & Hd).
    by exists ((p, due) :: l1), l2, d.
Qed.

Lemma dedupInv_init (t0 : Z) : dedupInv (init t0).
Proof.
  unfold dedupInv, init. simpl. split_and!; try done.
  - constructor.
  - intros pbId. split; intros H; [by apply elem_of_empty in H | by apply elem_of_nil in H].
  - intros pbId due t H. by apply elem_of_nil in H.
  - intros pbId t _ H. by apply elem_of_nil in H.
Qed.

Lemma dedupInv_handlePlaybackFinished (st : State) (pbId : string) :
  dedupInv st → dedupInv (handlePlaybackFinished st pbId).
Proof.
  intros (Hnd & Hset & Hdue & Hold & Hap). unfold handlePlaybackFinished.
  destruct (decide (pbId ∈ processedPlaybacks st)) as [Hin|Hnin]; [done|].
  assert (Hfresh : pbId ∉ map fst (forgetTimers st)) by by rewrite <- Hset.
  unfold dedupInv. simpl. split_and!.
  - rewrite map_app. apply NoDup_app. split_and!; [done| |].
    + intros x Hx [->|H]%elem_of_cons; [done | by apply elem_of_nil in H].
    + apply NoDup_singleton.
  - intros p. rewrite map_app, elem_of_app, elem_of_union, elem_of_singleton, Hset.
    simpl. rewrite list_elem_of_singleton. tauto.
  - intros p due t [Hp|Hp%list_elem_of_singleton]%elem_of_app [Ht|Ht]%elem_of_cons.
    + injection Ht as -> ->. exfalso. apply Hfresh.
      apply list_elem_of_fmap. by exists (pbId, due).
    + by eapply Hdue.
    + injection Hp as -> ->. injection Ht as ->. done.
    + injection Hp as -> ->. specialize (Hold pbId t Hnin Ht).
      unfold DEDUP_WINDOW in *. lia.
  - intros p t Hp [Ht|Ht]%elem_of_cons.
    + injection Ht as -> ->. exfalso. apply Hp.
      apply elem_of_union. left. by apply elem_of_singleton.
    + apply (Hold p t); [|done]. intros Hin. apply Hp. apply elem_of_union. by right.
  - intros t' Ht'. by apply (Hold pbId t').
  - done.
Qed.

Lemma dedupInv_forget (st : State) (pbId : string) :
  dedupInv st → dedupInv (forget st pbId).
Proof.
  intros (Hnd & Hset & Hdue & Hold & Hap). unfold forget.
  destruct (takeDue (clock st) pbId (forgetTimers st)) as [timers|] eqn:Htake;
    [|done].
  apply takeDue_Some in Htake as (l1 & l2 & due & Heq & -> & Hle).
  rewrite Heq in Hnd, Hset, Hdue.
  rewrite map_app in Hnd. simpl in Hnd.
  apply NoDup_app in Hnd as (Hnd1 & Hdisj & Hnd2).
  apply NoDup_cons in Hnd2 as (Hnin2 & Hnd2).
  assert (Hnin1 : pbId ∉ map fst l1).
  { intros H. apply (Hdisj pbId H). by left. }
  unfold dedupInv. simpl. split_and!.
  - rewrite map_app. apply NoDup_app. split_and!; [done| |done].
    intros x Hx Hx2. apply (Hdisj x Hx). by right.
  - intros p. rewrite elem_of_difference, elem_of_singleton, Hset.
    rewrite !map_app, !elem_of_app. simpl. rewrite elem_of_cons.
    split.
    + intros [[H|[->|H]] Hne]; [by left | done | by right].
    + intros [H|H]; (split; [tauto|]); intros ->; done.
  - intros p d t Hp Ht. eapply Hdue; [|done].
    apply elem_of_app in Hp as [Hp|Hp]; apply elem_of_app; [by left|].
    right. by right.
  - intros p t Hp Ht.
    destruct (decide (p = pbId)) as [->|Hne].
    + assert (t + DEDUP_WINDOW <= due); [|lia].
      eapply Hdue; [|done]. apply elem_of_app. right. by left.
    + apply (Hold p t); [|done]. intros Hin. apply Hp.
      apply elem_of_difference. split; [done|]. by rewrite elem_of_singleton.
  - done.
Qed.

Lemma dedupInv_step (st : State) (i : Input) : dedupInv st → dedupInv (step st i).
Proof.
  intros H. destruct i as [pbId|pbId|serverId|serverId|dt]; simpl.
  - by apply dedupInv_handlePlaybackFinished.
  - by apply dedupInv_forget.
  - done.
  - unfold attemptReconnect. by destruct (_ <? _)%nat.
  - destruct H as (Hnd & Hset & Hdue & Hold & Hap).
    unfold dedupInv, tick. simpl. split_and!; try done.
    intros p t Hp Ht. specialize (Hold p t Hp Ht). lia.
Qed.

Lemma dedupInv_run (inputs : list Input) (st : State) :
  dedupInv st → dedupInv (run st inputs).
Proof.
  revert st. induction inputs as [|i inputs IH]; intros st H; [done|].
  apply IH. by apply dedupInv_step.
Qed.

(** X27. A [PlaybackFinished] event is forwarded at most once per window.
    Whatever events arrive and whenever the forget timers fire (none before
    it is due), two [playback_finished] events forwarded for the same
    playback id are at least 30000 ms apart; and at any time an id is in
    the set of processed playbacks exactly when a forget timer is pending
    for it, so no id stays in the set for ever. *)
Theorem playback_events_deduplicated (t0 : Z) (inputs : list Input) :
  let st := run (init t0) inputs in
  apart (forwarded st)
  ∧ ∀ pbId, pbId ∈ processedPlaybacks st ↔ pbId ∈ map fst (forgetTimers st).
Proof.
  destruct (dedupInv_run inputs (init t0) (dedupInv_init t0)) as (_ & Hset & _ & _ & Hap).
  by split.
Qed.

Lemma occurrences_cons (serverId s : string) (l : list string) :
  occurrences serverId (s :: l)
  = ((if decide (s = serverId) then 1 else 0) + occurrences serverId l)%nat.
Proof.
  unfold occurrences. rewrite filter_cons. by destruct (decide (s = serverId)).
Qed.

Lemma attemptReconnect_other (st : State) (serverId s : string) :
  s ≠ serverId →
  attemptsOf (attemptReconnect st s) serverId = attemptsOf st serverId
  ∧ occurrences serverId (reconnectTimers (attemptReconnect st s))
    = occurrences serverId (reconnectTimers st)
  ∧ occurrences serverId (failed (attemptReconnect st s)) = occurrences serverId (failed st).
Proof.
  intros Hne. unfold attemptReconnect, attemptsOf.
  destruct (_ <? _)%nat; simpl; rewrite ?occurrences_cons, ?decide_False by done;
    rewrite ?lookup_insert_ne by done; done.
Qed.

Lemma attemptReconnect_same (st : State) (serverId : string) :
  let a := attemptsOf st serverId in
  let st' := attemptReconnect st serverId in
  attemptsOf st' serverId = (if (a <? 5)%nat then S a else a)
  ∧ occurrences serverId (reconnectTimers st')
    = ((if (a <? 5)%nat then 1 else 0) + occurrences serverId (reconnectTimers st))%nat
  ∧ occurrences serverId (failed st')
    = ((if (a <? 5)%nat then 0 else 1) + occurrences serverId (failed st))%nat.
Proof.
  unfold attemptReconnect, attemptsOf, maxReconnectAttempts. cbv zeta.
  destruct (_ <? 5)%nat; simpl; rewrite ?occurrences_cons, ?decide_True by done;
    rewrite ?lookup_insert_eq; simpl; split_and!; try done; lia.
Qed.

Lemma step_budget (st : State) (i : Input) (serverId : string) :
  isOpenedOf serverId i = false →
  let a := attemptsOf st serverId in
  let spend := isFailureOf serverId i && (a <? 5)%nat in
  let report := isFailureOf serverId i && negb (a <? 5)%nat in
  attemptsOf (step st i) serverId = (if spend then S a else a)
  ∧ occurrences serverId (reconnectTimers (step st i))
    = ((if spend then 1 else 0) + occurrences serverId (reconnectTimers st))%nat
  ∧ occurrences serverId (failed (step st i))
    = ((if report then 1 else 0) + occurrences serverId (failed st))%nat.
Proof.
  intros Hi. destruct i as [pbId|pbId|s|s|dt]; simpl.
  - unfold handlePlaybackFinished. by destruct (decide _).
  - unfold forget. by destruct (takeDue _ _ _).
  - simpl in Hi. apply bool_decide_eq_false in Hi.
    unfold onOpen, attemptsOf. simpl. by rewrite lookup_insert_ne.
  - case_bool_decide as Hs; simpl.
    + subst s. destruct (attemptReconnect_same st serverId) as (-> & -> & ->).
      by destruct (_ <? 5)%nat.
    + by destruct (attemptReconnect_other st serverId s Hs) as (-> & -> & ->).
  - done.
Qed.

(** X28. A server gets at most five reconnection attempts between two
    successful connections.  Over any stretch of inputs in which the
    socket of a server does not open, of the failures of that server
    (closes, errors, failed connects) only as many schedule a reconnection
    as are left of the budget of five, and each of the others reports
    [server_failed] and schedules nothing; what happens to other servers
    and to playbacks does not count.  A successful connection sets the
    count back to 0. *)
Theorem reconnect_budget (st : State) (inputs : list Input) (serverId : string) :
  Forall (fun i => isOpenedOf serverId i = false) inputs →
  let k := failuresOf serverId inputs in
  let a := attemptsOf st serverId in
  let n := Nat.min k (maxReconnectAttempts - a) in
  let st' := run st inputs in
  attemptsOf st' serverId = (a + n)%nat
  ∧ occurrences serverId (reconnectTimers st')
    = (occurrences serverId (reconnectTimers st) + n)%nat
  ∧ occurrences serverId (failed st') = (occurrences serverId (failed st) + (k - n))%nat
  ∧ attemptsOf (step st' (Opened serverId)) serverId = 0%nat.
Proof.
  intros Hno. cbv zeta. split_and!.
  4:{ unfold attemptsOf. simpl. by rewrite lookup_insert_eq. }
  all: revert st; induction Hno as [|i inputs Hi Hno IH]; intros st;
    [unfold failuresOf; simpl; lia|].
  all: change (run st (i :: inputs)) with (run (step st i) inputs); rewrite IH.
  all: destruct (step_budget st i serverId Hi) as (H1 & H2 & H3); rewrite ?H1, ?H2, ?H3.
  all: assert (Hk : failuresOf serverId (i :: inputs)
                    = ((if isFailureOf serverId i then 1 else 0)
                       + failuresOf serverId inputs)%nat)
    by (unfold failuresOf; rewrite filter_cons;
        destruct (isFailureOf serverId i);
        [rewrite decide_True by done | rewrite decide_False by done]; done).
  all: rewrite Hk; generalize (failuresOf serverId inputs) as k; intros k.
  all: unfold maxReconnectAttempts.
  all: destruct (isFailureOf serverId i);
    destruct (Nat.ltb_spec (attemptsOf st serverId) 5); cbn [andb negb]; lia.
Qed.

Lemma reconnect_budget_witness :
  let st := init 0 in
  let inputs :=
    [Failure "pbx"; Failure "pbx"; PlaybackFinished "pb1"; Failure "other"; Failure "pbx";
     Failure "pbx"; Failure "pbx"; Failure "pbx"; Failure "pbx"] in
  let k := failuresOf "pbx" inputs in
  let a := attemptsOf st "pbx" in
  let n := Nat.min k (maxReconnectAttempts - a) in
  let st' := run st inputs in
  attemptsOf st' "pbx" = (a + n)%nat
  ∧ occurrences "pbx" (reconnectTimers st')
    = (occurrences "pbx" (reconnectTimers st) + n)%nat
  ∧ occurrences "pbx" (failed st') = (occurrences "pbx" (failed st) + (k - n))%nat
  ∧ attemptsOf (step st' (Opened "pbx")) "pbx" = 0%nat.
Proof.
  apply (reconnect_budget (init 0)
           [Failure "pbx"; Failure "pbx"; PlaybackFinished "pb1"; Failure "other";
            Failure "pbx"; Failure "pbx"; Failure "pbx"; Failure "pbx"; Failure "pbx"]
           "pbx").
  repeat constructor.
Defined.

(** Seven failures of one server: five reconnections, two reports. *)
Example reconnect_budget_sample :
  let st' := run (init 0)
               [Failure "pbx"; Failure "pbx"; Failure "pbx"; Failure "pbx"; Failure "pbx";
                Failure "pbx"; Failure "pbx"] in
  reconnectTimers st' = ["pbx"; "pbx"; "pbx"; "pbx"; "pbx"]
  ∧ failed st' = ["pbx"; "pbx"].
Proof. vm_compute. split; reflexivity. Qed.

(** The same playback id twice within the window and once after the forget
    timer has fired: two events are forwarded. *)
Example playback_dedup_sample :
  forwarded (run (init 0)
               [PlaybackFinished "pb1"; Tick 10; PlaybackFinished "pb1"; Tick 30000;
                Forget "pb1"; PlaybackFinished "pb1"])
  = [("pb1", 30010); ("pb1", 0)].
Proof. vm_compute. reflexivity. Qed.

End ARIEventHandlerFacts.


(** ** ARIService *)

Section ARIServiceFacts.

Import ARIService.

Lemma step_unregistered (fuel : nat) (channelId : string) (st : State) (i : Input) :
  activeChannels st !! channelId = None →
  channelId ∈ completedChannels st →
  step fuel channelId st i = st.
Proof.
  intros Hnone Hdone.
  destruct i; simpl;
    unfold handleDTMF, handlePlaybackFinished, setChannelAction, hangupCall,
      channel_hangup;
    rewrite ?Hnone; try done.
  by rewrite decide_True.
Qed.

(** X29. Once the hangup event of a channel has been handled, nothing
    reaches its session any more.  The first hangup event of a channel
    pushes one [completed] message with the call duration and the cause,
    takes the session out of the registry and the call out of the call
    store, and leaves every other channel and call alone.  After that, and
    until the timer armed by the cleanup clears the mark 30 seconds later,
    every digit, playback end, steering request, hangup request and further
    hangup event for the channel leaves the service exactly as it is.  The
    session itself is not destroyed by the event: it is released as it
    was, with its timers still armed and without a request to the PBX. *)
Theorem events_after_hangup_are_dropped (fuel : nat) (st : State) (channelId : string)
    (cause : option Z) (now : Z) (sendThrows : bool) (inputs : list Input) :
  channelId ∉ completedChannels st →
  let st1 := channel_hangup st channelId cause now sendThrows in
  let duration :=
    match channelAnswerTimes st !! channelId with
    | Some answerTime => durationString now answerTime
    | None => EmptyString
    end in
  run fuel channelId st1 inputs = st1
  ∧ activeChannels st1 !! channelId = None
  ∧ calls st1 !! channelId = None
  ∧ (∀ k, k ≠ channelId →
     activeChannels st1 !! k = activeChannels st !! k ∧ calls st1 !! k = calls st !! k)
  ∧ webSocketService st1
    = fst (WebSocketService.sendToCallId (webSocketService st) channelId
             [("callId", Some channelId); ("status", Some "completed");
              ("callDuration", Some duration);
              ("hangupCause", Some (translateHangupCause cause))]
             sendThrows)
  ∧ released st1
    = match activeChannels st !! channelId with
      | Some manager => manager :: released st
      | None => released st
      end.
Proof.
  intros Hfresh st1 duration.
  assert (Hst1 : activeChannels st1 !! channelId = None
                 ∧ channelId ∈ completedChannels st1).
  { subst st1. unfold channel_hangup. rewrite decide_False by done. simpl.
    split; [apply lookup_delete_eq|]. apply elem_of_union. left. by apply elem_of_singleton. }
  destruct Hst1 as [Hnone Hdone].
  split_and!.
  - induction inputs as [|i inputs IH]; [done|].
    unfold run. simpl. rewrite (step_unregistered fuel channelId st1 i Hnone Hdone).
    exact IH.
  - done.
  - subst st1. unfold channel_hangup. rewrite decide_False by done. simpl.
    apply lookup_delete_eq.
  - intros k Hk. subst st1. unfold channel_hangup. rewrite decide_False by done. simpl.
    unfold CallStore.removeCall. by rewrite !lookup_delete_ne.
  - subst st1. unfold channel_hangup. by rewrite decide_False.
  - subst st1. unfold channel_hangup. by rewrite decide_False.
Qed.

Lemma events_after_hangup_are_dropped_witness :
  let st := sampleState in
  let inputs := [Dtmf "1"; PlaybackEnd None; HangupEvent (Some 16) 9000 false; Steer "x"] in
  let st1 := channel_hangup st "ch1" (Some 16) 4400 false in
  let duration :=
    match channelAnswerTimes st !! "ch1" with
    | Some answerTime => durationString 4400 answerTime
    | None => EmptyString
    end in
  run 8 "ch1" st1 inputs = st1
  ∧ activeChannels st1 !! "ch1" = None
  ∧ calls st1 !! "ch1" = None
  ∧ (∀ k, k ≠ "ch1" →
     activeChannels st1 !! k = activeChannels st !! k ∧ calls st1 !! k = calls st !! k)
  ∧ webSocketService st1
    = fst (WebSocketService.sendToCallId (webSocketService st) "ch1"
             [("callId", Some "ch1"); ("status", Some "completed");
              ("callDuration", Some duration);
              ("hangupCause", Some (translateHangupCause (Some 16)))]
             false)
  ∧ released st1
    = match activeChannels st !! "ch1" with
      | Some manager => manager :: released st
      | None => released st
      end.
Proof.
  apply (events_after_hangup_are_dropped 8 sampleState "ch1" (Some 16) 4400 false
           [Dtmf "1"; PlaybackEnd None; HangupEvent (Some 16) 9000 false; Steer "x"]).
  vm_compute. discriminate.
Defined.

(** The call lasted 3400 ms: the push says 3 seconds, cause [normal]. *)
Example hangup_push_sample :
  WebSocketService.pendingMessages
    (webSocketService (channel_hangup sampleState "ch1" (Some 16) 4400 false)) !! "ch1"
  = Some [("callId", Some "ch1"); ("status", Some "completed");
          ("callDuration", Some "3"); ("hangupCause", Some "normal")].
Proof. vm_compute. reflexivity. Qed.

(** X30. A hangup request for a registered channel asks the PBX to hang
    up and waits for the answer.  When the PBX accepts, or answers 404
    because the channel is already gone, the request succeeds: the session
    is destroyed and taken out of the registry (a session that was still
    live has by then sent a second hangup of its own), and the call stays
    in the call store until the hangup event arrives.  On any other
    rejection the request fails and the session stays registered as it
    was, not destroyed and with its timers armed.  Nothing is pushed either
    way. *)
Theorem hangup_request_effects (st : State) (channelId : string)
    (manager : ChannelManager.World) :
  activeChannels st !! channelId = Some manager →
  let r := hangupCall st channelId in
  let s := ChannelManager.session manager in
  let reply := hd ChannelManager.PbxOk (ChannelManager.pbxReplies manager) in
  calls (fst r) = calls st
  ∧ webSocketService (fst r) = webSocketService st
  ∧ completedChannels (fst r) = completedChannels st
  ∧ (reply = ChannelManager.PbxOk ∨ reply = ChannelManager.PbxError (Some 404) →
     snd r = true
     ∧ activeChannels (fst r) !! channelId = None
     ∧ ∃ manager', released (fst r) = manager' :: released st
         ∧ ChannelManager.isDestroyed (ChannelManager.session manager') = true
         ∧ ChannelManager.trace manager'
           = (if ChannelManager.isDestroyed s
              then [ChannelManager.ApiHangup channelId]
              else [ChannelManager.ApiHangup (ChannelManager.id s);
                    ChannelManager.ApiHangup channelId])
             ++ ChannelManager.trace manager)
  ∧ (reply ≠ ChannelManager.PbxOk → reply ≠ ChannelManager.PbxError (Some 404) →
     snd r = false
     ∧ released (fst r) = released st
     ∧ ∃ manager', activeChannels (fst r) !! channelId = Some manager'
         ∧ ChannelManager.session manager' = s
         ∧ ChannelManager.timers manager' = ChannelManager.timers manager
         ∧ ChannelManager.trace manager'
           = ChannelManager.ApiHangup channelId :: ChannelManager.trace manager).
Proof.
  intros Hm. unfold hangupCall. rewrite Hm.
  destruct manager as [[i u ra [d r n f a gt tsec] pb ip ct th pa cas isd] tm nt tr pr fr ps].
  unfold ChannelManager.api. simpl.
  assert (Hok : ∀ reply,
            hangupResolves reply = true
            ↔ reply = ChannelManager.PbxOk ∨ reply = ChannelManager.PbxError (Some 404)).
  { intros [|[status|]]; simpl.
    - split; [by left | done].
    - rewrite Z.eqb_eq. split.
      + intros ->. by right.
      + by intros [?|[= ->]].
    - split; [done | by intros [?|?]]. }
  set (reply := match pr with [] => ChannelManager.PbxOk | x :: _ => x end).
  assert (Hreply : hd ChannelManager.PbxOk pr = reply) by by destruct pr.
  rewrite Hreply. specialize (Hok reply). clearbody reply.
  destruct (hangupResolves reply) eqn:Hres; simpl.
  - split_and!; try done.
    + intros _. split_and!; [done | apply lookup_delete_eq |].
      eexists. split; [done|].
      unfold ChannelManager.exec, ChannelManager.destroy, ChannelManager.clearTimeoutHandle,
        ChannelManager.clearGatherTimeout, ChannelManager.get, mbind, ChannelManager.M_bind.
      simpl. destruct isd; simpl; [done|].
      by destruct th, gt.
    + intros H1 H2. exfalso. destruct Hok as [Hok _]. by destruct (Hok eq_refl).
  - split_and!; try done.
    + intros H. destruct Hok as [_ Hok]. by specialize (Hok H).
    + intros _ _. split_and!; try done.
      eexists. split; [apply lookup_insert_eq|]. done.
Qed.

Lemma hangup_request_effects_witness :
  let st := sampleState in
  let manager := ChannelManager.gatheringWorld in
  let r := hangupCall st "ch1" in
  let s := ChannelManager.session manager in
  let reply := hd ChannelManager.PbxOk (ChannelManager.pbxReplies manager) in
  calls (fst r) = calls st
  ∧ webSocketService (fst r) = webSocketService st
  ∧ completedChannels (fst r) = completedChannels st
  ∧ (reply = ChannelManager.PbxOk ∨ reply = ChannelManager.PbxError (Some 404) →
     snd r = true
     ∧ activeChannels (fst r) !! "ch1" = None
     ∧ ∃ manager', released (fst r) = manager' :: released st
         ∧ ChannelManager.isDestroyed (ChannelManager.session manager') = true
         ∧ ChannelManager.trace manager'
           = (if ChannelManager.isDestroyed s
              then [ChannelManager.ApiHangup "ch1"]
              else [ChannelManager.ApiHangup (ChannelManager.id s);
                    ChannelManager.ApiHangup "ch1"])
             ++ ChannelManager.trace manager)
  ∧ (reply ≠ ChannelManager.PbxOk → reply ≠ ChannelManager.PbxError (Some 404) →
     snd r = false
     ∧ released (fst r) = released st
     ∧ ∃ manager', activeChannels (fst r) !! "ch1" = Some manager'
         ∧ ChannelManager.session manager' = s
         ∧ ChannelManager.timers manager' = ChannelManager.timers manager
         ∧ ChannelManager.trace manager'
           = ChannelManager.ApiHangup "ch1" :: ChannelManager.trace manager).
Proof.
  apply (hangup_request_effects sampleState "ch1" ChannelManager.gatheringWorld).
  unfold sampleState. simpl. apply lookup_insert_eq.
Defined.

(** The channel is already gone on the PBX (404): the request succeeds and
    the session is unregistered; on a 500 it fails and the session stays. *)
Example hangup_request_404 :
  let gone :=
    ChannelManager.newWorld (ChannelManager.newSession "ch9" None)
      [ChannelManager.PbxError (Some 404)] [] [] in
  let down :=
    ChannelManager.newWorld (ChannelManager.newSession "ch9" None)
      [ChannelManager.PbxError (Some 500)] [] [] in
  let st w := mkState (<["ch9" := w]> ∅) ∅ ∅ ∅ WebSocketService.empty [] [] in
  snd (hangupCall (st gone) "ch9") = true
  ∧ activeChannels (fst (hangupCall (st gone) "ch9")) !! "ch9" = None
  ∧ snd (hangupCall (st down) "ch9") = false
  ∧ is_Some (activeChannels (fst (hangupCall (st down) "ch9")) !! "ch9").
Proof. vm_compute. split_and!; try reflexivity. by eexists. Qed.

End ARIServiceFacts.
